(** * Conjoint-study helpers: design generation, utility estimation,
      importance and market simulation

    A shallow embedding of [plugins/edsl-research/skills/conjoint-study/helpers.py].

    Modelling conventions.
    - A Python [dict] whose iteration order is observable (the attribute
      specification) is an association list with pairwise distinct keys,
      in insertion order.  A [dict] that is only looked up, compared or
      summed over (a profile, a counter, a utility table) is a [gmap]:
      equality of [gmap]s is Python's [==] on dicts.
    - Python integers are [Z]; [range(n)] runs [Z.to_nat n] times.
    - Python floats are idealised.  The balance score only uses field
      operations on counts and is computed in exact rationals [Q], which
      keeps the design search executable.  Utilities, importances and
      choice shares go through [math.log] and [math.exp] and live in [R].
      Where floats do more than round (overflow, NaN, underflow, absorption)
      the idealisation is not the program: the market simulator is
      therefore also modelled on binary64 floats, [float_market_sim].
    - Exceptions and [sys.exit] are values of [error]; a function that can
      raise returns a [result].
    - The module-level generator of [random] is threaded explicitly.
    - A [str] that is inspected character by character (the research
      question, an answer cell) is a [string] of the code points below
      256; other strings are only compared.
    - File input and output are left out: the commands are modelled from
      the parsed input to the tables they write. *)

From Stdlib Require Import QArith Qround Reals Lra Lia PrimFloat.
From Stdlib Require DecimalString.
From stdpp Require Import gmap strings list fin_maps.

Close Scope R_scope.
Close Scope Q_scope.
Open Scope string_scope.
Open Scope list_scope.

(** ** Errors *)

Inductive error : Type :=
| KeyError
| ValueError
| IndexError
| TypeError
| ZeroDivisionError
| OverflowError
| SystemExit (code : Z).

Inductive result (A : Type) : Type :=
| Ok (a : A)
| Err (e : error).
Arguments Ok {A} a.
Arguments Err {A} e.

#[global] Instance result_ret : MRet result := λ A a, Ok a.
#[global] Instance result_bind : MBind result :=
  λ A B f m, match m with Ok a => f a | Err e => Err e end.

Definition is_error {A} (r : result A) : Prop :=
  match r with Ok _ => False | Err _ => True end.

(** [for x in l: acc = f(acc, x)] where the body may raise. *)
Fixpoint foldlM {A B} (f : B → A → result B) (acc : B) (l : list A) : result B :=
  match l with
  | [] => Ok acc
  | x :: l' => acc' ← f acc x; foldlM f acc' l'
  end.

(** ** Data model *)

(** A profile maps attribute names to levels. *)
Abbreviation Profile := (gmap string string).

(** The attribute specification: attribute name -> levels, in file order. *)
Abbreviation Attributes := (list (string * list string)).

(** [attributes[n]] *)
Fixpoint attr_get (attributes : Attributes) (n : string) : result (list string) :=
  match attributes with
  | [] => Err KeyError
  | (k, v) :: rest => if decide (k = n) then Ok v else attr_get rest n
  end.

(** ** Profile Enumerator *)

(** [itertools.product] of the level lists: the rightmost list varies
    fastest. *)
Fixpoint product {A} (level_lists : list (list A)) : list (list A) :=
  match level_lists with
  | [] => [[]]
  | levels :: rest => x ← levels; (λ combo, x :: combo) <$> product rest
  end.

(** [dict(pairs)]: a later pair overrides an earlier one with the same key. *)
Definition dict_of (pairs : list (string * string)) : Profile :=
  foldl (λ d kv, <[kv.1 := kv.2]> d) ∅ pairs.

Definition _all_profiles (attributes : Attributes) : result (list Profile) :=
  let names := attributes.*1 in
  level_lists ← mapM (attr_get attributes) names;
  Ok ((λ combo, dict_of (zip names combo)) <$> product level_lists).

(** The spec's wording of the enumeration order: one loop per attribute, in
    specification order, each running through the levels in the given
    order; the innermost body emits the profile built so far. *)
Fixpoint nested_iteration (attributes : Attributes) (built : Profile) : list Profile :=
  match attributes with
  | [] => [built]
  | (name, levels) :: rest =>
      level ← levels; nested_iteration rest (<[name := level]> built)
  end.

(** Product of the per-attribute level counts. *)
Definition level_count_product (attributes : Attributes) : nat :=
  foldr (λ a n, length a.2 * n) 1 attributes.

(** ** Balance Scorer *)

Definition _profile_diff_count (p1 p2 : Profile) : result nat :=
  foldlM (λ n kv, match p2 !! kv.1 with
                  | None => Err KeyError
                  | Some v2 => Ok (if decide (kv.2 ≠ v2) then S n else n)
                  end) 0 (map_to_list p1).

(** [counts[profile[attr_name]] += 1; total += 1] over every slot. *)
Definition count_slot (attr_name : string) (st : gmap string nat * nat)
    (profile : Profile) : result (gmap string nat * nat) :=
  match profile !! attr_name with
  | None => Err KeyError
  | Some level => Ok (<[level := S (default 0 (st.1 !! level))]> st.1, S st.2)
  end.

Definition count_levels (attr_name : string) (choice_sets : list (list Profile))
  : result (gmap string nat * nat) :=
  foldlM (λ st cs, foldlM (count_slot attr_name) st cs) (∅, 0) choice_sets.

Definition Qnat (n : nat) : Q := inject_Z (Z.of_nat n).

Definition expected_count (total : nat) (levels : list string) : Q :=
  match levels with
  | [] => 1%Q
  | _ => (Qnat total / Qnat (length levels))%Q
  end.

(** [(obs - expected) ** 2 / expected if expected > 0 else 0] *)
Definition deviation (obs : nat) (expected : Q) : Q :=
  if Qlt_le_dec 0 expected
  then ((Qnat obs - expected) ^ 2 / expected)%Q
  else 0%Q.

Definition _level_balance_score (choice_sets : list (list Profile))
    (attributes : Attributes) : result Q :=
  foldlM (λ score a,
    '(counts, total) ← count_levels a.1 choice_sets;
    let expected := expected_count total a.2 in
    Ok (foldl (λ score level,
                 (score + deviation (default 0%nat (counts !! level)) expected)%Q)
              score a.2))
    0%Q attributes.

(** The spec's wording of the score. *)
Definition slots (choice_sets : list (list Profile)) : list Profile :=
  concat choice_sets.

Definition observed (choice_sets : list (list Profile)) (attr_name level : string) : nat :=
  length (filter (λ p : Profile, p !! attr_name = Some level) (slots choice_sets)).

Definition expected (choice_sets : list (list Profile)) (levels : list string) : Q :=
  (Qnat (length (slots choice_sets)) / Qnat (length levels))%Q.

Definition Qsum (l : list Q) : Q := foldr Qplus 0%Q l.

Definition balance_formula (choice_sets : list (list Profile))
    (attributes : Attributes) : Q :=
  Qsum ((λ a,
    Qsum ((λ level,
      let e := expected choice_sets a.2 in
      if Qlt_le_dec 0 e
      then ((Qnat (observed choice_sets a.1 level) - e) ^ 2 / e)%Q
      else 0%Q) <$> a.2)) <$> attributes).

(** ** The random generator

    [random.seed], [random.shuffle] and [random.randint] are the standard
    library's; they are taken as the operations of a generator whose state
    is threaded through the search. *)

Class RandomGen := {
  rng_state : Type;
  rng_seed : Z → rng_state;
  rng_shuffle : ∀ {A : Type}, list A → rng_state → list A * rng_state;
  rng_randint : Z → Z → rng_state → Z * rng_state;
}.

(** What the library documents: a shuffle permutes, and [randint(a, b)]
    with [a <= b] lies in the closed range. *)
Class RandomGenLaws (G : RandomGen) : Prop := {
  rng_shuffle_perm : ∀ (A : Type) (l : list A) s, (rng_shuffle l s).1 ≡ₚ l;
  rng_randint_range : ∀ a b s, (a ≤ b)%Z →
    (a ≤ (rng_randint a b s).1 ≤ b)%Z;
}.

(** A small linear congruential generator, for running the search on
    concrete inputs. *)
Definition lcg_next (s : Z) : Z := ((s * 1103515245 + 12345) `mod` 2147483648)%Z.

#[global] Instance lcg : RandomGen := {|
  rng_state := Z;
  rng_seed := λ n, n;
  rng_shuffle := λ A l s, (rotate (Z.to_nat (s `mod` 7)) l, lcg_next s);
  rng_randint := λ a b s, ((a + s `mod` (b - a + 1))%Z, lcg_next s);
|}.

Section search.
Context {G : RandomGen}.

(** Computations that use the generator and may raise. *)
Definition M (A : Type) : Type := rng_state → result (A * rng_state).

#[global] Instance M_ret : MRet M := λ A a s, Ok (a, s).
#[global] Instance M_bind : MBind M :=
  λ A B f m s, match m s with Ok (a, s') => f a s' | Err e => Err e end.

Definition lift {A} (r : result A) : M A :=
  λ s, match r with Ok a => Ok (a, s) | Err e => Err e end.

Definition seed (n : Z) : M () := λ _, Ok ((), rng_seed n).

Definition shuffle {A} (l : list A) : M (list A) := λ s, Ok (rng_shuffle l s).

(** [random.randint(a, b)] raises [ValueError] on an empty range. *)
Definition randint (a b : Z) : M Z :=
  λ s, if decide (a ≤ b)%Z then Ok (rng_randint a b s) else Err ValueError.

(** [l.pop(i)] for an index [0 <= i]. *)
Definition pop {A} (l : list A) (i : Z) : result (A * list A) :=
  match l !! Z.to_nat i with
  | Some x => Ok (x, delete (Z.to_nat i) l)
  | None => Err IndexError
  end.

(** ** Design Search Engine *)

(** [all(_profile_diff_count(cand, t) >= min_diff for t in task)] *)
Fixpoint all_min_diff (min_diff : Z) (cand : Profile) (task : list Profile)
  : result bool :=
  match task with
  | [] => Ok true
  | t :: rest =>
      d ← _profile_diff_count cand t;
      if decide (min_diff ≤ Z.of_nat d)%Z
      then all_min_diff min_diff cand rest
      else Ok false
  end.

(** The loop over [candidates]. *)
Fixpoint fill_min_diff (profiles_per_task min_diff : Z)
    (candidates task : list Profile) : result (list Profile) :=
  match candidates with
  | [] => Ok task
  | cand :: rest =>
      if decide (profiles_per_task ≤ Z.of_nat (length task))%Z then Ok task
      else
        ok ← all_min_diff min_diff cand task;
        fill_min_diff profiles_per_task min_diff rest
          (if (ok : bool) then task ++ [cand] else task)
  end.

(** The loop over [remaining]. *)
Fixpoint fill_relaxed (profiles_per_task : Z)
    (remaining task : list Profile) : list Profile :=
  match remaining with
  | [] => task
  | cand :: rest =>
      if decide (profiles_per_task ≤ Z.of_nat (length task))%Z then task
      else fill_relaxed profiles_per_task rest (task ++ [cand])
  end.

(** One pass of the body of [for _ in range(n_tasks)]: the task and the
    pool left over. *)
Definition one_task (profiles : list Profile) (profiles_per_task min_diff : Z)
    (available : list Profile) : M (list Profile * list Profile) :=
  available ← (if decide (available = []) then shuffle profiles
               else mret available);
  i ← randint 0 (Z.of_nat (length available) - 1);
  '(first, available) ← lift (pop available i);
  candidates ← shuffle (filter (λ p, p ≠ first) profiles);
  task ← lift (fill_min_diff profiles_per_task min_diff candidates [first]);
  task ← (if decide (Z.of_nat (length task) < profiles_per_task)%Z then
            remaining ← shuffle (filter (λ p, p ∉ task) profiles);
            mret (fill_relaxed profiles_per_task remaining task)
          else mret task);
  mret (task, available).

Fixpoint tasks_loop (n : nat) (profiles : list Profile)
    (profiles_per_task min_diff : Z) (available : list Profile)
    (choice_sets : list (list Profile)) : M (list (list Profile)) :=
  match n with
  | O => mret choice_sets
  | S n' =>
      '(task, available) ← one_task profiles profiles_per_task min_diff available;
      tasks_loop n' profiles profiles_per_task min_diff available
        (choice_sets ++ [task])
  end.

(** One attempt: the body of [for _ in range(iterations)] up to the score. *)
Definition attempt (profiles : list Profile) (attributes : Attributes)
    (n_tasks profiles_per_task min_diff : Z) : M (list (list Profile) * Q) :=
  available ← shuffle profiles;
  choice_sets ← tasks_loop (Z.to_nat n_tasks) profiles profiles_per_task
                  min_diff available [];
  score ← lift (_level_balance_score choice_sets attributes);
  mret (choice_sets, score).

(** [best_score] starts at [float("inf")]: [None] is infinity. *)
Definition score_lt (score : Q) (best_score : option Q) : bool :=
  match best_score with
  | None => true
  | Some b => if Qlt_le_dec score b then true else false
  end.

Fixpoint iterations_loop (n : nat) (profiles : list Profile)
    (attributes : Attributes) (n_tasks profiles_per_task min_diff : Z)
    (best_sets : option (list (list Profile))) (best_score : option Q)
  : M (option (list (list Profile)) * option Q) :=
  match n with
  | O => mret (best_sets, best_score)
  | S n' =>
      '(choice_sets, score) ← attempt profiles attributes n_tasks
                                profiles_per_task min_diff;
      if score_lt score best_score
      then iterations_loop n' profiles attributes n_tasks profiles_per_task
             min_diff (Some choice_sets) (Some score)
      else iterations_loop n' profiles attributes n_tasks profiles_per_task
             min_diff best_sets best_score
  end.

Definition _generate_one_version (profiles : list Profile)
    (attributes : Attributes) (n_tasks profiles_per_task min_diff iterations : Z)
  : M (option (list (list Profile)) * option Q) :=
  iterations_loop (Z.to_nat iterations) profiles attributes n_tasks
    profiles_per_task min_diff None None.
End search.

(** ** Design generation *)

(** The design specification file.  Every key but [attributes] is read with
    [spec.get(key, default)]. *)
Record DesignSpec := {
  spec_attributes : Attributes;
  spec_tasks_per_version : option Z;
  spec_profiles_per_task : option Z;
  spec_n_versions : option Z;
  spec_min_attribute_diff : option Z;
  spec_seed : option Z;
  spec_include_none : option bool;
}.

Record Version := {
  version : Z;
  balance_score : Q;
  choice_sets : list (list Profile);
}.

(** The object written to the output file. *)
Record Design := {
  out_attributes : Attributes;
  out_n_tasks : Z;
  out_profiles_per_task : Z;
  out_n_versions : Z;
  out_include_none : bool;
  out_total_profiles : Z;
  out_versions : list Version;
}.

(** [round(score, 4)], ties to even. *)
Definition round4 (q : Q) : Q :=
  let scaled := (q * 10000)%Q in
  let lo := Qfloor scaled in
  let frac := (scaled - inject_Z lo)%Q in
  let n := match Qcompare frac (1 # 2) with
           | Lt => lo
           | Gt => (lo + 1)%Z
           | Eq => if Z.even lo then lo else (lo + 1)%Z
           end in
  (inject_Z n / 10000)%Q.

Section design.
Context {G : RandomGen}.

(** [for cs in choice_sets: random.shuffle(cs)] *)
Fixpoint shuffle_each (choice_sets : list (list Profile)) : M (list (list Profile)) :=
  match choice_sets with
  | [] => mret []
  | cs :: rest =>
      cs' ← shuffle cs;
      rest' ← shuffle_each rest;
      mret (cs' :: rest')
  end.

Definition default_iterations : Z := 1000.

(** The body of [for v in range(n_versions)]. *)
Definition one_version (profiles : list Profile) (attributes : Attributes)
    (n_tasks profiles_per_task min_diff base_seed v : Z) : M Version :=
  _ ← seed (base_seed + v);
  '(best_sets, best_score) ← _generate_one_version profiles attributes n_tasks
                               profiles_per_task min_diff default_iterations;
  match best_sets, best_score with
  | Some sets, Some score =>
      sets' ← shuffle_each sets;
      mret {| version := v + 1;
              balance_score := round4 score;
              choice_sets := sets' |}
  | _, _ => lift (Err TypeError)
  end.

Fixpoint versions_loop (n : nat) (v : Z) (profiles : list Profile)
    (attributes : Attributes) (n_tasks profiles_per_task min_diff base_seed : Z)
    (all_versions : list Version) : M (list Version) :=
  match n with
  | O => mret all_versions
  | S n' =>
      ver ← one_version profiles attributes n_tasks profiles_per_task
              min_diff base_seed v;
      versions_loop n' (v + 1) profiles attributes n_tasks profiles_per_task
        min_diff base_seed (all_versions ++ [ver])
  end.

Definition clamp_min_diff (min_diff n_attrs : Z) : Z :=
  if decide (min_diff > n_attrs)%Z then Z.max 1 (n_attrs - 1) else min_diff.

Definition generate_design (spec : DesignSpec) : M Design :=
  let attributes := spec_attributes spec in
  let n_tasks := default 8%Z (spec_tasks_per_version spec) in
  let profiles_per_task := default 3%Z (spec_profiles_per_task spec) in
  let n_versions := default 4%Z (spec_n_versions spec) in
  let min_diff := default 2%Z (spec_min_attribute_diff spec) in
  let base_seed := default 42%Z (spec_seed spec) in
  let include_none := default false (spec_include_none spec) in
  _ ← seed base_seed;
  profiles ← lift (_all_profiles attributes);
  if decide (Z.of_nat (length profiles) < profiles_per_task)%Z
  then lift (Err (SystemExit 1))
  else
    let n_attrs := Z.of_nat (length attributes) in
    let min_diff := clamp_min_diff min_diff n_attrs in
    all_versions ← versions_loop (Z.to_nat n_versions) 0 profiles attributes
                     n_tasks profiles_per_task min_diff base_seed [];
    mret {| out_attributes := attributes;
            out_n_tasks := n_tasks;
            out_profiles_per_task := profiles_per_task;
            out_n_versions := n_versions;
            out_include_none := include_none;
            out_total_profiles := Z.of_nat (length profiles);
            out_versions := all_versions |}.

(** A run of the command from whatever state the process-wide generator
    is in: the design written, or the error raised before writing. *)
Definition run_generate_design (spec : DesignSpec) (s0 : rng_state) : result Design :=
  match generate_design spec s0 with
  | Ok (d, _) => Ok d
  | Err e => Err e
  end.

(** The stream of version [v]: what [one_version] computes from the state
    [random.seed(base_seed + v)] leaves. *)
Definition version_from_seed (profiles : list Profile) (attributes : Attributes)
    (n_tasks profiles_per_task min_diff base_seed v : Z) : result Version :=
  match _generate_one_version profiles attributes n_tasks profiles_per_task
          min_diff default_iterations (rng_seed (base_seed + v)) with
  | Ok ((Some sets, Some score), s) =>
      match shuffle_each sets s with
      | Ok (sets', _) => Ok {| version := v + 1;
                               balance_score := round4 score;
                               choice_sets := sets' |}
      | Err e => Err e
      end
  | Ok _ => Err TypeError
  | Err e => Err e
  end.
End design.

(** ** Utility Estimator *)

Record ChoiceRecord := {
  task : Z;
  chosen_profile : option Profile;
  agent_traits : gmap string string;
}.

Abbreviation Counter := (gmap string nat).
Abbreviation UtilityTable := (gmap string (gmap string R)).

(** [c[level] += 1] on a [collections.Counter]. *)
Definition counter_incr (level : string) (c : Counter) : Counter :=
  <[level := S (default 0 (c !! level))]> c.

(** The body of [for attr_name in attributes] for a chosen profile [p]. *)
Definition count_attr (p : Profile) (level_chosen : gmap string Counter)
    (a : string * list string) : gmap string Counter :=
  match p !! a.1 with
  | Some level => alter (counter_incr level) a.1 level_chosen
  | None => level_chosen
  end.

(** The first loop: [level_chosen] after one record. *)
Definition count_record (attributes : Attributes) (level_chosen : gmap string Counter)
    (rec : ChoiceRecord) : gmap string Counter :=
  match chosen_profile rec with
  | None => level_chosen
  | Some p => foldl (count_attr p) level_chosen attributes
  end.

Definition level_chosen_counts (records : list ChoiceRecord) (attributes : Attributes)
  : gmap string Counter :=
  foldl (count_record attributes)
        (foldl (λ m a, <[a.1 := (∅ : Counter)]> m) ∅ attributes) records.

Definition total_choices (records : list ChoiceRecord) : nat :=
  length (filter (λ r, chosen_profile r ≠ None) records).

(** The utility of one level before centering. *)
Definition level_utility (total_choices chosen_count : nat) (expected_share : R) : R :=
  if decide (0 < total_choices ∧ 0 < chosen_count)
  then ln ((INR chosen_count / INR total_choices) / expected_share)
  else (-2)%R.

(** [attr_utils] when the loop over [levels] is done. *)
Definition raw_utils (chosen : Counter) (total_choices : nat) (levels : list string)
  : gmap string R :=
  let expected_share := (1 / INR (length levels))%R in
  foldl (λ attr_utils level,
           <[level := level_utility total_choices (default 0 (chosen !! level))
                        expected_share]> attr_utils) ∅ levels.

(** [sum(d.values())] *)
Definition Rmap_sum (d : gmap string R) : R :=
  map_fold (λ _ x acc, (acc + x)%R) 0%R d.

Definition mean_util (attr_utils : gmap string R) : R :=
  if decide (attr_utils = ∅) then 0%R
  else (Rmap_sum attr_utils / INR (size attr_utils))%R.

Definition center (attr_utils : gmap string R) : gmap string R :=
  (λ u, (u - mean_util attr_utils)%R) <$> attr_utils.

Definition _compute_utilities (records : list ChoiceRecord) (attributes : Attributes)
  : result UtilityTable :=
  let level_chosen := level_chosen_counts records attributes in
  let total := total_choices records in
  foldlM (λ utilities a,
            if decide (length a.2 = 0) then Err ZeroDivisionError
            else
              chosen ← match level_chosen !! a.1 with
                       | Some c => Ok c
                       | None => Err KeyError
                       end;
              Ok (<[a.1 := center (raw_utils chosen total a.2)]> utilities))
         ∅ attributes.

(** The spec's wording of the counts. *)
Definition chose (attr_name level : string) (r : ChoiceRecord) : Prop :=
  ∃ p, chosen_profile r = Some p ∧ p !! attr_name = Some level.

#[global] Instance chose_dec attr_name level r : Decision (chose attr_name level r).
Proof.
  unfold chose. destruct (chosen_profile r) as [p|].
  - destruct (decide (p !! attr_name = Some level)) as [H|H].
    + left. eauto.
    + right. intros (q & [= <-] & ?). contradiction.
  - right. intros (q & [=] & _).
Defined.

Definition chosen_count (records : list ChoiceRecord) (attr_name level : string) : nat :=
  length (filter (chose attr_name level) records).

(** ** Importance Calculator *)

Definition Rlist_max (x : R) (l : list R) : R := foldl Rmax x l.
Definition Rlist_min (x : R) (l : list R) : R := foldl Rmin x l.

Definition utility_range (attr_utils : gmap string R) : R :=
  match (map_to_list attr_utils).*2 with
  | [] => 0%R
  | x :: l => (Rlist_max x l - Rlist_min x l)%R
  end.

Definition _compute_importance (utilities : UtilityTable) : gmap string R :=
  let ranges := utility_range <$> utilities in
  let total_range := Rmap_sum ranges in
  (λ r, if Rlt_dec 0 total_range then (r / total_range * 100)%R else 0%R) <$> ranges.

(** ** Market Simulator *)

(** The inner loop: [total] for one profile. *)
Definition total_utility (utilities : UtilityTable) (profile : Profile) : R :=
  map_fold (λ attr_name level total,
              match utilities !! attr_name with
              | Some attr_utils =>
                  match attr_utils !! level with
                  | Some u => (total + u)%R
                  | None => total
                  end
              | None => total
              end) 0%R profile.

Definition Rsum (l : list R) : R := foldl Rplus 0%R l.

(** From [profile_utils] to the shares, in exact arithmetic: the formula
    that the program evaluates in floats ([float_shares] below).  Over [R]
    the sum of the exponentials of a non-empty list is positive, so that
    the guard [sum_exp > 0] only fails for the empty list; in floats it
    also fails when a total utility is infinite or NaN. *)
Definition shares (profile_utils : list R) : list R :=
  let max_util := match profile_utils with
                  | [] => 0%R
                  | u :: rest => Rlist_max u rest
                  end in
  let exp_utils := (λ u, exp (u - max_util)) <$> profile_utils in
  let sum_exp := Rsum exp_utils in
  (λ exp_u, if Rlt_dec 0 sum_exp then (exp_u / sum_exp)%R else 0%R) <$> exp_utils.

(** The rows printed: profile, total utility, choice share. *)
Definition market_sim (utilities : UtilityTable) (profiles : list Profile)
  : list (Profile * R * R) :=
  let profile_utils := total_utility utilities <$> profiles in
  zip (zip profiles profile_utils) (shares profile_utils).

(** ** Market Simulator on binary64 floats

    The simulator once more, on the floats of the program.  What the
    shares over [R] above leave out is what floats do beyond rounding: a
    total utility that overflows to infinity, the NaN of [inf - inf], an
    exponential that underflows to 0, a constant that absorbs the
    utilities it is added to.

    [math.exp] is the C library's and [sum] the interpreter's (summation
    from the left, with a compensation of the rounding errors since
    CPython 3.12): they are operations of a class, with the laws the
    statements use. *)

Abbreviation FloatTable := (gmap string (gmap string float)).

(** [profile.items()], in the order of the file. *)
Abbreviation ProfileItems := (list (string * string)).

Class FloatLib := {
  math_exp : float → result float;
  float_sum : list float → float;
}.

Class FloatLibLaws (L : FloatLib) : Prop := {
  math_exp_nan : math_exp nan = Ok nan;
  math_exp_zero : math_exp 0%float = Ok 1%float;
  float_sum_one : ∀ x, float_sum [x] = (0 + x)%float;
}.

Section floats.
Context {L : FloatLib}.

(** The inner loop: [total] for one profile, from [0.0]. *)
Definition float_total_utility (utilities : FloatTable) (profile : ProfileItems)
  : float :=
  foldl (λ total item,
           match utilities !! item.1 with
           | Some attr_utils =>
               match attr_utils !! item.2 with
               | Some u => (total + u)%float
               | None => total
               end
           | None => total
           end) 0%float profile.

(** [max(profile_utils) if profile_utils else 0]: [max] keeps its first
    argument unless a later one compares greater. *)
Definition float_max (profile_utils : list float) : float :=
  match profile_utils with
  | [] => 0%float
  | u :: rest => foldl (λ m x, if (m <? x)%float then x else m) u rest
  end.

(** From [profile_utils] to the shares. *)
Definition float_shares (profile_utils : list float) : result (list float) :=
  let max_util := float_max profile_utils in
  exp_utils ← mapM (λ u, math_exp (u - max_util)%float) profile_utils;
  let sum_exp := float_sum exp_utils in
  Ok ((λ exp_u, if (0 <? sum_exp)%float then (exp_u / sum_exp)%float else 0%float)
        <$> exp_utils).

(** The rows printed: profile, total utility, choice share. *)
Definition float_market_sim (utilities : FloatTable) (profiles : list ProfileItems)
  : result (list (ProfileItems * float * float)) :=
  let profile_utils := float_total_utility utilities <$> profiles in
  shares ← float_shares profile_utils;
  Ok (zip (zip profiles profile_utils) shares).
End floats.

(** A small library for running the simulator on concrete inputs: the
    exponential by its series at [x / 4096], squared twelve times, with the
    special cases of [math.exp]; the sum from the left. *)
Definition exp_series (r : float) : float :=
  foldr (λ k acc, (1 + r / k * acc)%float) 1%float
    [1; 2; 3; 4; 5; 6; 7; 8; 9; 10; 11; 12; 13; 14; 15; 16]%float.

Definition plain_exp (x : float) : result float :=
  if PrimFloat.is_nan x then Ok nan
  else if (x =? infinity)%float then Ok infinity
  else if (709.75 <? x)%float then Err OverflowError
  else if (x <? -746)%float then Ok 0%float
  else Ok (Nat.iter 12 (λ y, (y * y)%float) (exp_series (x / 4096)%float)).

#[global] Instance plain_lib : FloatLib := {|
  math_exp := plain_exp;
  float_sum := foldl PrimFloat.add 0%float;
|}.

(** Two attributes whose utilities are finite and whose sum is not. *)
#[warnings="-inexact-float"] Definition utilities_huge : FloatTable :=
  {[ "price" := {[ "low" := 1e308%float ]}; "brand" := {[ "X" := 1e308%float ]} ]}.

Definition profile_huge : ProfileItems := [("price", "low"); ("brand", "X")].

(** Utilities 0 and 1, and the same plus [1e17]. *)
Definition utilities_unit : FloatTable :=
  {[ "option" := {[ "A" := 0%float; "B" := 1%float ]} ]}.

Definition utilities_unit_shifted : FloatTable :=
  {[ "option" := {[ "A" := (0 + 1e17)%float; "B" := (1 + 1e17)%float ]} ]}.

Definition profiles_unit : list ProfileItems := [[("option", "A")]; [("option", "B")]].

(** ** Predicates of the statements *)

(** What one attribute of a profile adds to its total utility. *)
Definition contribution (utilities : UtilityTable) (attr_name level : string) : R :=
  match utilities !! attr_name with
  | Some attr_utils => default 0%R (attr_utils !! level)
  | None => 0%R
  end.

(** The spec's wording of the utility of a level before centering. *)
Definition pre_centering_utility (records : list ChoiceRecord)
    (attr_name : string) (levels : list string) (level : string) : R :=
  if decide (0 < chosen_count records attr_name level)
  then ln ((INR (chosen_count records attr_name level)
            / INR (total_choices records))
           / (1 / INR (length levels)))
  else (-2)%R.

(** The spec's wording of the range of an attribute: the largest minus the
    smallest of its level utilities, and 0 when there is none. *)
Definition is_range (values : list R) (r : R) : Prop :=
  match values with
  | [] => r = 0%R
  | _ => ∃ hi lo, hi ∈ values ∧ lo ∈ values
                  ∧ (∀ v, v ∈ values → (lo <= v <= hi)%R)
                  ∧ r = (hi - lo)%R
  end.

(** The number of profile slots of a version, over all its tasks. *)
Definition version_slots (ver : Version) : Z :=
  Z.of_nat (length (concat (choice_sets ver))).

(** The number of different profiles a version shows. *)
Definition version_distinct_profiles (ver : Version) : Z :=
  Z.of_nat (length (remove_dups (concat (choice_sets ver)))).

(** A task is well formed for a list of profiles when it is not empty, takes
    no profile more often than the list has it, and has no repetition when
    the list has none. *)
Definition well_formed_task (profiles task : list Profile) : Prop :=
  task ≠ [] ∧ task ⊆+ profiles ∧ (NoDup profiles → NoDup task).

(** The profiles all have the same keys, the attribute names. *)
Definition uniform_keys (names : list string) (profiles : list Profile) : Prop :=
  ∀ p, p ∈ profiles → ∀ k, is_Some (p !! k) ↔ k ∈ names.

(** The result is not a [SystemExit]. *)
Definition not_exit {A} (r : result A) : Prop :=
  ∀ code, r ≠ Err (SystemExit code).

Section predicates.
Context {G : RandomGen}.

(** Every result the computation can return satisfies [P]. *)
Definition post {A} (m : M A) (P : A → Prop) : Prop :=
  ∀ s a s', m s = Ok (a, s') → P a.

(** The computation returns, from every state. *)
Definition succeeds {A} (m : M A) : Prop :=
  ∀ s, ∃ a s', m s = Ok (a, s').

(** The computation never ends in a [SystemExit]. *)
Definition no_exit {A} (m : M A) : Prop := ∀ s, not_exit (m s).
End predicates.

(** ** Concrete inputs *)

Definition attrs_price_brand : Attributes :=
  [("price", ["low"; "high"]); ("brand", ["X"; "Y"])].

Definition profile_of (price brand : string) : Profile :=
  <["brand" := brand]> (<["price" := price]> ∅).

(** A perfectly uniform design: four tasks, each showing every level of
    both attributes once. *)
Definition uniform_design : list (list Profile) :=
  [[profile_of "low" "X"; profile_of "high" "Y"];
   [profile_of "low" "Y"; profile_of "high" "X"];
   [profile_of "high" "X"; profile_of "low" "Y"];
   [profile_of "high" "Y"; profile_of "low" "X"]].

(** An attribute specification that repeats levels, and its enumeration. *)
Definition attrs_repeated : Attributes :=
  [("a", ["x"; "x"; "y"; "y"]); ("b", ["u"])].

Definition profile_ab (a b : string) : Profile := <["b" := b]> (<["a" := a]> ∅).

Definition profiles_repeated : list Profile :=
  [profile_ab "x" "u"; profile_ab "x" "u"; profile_ab "y" "u"; profile_ab "y" "u"].

Definition profiles_price_brand : list Profile :=
  [profile_of "low" "X"; profile_of "low" "Y";
   profile_of "high" "X"; profile_of "high" "Y"].

Definition task_repeated : list Profile :=
  [profile_ab "x" "u"; profile_ab "y" "u"; profile_ab "y" "u"].

(** Two tasks of three profiles over the four profiles of
    [attrs_price_brand]; the other keys take their defaults. *)
Definition spec_two_tasks : DesignSpec := {|
  spec_attributes := attrs_price_brand;
  spec_tasks_per_version := Some 2%Z;
  spec_profiles_per_task := Some 3%Z;
  spec_n_versions := Some 1%Z;
  spec_min_attribute_diff := None;
  spec_seed := None;
  spec_include_none := None |}.

(** The utilities of the spec's shift example, and the same plus 1. *)
Definition utilities_abc : UtilityTable :=
  {["option" := <["A" := 1%R]> (<["B" := 1%R]> {["C" := 2%R]})]}.

Definition utilities_abc_shifted : UtilityTable :=
  {["option" := <["A" := 2%R]> (<["B" := 2%R]> {["C" := 3%R]})]}.

Definition profiles_abc : list Profile :=
  [{["option" := "A"]}; {["option" := "B"]}; {["option" := "C"]}].

(** A table that knows the attribute but not the level of the profile. *)
Definition utilities_color : UtilityTable := {["color" := {["red" := 1%R]}]}.

Definition profile_blue : Profile := {["color" := "blue"]}.

(** An attribute without levels, and one record that chose "red". *)
Definition attrs_no_levels : Attributes := [("size", []); ("color", ["red"])].

Definition records_red : list ChoiceRecord :=
  [{| task := 1; chosen_profile := Some {["color" := "red"]}; agent_traits := ∅ |}].

Definition attrs_color : Attributes := [("color", ["red"; "blue"])].

(** Two records that choose every level of [attrs_price_brand] once. *)
Definition records_balanced : list ChoiceRecord :=
  [{| task := 1; chosen_profile := Some (profile_of "low" "X"); agent_traits := ∅ |};
   {| task := 2; chosen_profile := Some (profile_of "high" "Y"); agent_traits := ∅ |}].

(** A specification outside the enumerator's contract: no level, and no
    profile asked for per task. *)
Definition spec_no_levels : DesignSpec := {|
  spec_attributes := [("size", [])];
  spec_tasks_per_version := None;
  spec_profiles_per_task := Some 0%Z;
  spec_n_versions := None;
  spec_min_attribute_diff := None;
  spec_seed := None;
  spec_include_none := None |}.

(** The spec's end-to-end example. *)
Definition spec_end_to_end : DesignSpec := {|
  spec_attributes := attrs_price_brand;
  spec_tasks_per_version := Some 2%Z;
  spec_profiles_per_task := Some 2%Z;
  spec_n_versions := Some 1%Z;
  spec_min_attribute_diff := Some 2%Z;
  spec_seed := Some 1%Z;
  spec_include_none := None |}.

(** Five profiles per task out of four. *)
Definition spec_five_per_task : DesignSpec := {|
  spec_attributes := attrs_price_brand;
  spec_tasks_per_version := None;
  spec_profiles_per_task := Some 5%Z;
  spec_n_versions := None;
  spec_min_attribute_diff := None;
  spec_seed := None;
  spec_include_none := None |}.

(** ** Further predicates *)

(** The number of attributes of [p1] that [p2] does not map to the same
    level. *)
Definition differing (p1 p2 : Profile) : nat :=
  size (filter (λ kv : string * string, p2 !! kv.1 ≠ Some kv.2) p1).

(** Every profile of the task differs from every earlier one in at least
    [min_diff] attributes. *)
Definition min_diff_respected (min_diff : Z) (task : list Profile) : Prop :=
  ∀ i j earlier later, i < j →
    task !! i = Some earlier → task !! j = Some later →
    ∃ d, _profile_diff_count later earlier = Ok d ∧ (min_diff ≤ Z.of_nat d)%Z.

(** The profile drawn first for each task, in task order. *)
Definition first_profiles (choice_sets : list (list Profile)) : list Profile :=
  omap head choice_sets.

(** The list runs through the profiles in rounds: each round is a
    permutation of all profiles, and the last round, which may be
    incomplete, takes no profile more often than it is listed. *)
Definition in_rounds (profiles firsts : list Profile) : Prop :=
  ∃ (rounds : list (list Profile)) (last : list Profile),
    firsts = concat rounds ++ last
    ∧ Forall (λ round, round ≡ₚ profiles) rounds
    ∧ last ⊆+ profiles.

(** ** Directory names

    A [str] is a [string] here: the texts whose characters are the code
    points below 256, on which [str.lower], [\s] and [str.strip] are as
    follows. *)

Definition ord (c : Ascii.ascii) : N := Ascii.N_of_ascii c.

(** [str.lower] on one character: A-Z and the capital letters of Latin-1. *)
Definition lower_char (c : Ascii.ascii) : Ascii.ascii :=
  if decide (65 ≤ ord c ≤ 90 ∨ (192 ≤ ord c ≤ 222 ∧ ord c ≠ 215))%N
  then Ascii.ascii_of_N (ord c + 32) else c.

(** [\s], which is also what [str.strip] removes. *)
Definition is_space (c : Ascii.ascii) : Prop :=
  (9 ≤ ord c ≤ 13 ∨ 28 ≤ ord c ≤ 32 ∨ ord c = 133 ∨ ord c = 160)%N.

#[global] Instance is_space_dec c : Decision (is_space c).
Proof. unfold is_space. apply _. Defined.

(** [a-z0-9-] *)
Definition is_slug_char (c : Ascii.ascii) : Prop :=
  (97 ≤ ord c ≤ 122 ∨ 48 ≤ ord c ≤ 57 ∨ ord c = 45)%N.

#[global] Instance is_slug_char_dec c : Decision (is_slug_char c).
Proof. unfold is_slug_char. apply _. Defined.

Definition hyphen : Ascii.ascii := Ascii.ascii_of_N 45.

Definition lower (text : list Ascii.ascii) : list Ascii.ascii := lower_char <$> text.

(** [re.sub(r"[^a-z0-9\s-]", "", text)] *)
Definition remove_other (text : list Ascii.ascii) : list Ascii.ascii :=
  filter (λ c, is_slug_char c ∨ is_space c) text.

Fixpoint lstrip (text : list Ascii.ascii) : list Ascii.ascii :=
  match text with
  | [] => []
  | c :: rest => if decide (is_space c) then lstrip rest else text
  end.

(** [text.strip()] *)
Definition strip (text : list Ascii.ascii) : list Ascii.ascii :=
  reverse (lstrip (reverse (lstrip text))).

(** [re.sub(r"[\s]+", "-", text)]: every maximal run of whitespace becomes
    one hyphen; [in_run] tells that the previous character was whitespace. *)
Fixpoint hyphenate (in_run : bool) (text : list Ascii.ascii) : list Ascii.ascii :=
  match text with
  | [] => []
  | c :: rest =>
      if decide (is_space c)
      then (if in_run then hyphenate true rest
            else hyphen :: hyphenate true rest)
      else c :: hyphenate false rest
  end.

(** [text[:n]], where a negative [n] counts from the end. *)
Definition slice_to (n : Z) (text : list Ascii.ascii) : list Ascii.ascii :=
  if decide (0 ≤ n)%Z then take (Z.to_nat n) text
  else take (Z.to_nat (Z.of_nat (length text) + n)) text.

(** [text.rsplit("-", 1)[0]]: the part before the last hyphen, and the
    whole text when it has none. *)
Fixpoint rsplit_head (text : list Ascii.ascii) : list Ascii.ascii :=
  match text with
  | [] => []
  | c :: rest =>
      if decide (hyphen ∈ rest) then c :: rsplit_head rest
      else if decide (c = hyphen) then [] else text
  end.

Definition slugify (text : string) (max_len : Z) : string :=
  let text := lower (String.list_ascii_of_string text) in
  let text := remove_other text in
  let text := hyphenate false (strip text) in
  String.string_of_list_ascii
    (if decide (max_len < Z.of_nat (length text))%Z
     then rsplit_head (slice_to max_len text)
     else text).

(** [slugify(args.question)]: [max_len] defaults to 50. *)
Definition default_max_len : Z := 50.

(** ** Analysis

    [analyze] from the parsed records on: the tables that go into
    [utilities.json] and [segment_analysis.json].  The CSV, the report and
    the chart script render the same tables and are not modelled. *)

Record SegmentResult := {
  seg_utilities : UtilityTable;
  seg_importance : gmap string R;
  seg_n_observations : nat;
}.

Record Analysis := {
  an_utilities : UtilityTable;
  an_importance : gmap string R;
  an_n_observations : nat;
  an_segments : gmap string (gmap string SegmentResult);
}.

(** [segment_traits.update(rec.get("agent_traits", {}).keys())] over the
    records. *)
Definition segment_traits (records : list ChoiceRecord) : gset string :=
  foldl (λ traits rec, traits ∪ dom (agent_traits rec)) ∅ records.

(** [rec.get("agent_traits", {}).get(trait, "unknown")] *)
Definition trait_value (trait : string) (rec : ChoiceRecord) : string :=
  default "unknown" (agent_traits rec !! trait).

(** [groups[val].append(rec)] over the records, on a [defaultdict(list)]. *)
Definition group_records (trait : string) (records : list ChoiceRecord)
  : gmap string (list ChoiceRecord) :=
  foldl (λ groups rec,
           <[trait_value trait rec :=
               default [] (groups !! trait_value trait rec) ++ [rec]]> groups)
        ∅ records.

(** The entry of one group; the source computes the table twice. *)
Definition segment_result (attributes : Attributes)
    (group_records : list ChoiceRecord) : result SegmentResult :=
  utilities ← _compute_utilities group_records attributes;
  utilities_again ← _compute_utilities group_records attributes;
  Ok {| seg_utilities := utilities;
        seg_importance := _compute_importance utilities_again;
        seg_n_observations := length group_records |}.

(** [for group_val, group_records in groups.items()] *)
Definition trait_results (attributes : Attributes)
    (groups : gmap string (list ChoiceRecord)) : result (gmap string SegmentResult) :=
  foldlM (λ results kv,
            r ← segment_result attributes kv.2;
            Ok (<[kv.1 := r]> results))
         ∅ (map_to_list groups).

(** [for trait in sorted(segment_traits)]; the order of the traits only
    fixes the order of the keys of the output. *)
Definition segment_analysis (records : list ChoiceRecord) (attributes : Attributes)
  : result (gmap string (gmap string SegmentResult)) :=
  foldlM (λ segment_results trait,
            r ← trait_results attributes (group_records trait records);
            Ok (<[trait := r]> segment_results))
         ∅ (elements (segment_traits records)).

Definition analyze (records : list ChoiceRecord) (attributes : Attributes)
  : result Analysis :=
  if decide (records = []) then Err (SystemExit 1)
  else
    utilities ← _compute_utilities records attributes;
    let importance := _compute_importance utilities in
    segment_results ← segment_analysis records attributes;
    Ok {| an_utilities := utilities;
          an_importance := importance;
          an_n_observations := length records;
          an_segments := segment_results |}.

(** The observations of the groups of one trait, added up. *)
Definition Nmap_sum (d : gmap string nat) : nat :=
  map_fold (λ _ n acc, acc + n) 0 d.

Definition total_observations (groups : gmap string SegmentResult) : nat :=
  Nmap_sum (seg_n_observations <$> groups).

(** Two records with agent traits, one of a "none of these" answer. *)
Definition records_segments : list ChoiceRecord :=
  [{| task := 1; chosen_profile := Some {["color" := "red"]};
      agent_traits := {["segment" := "young"]} |};
   {| task := 2; chosen_profile := None;
      agent_traits := {["segment" := "old"]} |};
   {| task := 1; chosen_profile := Some {["color" := "red"]};
      agent_traits := ∅ |}].

(** ** Results parser

    [_parse_results_csv] from the rows of [csv.DictReader] on, for a file
    whose rows all have as many fields as the header: a row is then a dict
    from column name to text.  The option labels are built before the
    file is opened, and [chr] raises [ValueError] for a label past the last
    code point. *)

Abbreviation Row := (gmap string string).

(** The keys of the design specification that the parser reads. *)
Record ResultsSpec := {
  rs_attributes : Attributes;
  rs_n_tasks : option Z;
  rs_tasks_per_version : option Z;
  rs_profiles_per_task : option Z;
  rs_include_none : option bool;
}.

Definition text_strip (s : string) : string :=
  String.string_of_list_ascii (strip (String.list_ascii_of_string s)).

Definition text_lower (s : string) : string :=
  String.string_of_list_ascii (lower (String.list_ascii_of_string s)).

(** [str(t)] of an integer. *)
Definition str_of_int (t : Z) : string :=
  DecimalString.NilZero.string_of_int (Z.to_int t).

(** [needle in text] *)
Fixpoint contains (needle text : string) : bool :=
  String.prefix needle text
  || match text with
     | EmptyString => false
     | String _ rest => contains needle rest
     end.

(** The character with code point [n], when it is one of the texts
    modelled. *)
Definition latin1 (n : nat) : option Ascii.ascii :=
  if decide (n < 256) then Some (Ascii.ascii_of_nat n) else None.

(** [chr(n)] for [0 <= n]: it raises from code point 0x110000 on. *)
Definition chr (n : nat) : result (option Ascii.ascii) :=
  if decide (Z.of_nat n < 1114112)%Z then Ok (latin1 n) else Err ValueError.

Definition text_of_char (c : Ascii.ascii) : string := String c EmptyString.

(** [option_labels]: the label [chr(ord("A") + i)] of every option, built
    before the file is opened. *)
Definition option_labels (profiles_per_task : Z)
  : result (list (option Ascii.ascii)) :=
  mapM (λ i, chr (65 + i)) (seq 0 (Z.to_nat profiles_per_task)).

(** [f"Option {label}" in answer]; a label outside the texts modelled is
    in no answer. *)
Definition option_named (answer : string) (label : option Ascii.ascii) : Prop :=
  match label with
  | Some c => contains ("Option " +:+ text_of_char c) answer = true
  | None => False
  end.

#[global] Instance option_named_dec answer label : Decision (option_named answer label).
Proof. destruct label; cbn [option_named]; apply _. Defined.

(** [chosen_idx]: the first label, in order, that the answer names. *)
Definition chosen_option (option_labels : list (option Ascii.ascii))
    (answer : string) : option nat :=
  fst <$> list_find (option_named answer) option_labels.

(** [f"scenario.task_{t}_opt_{opt_key}_{attr_name}"] *)
Definition scenario_column (t : Z) (opt_key : Ascii.ascii) (attr_name : string) : string :=
  "scenario.task_" +:+ str_of_int t +:+ "_opt_" +:+ text_of_char opt_key
  +:+ "_" +:+ attr_name.

(** [chosen_profile] after the loop over the attributes; an option key
    outside the texts modelled names no column of the row. *)
Definition chosen_levels (row : Row) (t : Z) (opt_key : option Ascii.ascii)
    (attributes : Attributes) : Profile :=
  foldl (λ chosen a,
           match opt_key with
           | Some key =>
               match row !! scenario_column t key a.1 with
               | Some level => <[a.1 := level]> chosen
               | None => chosen
               end
           | None => chosen
           end) ∅ attributes.

(** [agent_traits]: the [agent.] columns of the row, without the prefix. *)
Definition row_traits (row : Row) : gmap string string :=
  map_fold (λ key val traits,
              if String.prefix "agent." key
              then <[String.substring 6 (String.length key - 6) key := val]> traits
              else traits) ∅ row.

(** The body of [for t in range(1, n_tasks + 1)]: the record appended, if
    any. *)
Definition parse_task (design_spec : ResultsSpec)
    (option_labels : list (option Ascii.ascii)) (row : Row)
    (traits : gmap string string) (t : Z) : result (option ChoiceRecord) :=
  let answer := text_strip (default "" (row !! ("answer.choice_task_" +:+ str_of_int t))) in
  if decide (answer = "") then Ok None
  else if default false (rs_include_none design_spec)
          && String.prefix "none" (text_lower answer)
  then Ok (Some {| task := t; chosen_profile := None; agent_traits := traits |})
  else match chosen_option option_labels answer with
       | None => Ok None
       | Some chosen_idx =>
           opt_key ← chr (97 + chosen_idx);
           let chosen := chosen_levels row t opt_key (rs_attributes design_spec) in
           if decide (chosen = ∅) then Ok None
           else Ok (Some {| task := t; chosen_profile := Some chosen;
                            agent_traits := traits |})
       end.

(** The body of [for row in reader]: the records appended for the row. *)
Definition parse_row (design_spec : ResultsSpec)
    (option_labels : list (option Ascii.ascii)) (row : Row)
  : result (list ChoiceRecord) :=
  let n_tasks := default (default 8%Z (rs_tasks_per_version design_spec))
                         (rs_n_tasks design_spec) in
  appended ← mapM (parse_task design_spec option_labels row (row_traits row))
                  (seqZ 1 n_tasks);
  Ok (omap Datatypes.id appended).

Definition _parse_results_csv (rows : list Row) (design_spec : ResultsSpec)
  : result (list ChoiceRecord) :=
  option_labels ← option_labels (default 3%Z (rs_profiles_per_task design_spec));
  per_row ← mapM (parse_row design_spec option_labels) rows;
  Ok (concat per_row).

(** The largest [profiles_per_task] whose option labels all exist. *)
Definition max_profiles_per_task : Z := 1114047.



(** A specification with one attribute, two options per task and the
    "none of these" answer, and the rows of two respondents. *)
Definition spec_results : ResultsSpec := {|
  rs_attributes := attrs_color;
  rs_n_tasks := Some 2%Z;
  rs_tasks_per_version := None;
  rs_profiles_per_task := Some 2%Z;
  rs_include_none := Some true |}.

Definition rows_results : list Row :=
  [ {[ "answer.choice_task_1" := " Option B "; "answer.choice_task_2" := "None of these";
       "scenario.task_1_opt_b_color" := "red"; "agent.segment" := "young" ]};
    {[ "answer.choice_task_1" := ""; "answer.choice_task_2" := "I prefer Option A";
       "scenario.task_2_opt_a_color" := "red" ]} ].


(** More options per task than there are characters to label them. *)
Definition spec_too_many_options : ResultsSpec := {|
  rs_attributes := attrs_color;
  rs_n_tasks := Some 2%Z;
  rs_tasks_per_version := None;
  rs_profiles_per_task := Some 1114048%Z;
  rs_include_none := None |}.



(** * Properties *)

(** ** Results *)

Lemma foldlM_app {A B} (f : B → A → result B) (acc : B) (l k : list A) :
  foldlM f acc (l ++ k) = (acc' ← foldlM f acc l; foldlM f acc' k).
Proof.
  revert acc. induction l as [|x l IH]; intros acc; simpl; [done|].
  destruct (f acc x); simpl; [apply IH | done].
Qed.

(** ** Profile Enumerator *)

Lemma attr_get_elem_of (attributes : Attributes) (n : string) (levels : list string) :
  NoDup attributes.*1 → (n, levels) ∈ attributes → attr_get attributes n = Ok levels.
Proof.
  induction attributes as [|[k v] rest IH]; intros Hnd Hin.
  - by apply elem_of_nil in Hin.
  - simpl in *. apply NoDup_cons in Hnd as [Hk Hnd].
    apply elem_of_cons in Hin as [[= -> ->]|Hin].
    + by rewrite decide_True.
    + rewrite decide_False; [by apply IH|].
      intros ->. apply Hk. apply list_elem_of_fmap. by exists (n, levels).
Qed.

Lemma mapM_attr_get (attributes l : Attributes) :
  (∀ n levels, (n, levels) ∈ l → attr_get attributes n = Ok levels) →
  mapM (attr_get attributes) l.*1 = Ok l.*2.
Proof.
  induction l as [|[k v] l IH]; intros H; [done|].
  rewrite !fmap_cons. cbn [mapM fst snd]. rewrite (H k v) by left.
  cbn [mbind result_bind].
  rewrite IH; [done|]. intros n levels Hin. apply H. by right.
Qed.

Lemma product_nested (attributes : Attributes) (built : Profile) :
  (λ combo, foldl (λ d kv, <[kv.1 := kv.2]> d) built (zip attributes.*1 combo))
    <$> product attributes.*2
  = nested_iteration attributes built.
Proof.
  revert built. induction attributes as [|[n levels] rest IH]; intros built; [done|].
  rewrite !fmap_cons. cbn [product nested_iteration fst snd].
  induction levels as [|x levels IHl]; [done|].
  rewrite !bind_cons, fmap_app, IHl. f_equal.
  rewrite <- list_fmap_compose. rewrite <- IH. done.
Qed.

Lemma nested_iteration_length (attributes : Attributes) (built : Profile) :
  length (nested_iteration attributes built) = level_count_product attributes.
Proof.
  revert built. induction attributes as [|[n levels] rest IH]; intros built; [done|].
  cbn [nested_iteration level_count_product foldr snd].
  induction levels as [|x levels IHl]; [done|].
  rewrite bind_cons, length_app, IH, IHl. done.
Qed.

(** A profile of the enumeration picks one level of each attribute and
    leaves every other key as it was. *)
Lemma nested_iteration_sound (attributes : Attributes) (built p : Profile) :
  NoDup attributes.*1 →
  p ∈ nested_iteration attributes built →
  (∀ n levels, (n, levels) ∈ attributes → ∃ l, l ∈ levels ∧ p !! n = Some l)
  ∧ (∀ k, k ∉ attributes.*1 → p !! k = built !! k).
Proof.
  revert built. induction attributes as [|[n levels] rest IH]; intros built Hnd Hin.
  - apply list_elem_of_singleton in Hin as ->. split; [|done].
    intros n levels H. by apply elem_of_nil in H.
  - simpl in *. apply NoDup_cons in Hnd as [Hn Hnd].
    apply list_elem_of_bind in Hin as (l & Hin & Hl).
    destruct (IH _ Hnd Hin) as [Hrest Hother]. split.
    + intros n' levels' [[= -> ->]|H]%elem_of_cons.
      * exists l. split; [done|]. rewrite (Hother _ Hn). apply lookup_insert_eq.
      * by apply Hrest.
    + intros k Hk. apply not_elem_of_cons in Hk as [Hne Hk].
      rewrite (Hother _ Hk). by apply lookup_insert_ne.
Qed.

Lemma nested_iteration_complete (attributes : Attributes) (built p : Profile) :
  (∀ n levels, (n, levels) ∈ attributes → ∃ l, l ∈ levels ∧ p !! n = Some l) →
  (∀ k, k ∉ attributes.*1 → p !! k = built !! k) →
  p ∈ nested_iteration attributes built.
Proof.
  revert built. induction attributes as [|[n levels] rest IH]; intros built Hlev Hother.
  - simpl. apply list_elem_of_singleton. apply map_eq. intros k. apply Hother.
    apply not_elem_of_nil.
  - simpl. destruct (Hlev n levels) as (l & Hl & Hp); [left|].
    apply list_elem_of_bind. exists l. split; [|done].
    apply IH.
    + intros n' levels' H. apply Hlev. by right.
    + intros k Hk. destruct (decide (n = k)) as [<-|Hne].
      * by rewrite lookup_insert_eq.
      * rewrite lookup_insert_ne by done. apply Hother.
        simpl. by apply not_elem_of_cons.
Qed.

Lemma all_profiles_nested (attributes : Attributes) :
  NoDup attributes.*1 →
  _all_profiles attributes = Ok (nested_iteration attributes ∅).
Proof.
  intros Hnd. unfold _all_profiles.
  rewrite mapM_attr_get by (intros n levels; by apply attr_get_elem_of).
  simpl. f_equal. apply product_nested.
Qed.

Lemma all_profiles_spec (attributes : Attributes) :
  NoDup attributes.*1 →
  ∃ profiles,
    _all_profiles attributes = Ok profiles
    ∧ length profiles = level_count_product attributes
    ∧ ∀ p : Profile, p ∈ profiles ↔
        (∀ k, is_Some (p !! k) → k ∈ attributes.*1)
        ∧ (∀ n levels, (n, levels) ∈ attributes →
             ∃ l, l ∈ levels ∧ p !! n = Some l).
Proof.
  intros Hnd. exists (nested_iteration attributes ∅).
  split; [by apply all_profiles_nested|].
  split; [apply nested_iteration_length|].
  intros p. split.
  - intros Hin. destruct (nested_iteration_sound _ _ _ Hnd Hin) as [Hlev Hother].
    split; [|done]. intros k [v Hk].
    destruct (decide (k ∈ attributes.*1)) as [|Hno]; [done|].
    rewrite (Hother _ Hno), lookup_empty in Hk. done.
  - intros [Hdom Hlev]. apply nested_iteration_complete; [done|].
    intros k Hk. rewrite lookup_empty.
    destruct (p !! k) eqn:E; [|done]. destruct Hk. apply Hdom. by eexists.
Qed.

(** C4.  For an attribute specification (a dict: the names are pairwise
    distinct) the Profile Enumerator returns, without using the random
    generator, the list that nested iteration over the attributes in
    specification order and the levels in the given order produces; its
    length is the product of the per-attribute level counts; and its
    members are exactly the maps that are defined on the attribute names
    only and send each attribute to one of its levels. *)
Theorem all_profiles_cartesian_product (attributes : Attributes) :
  NoDup attributes.*1 →
  ∃ profiles,
    _all_profiles attributes = Ok profiles
    ∧ profiles = nested_iteration attributes ∅
    ∧ length profiles = level_count_product attributes
    ∧ ∀ p : Profile, p ∈ profiles ↔
        (∀ k, is_Some (p !! k) → k ∈ attributes.*1)
        ∧ (∀ n levels, (n, levels) ∈ attributes →
             ∃ l, l ∈ levels ∧ p !! n = Some l).
Proof.
  intros Hnd. destruct (all_profiles_spec attributes Hnd) as (profiles & Hp & Hlen & Hmem).
  exists profiles. split; [done|]. split; [|by split].
  rewrite all_profiles_nested in Hp by done. by injection Hp as <-.
Qed.

Lemma all_profiles_cartesian_product_witness :
  ∃ profiles,
    _all_profiles attrs_price_brand = Ok profiles
    ∧ profiles = nested_iteration attrs_price_brand ∅
    ∧ length profiles = level_count_product attrs_price_brand
    ∧ ∀ p : Profile, p ∈ profiles ↔
        (∀ k, is_Some (p !! k) → k ∈ attrs_price_brand.*1)
        ∧ (∀ n levels, (n, levels) ∈ attrs_price_brand →
             ∃ l, l ∈ levels ∧ p !! n = Some l).
Proof.
  apply (all_profiles_cartesian_product attrs_price_brand).
  apply (bool_decide_unpack _). vm_compute. exact I.
Defined.

(** ** Balance Scorer *)

Lemma foldlM_concat {A B} (f : B → A → result B) (acc : B) (ll : list (list A)) :
  foldlM (λ st l, foldlM f st l) acc ll = foldlM f acc (concat ll).
Proof.
  revert acc. induction ll as [|l ll IH]; intros acc; [done|].
  cbn [foldlM concat]. rewrite foldlM_app.
  destruct (foldlM f acc l); cbn [mbind result_bind]; [apply IH | done].
Qed.

Lemma count_slot_Some (attr_name : string) (st : gmap string nat * nat)
    (p : Profile) (level : string) :
  p !! attr_name = Some level →
  count_slot attr_name st p
  = Ok (<[level := S (default 0 (st.1 !! level))]> st.1, S st.2).
Proof. intros H. unfold count_slot. by rewrite H. Qed.

Lemma count_slots_spec (attr_name : string) (l : list Profile) (counts : gmap string nat)
    (total : nat) :
  (∀ p, p ∈ l → is_Some (p !! attr_name)) →
  ∃ counts',
    foldlM (count_slot attr_name) (counts, total) l = Ok (counts', total + length l)
    ∧ ∀ level, default 0 (counts' !! level)
        = default 0 (counts !! level)
          + length (filter (λ p : Profile, p !! attr_name = Some level) l).
Proof.
  revert counts total. induction l as [|p l IH]; intros counts total Hall.
  - exists counts. split; [cbn; f_equal; f_equal; lia|]. intros level. cbn. lia.
  - destruct (Hall p) as [lv Hlv]; [left|].
    cbn [foldlM]. rewrite (count_slot_Some _ _ _ _ Hlv). cbn [mbind result_bind fst snd].
    destruct (IH (<[lv := S (default 0 (counts !! lv))]> counts) (S total))
      as (counts' & Hrun & Hcounts).
    { intros q Hq. apply Hall. by right. }
    exists counts'. split.
    + rewrite Hrun. cbn [length]. do 2 f_equal. lia.
    + intros level. rewrite Hcounts, filter_cons.
      destruct (decide (lv = level)) as [->|Hne].
      * rewrite lookup_insert_eq, decide_True by done. cbn. lia.
      * rewrite lookup_insert_ne by done.
        rewrite decide_False by congruence. done.
Qed.

Lemma count_levels_spec (attr_name : string) (choice_sets : list (list Profile)) :
  (∀ p, p ∈ slots choice_sets → is_Some (p !! attr_name)) →
  ∃ counts,
    count_levels attr_name choice_sets = Ok (counts, length (slots choice_sets))
    ∧ ∀ level, default 0 (counts !! level) = observed choice_sets attr_name level.
Proof.
  intros Hall. unfold count_levels. rewrite foldlM_concat.
  destruct (count_slots_spec attr_name (concat choice_sets) ∅ 0 Hall)
    as (counts & Hrun & Hcounts).
  exists counts. split; [done|]. intros level.
  rewrite Hcounts, lookup_empty. done.
Qed.

Lemma deviation_nonneg (obs : nat) (e : Q) : (0 <= deviation obs e)%Q.
Proof.
  unfold deviation. destruct (Qlt_le_dec 0 e) as [He|He]; [|apply Qle_refl].
  unfold Qdiv. apply Qmult_le_0_compat.
  - apply Qpower.Qsqr_nonneg.
  - apply Qinv_le_0_compat. by apply Qlt_le_weak.
Qed.

Lemma deviation_zero (obs : nat) (e : Q) : (Qnat obs == e)%Q → (deviation obs e == 0)%Q.
Proof.
  intros H. unfold deviation. destruct (Qlt_le_dec 0 e) as [He|He]; [|reflexivity].
  rewrite H. unfold Qdiv.
  assert ((e - e) ^ 2 == 0)%Q as ->; [|ring].
  change ((e - e) ^ 2)%Q with ((e - e) * (e - e))%Q. ring.
Qed.

Lemma Qsum_cons (x : Q) (l : list Q) : Qsum (x :: l) = (x + Qsum l)%Q.
Proof. reflexivity. Qed.

Lemma Qsum_nonneg (l : list Q) : (∀ x, x ∈ l → (0 <= x)%Q) → (0 <= Qsum l)%Q.
Proof.
  induction l as [|x l IH]; intros H; [apply Qle_refl|].
  rewrite Qsum_cons.
  rewrite <- (Qplus_0_r 0). apply Qplus_le_compat; [apply H; left|].
  apply IH. intros y Hy. apply H. by right.
Qed.

Lemma Qsum_zero (l : list Q) : (∀ x, x ∈ l → (x == 0)%Q) → (Qsum l == 0)%Q.
Proof.
  induction l as [|x l IH]; intros H; [reflexivity|].
  rewrite Qsum_cons.
  rewrite (H x) by left. rewrite IH; [ring|]. intros y Hy. apply H. by right.
Qed.

Lemma foldl_Qplus (g : string → Q) (acc : Q) (levels : list string) :
  (foldl (λ score level, score + g level) acc levels == acc + Qsum (g <$> levels))%Q.
Proof.
  revert acc. induction levels as [|l levels IH]; intros acc.
  - cbn. ring.
  - cbn [foldl]. rewrite IH, fmap_cons, Qsum_cons. ring.
Qed.

(** The contribution of one attribute, as the code accumulates it. *)
Lemma attribute_score (choice_sets : list (list Profile)) (a : string * list string)
    (acc : Q) (counts : gmap string nat) :
  (∀ level, default 0 (counts !! level) = observed choice_sets a.1 level) →
  (foldl (λ score level,
            score + deviation (default 0%nat (counts !! level))
                      (expected_count (length (slots choice_sets)) a.2))
         acc a.2
   == acc + Qsum ((λ level, deviation (observed choice_sets a.1 level)
                              (expected choice_sets a.2)) <$> a.2))%Q.
Proof.
  intros Hcounts.
  rewrite (foldl_Qplus (λ level, deviation (default 0%nat (counts !! level))
                                   (expected_count (length (slots choice_sets)) a.2))).
  apply Qplus_comp; [reflexivity|].
  assert (∀ levels, a.2 ≠ [] →
    Qsum ((λ level, deviation (default 0%nat (counts !! level))
                 (expected_count (length (slots choice_sets)) a.2)) <$> levels)
    = Qsum ((λ level, deviation (observed choice_sets a.1 level)
                 (expected choice_sets a.2)) <$> levels)) as Heq.
  { intros levels Hne. f_equal. apply list_fmap_ext. intros _ level _.
    rewrite Hcounts. f_equal. unfold expected_count, expected.
    destruct a.2; [done|reflexivity]. }
  destruct (decide (a.2 = [])) as [Hnil|Hne].
  - rewrite Hnil. reflexivity.
  - rewrite Heq by done. reflexivity.
Qed.

Lemma balance_formula_unfold (choice_sets : list (list Profile)) (attributes : Attributes) :
  balance_formula choice_sets attributes
  = Qsum ((λ a, Qsum ((λ level, deviation (observed choice_sets a.1 level)
                          (expected choice_sets a.2)) <$> a.2)) <$> attributes).
Proof. reflexivity. Qed.

Lemma level_balance_score_acc (choice_sets : list (list Profile))
    (attributes : Attributes) (acc : Q) :
  (∀ p a, p ∈ slots choice_sets → a ∈ attributes → is_Some (p !! a.1)) →
  ∃ score,
    foldlM (λ score a,
      '(counts, total) ← count_levels a.1 choice_sets;
      let expected := expected_count total a.2 in
      Ok (foldl (λ score level,
                   (score + deviation (default 0%nat (counts !! level)) expected)%Q)
                score a.2)) acc attributes = Ok score
    ∧ (score == acc + balance_formula choice_sets attributes)%Q.
Proof.
  revert acc. induction attributes as [|a attributes IH]; intros acc Hall.
  - exists acc. split; [done|]. rewrite balance_formula_unfold. cbn. ring.
  - cbn [foldlM].
    destruct (count_levels_spec a.1 choice_sets) as (counts & -> & Hcounts).
    { intros p Hp. apply Hall; [done|left]. }
    cbn [mbind result_bind].
    edestruct IH as (score & Hrun & Hscore).
    { intros p a' Hp Ha'. apply Hall; [done|by right]. }
    exists score. split; [exact Hrun|].
    rewrite Hscore, (attribute_score _ _ _ _ Hcounts), !balance_formula_unfold, fmap_cons, Qsum_cons.
    ring.
Qed.

Lemma level_balance_score_ok (choice_sets : list (list Profile))
    (attributes : Attributes) :
  (∀ p a, p ∈ slots choice_sets → a ∈ attributes → is_Some (p !! a.1)) →
  ∃ score,
    _level_balance_score choice_sets attributes = Ok score
    ∧ (score == balance_formula choice_sets attributes)%Q.
Proof.
  intros Hall.
  destruct (level_balance_score_acc choice_sets attributes 0 Hall)
    as (score & Hrun & Hscore).
  exists score. split; [exact Hrun|]. rewrite Hscore. ring.
Qed.

(** C3.  On choice sets whose profiles give a level to every attribute,
    the Balance Scorer returns the sum over attributes and levels of
    (observed - expected)^2 / expected, a level whose expected count is
    not positive adding nothing; the score is never negative, and it is 0
    when every level is observed its expected number of times. *)
Theorem level_balance_score_formula (choice_sets : list (list Profile))
    (attributes : Attributes) :
  (∀ p a, p ∈ slots choice_sets → a ∈ attributes → is_Some (p !! a.1)) →
  ∃ score,
    _level_balance_score choice_sets attributes = Ok score
    ∧ (score == balance_formula choice_sets attributes)%Q
    ∧ (0 <= score)%Q
    ∧ ((∀ a level, a ∈ attributes → level ∈ a.2 →
          (Qnat (observed choice_sets a.1 level) == expected choice_sets a.2)%Q) →
       (score == 0)%Q).
Proof.
  intros Hall.
  destruct (level_balance_score_ok choice_sets attributes Hall)
    as (score & Hrun & Heq).
  exists score. split; [exact Hrun|].
  split; [exact Heq|]. rewrite Heq, balance_formula_unfold. split.
  - apply Qsum_nonneg. intros x (a & -> & _)%list_elem_of_fmap.
    apply Qsum_nonneg. intros y (level & -> & _)%list_elem_of_fmap.
    apply deviation_nonneg.
  - intros Hexp. apply Qsum_zero. intros x (a & -> & Ha)%list_elem_of_fmap.
    apply Qsum_zero. intros y (level & -> & Hl)%list_elem_of_fmap.
    apply deviation_zero. by apply Hexp.
Qed.

Lemma profiles_total_Forall (choice_sets : list (list Profile)) (attributes : Attributes) :
  Forall (λ p : Profile, Forall (λ a, is_Some (p !! a.1)) attributes) (slots choice_sets) →
  ∀ p a, p ∈ slots choice_sets → a ∈ attributes → is_Some (p !! a.1).
Proof.
  intros H p a Hp Ha. rewrite Forall_forall in H.
  specialize (H p Hp). rewrite Forall_forall in H. by apply H.
Qed.

Lemma level_balance_score_formula_witness :
  ∃ score,
    _level_balance_score uniform_design attrs_price_brand = Ok score
    ∧ (score == balance_formula uniform_design attrs_price_brand)%Q
    ∧ (0 <= score)%Q
    ∧ ((∀ a level, a ∈ attrs_price_brand → level ∈ a.2 →
          (Qnat (observed uniform_design a.1 level)
           == expected uniform_design a.2)%Q) →
       (score == 0)%Q).
Proof.
  apply (level_balance_score_formula uniform_design attrs_price_brand).
  apply profiles_total_Forall. apply (bool_decide_unpack _). vm_compute. exact I.
Defined.

(** The uniform design scores 0. *)
Example uniform_design_score :
  ∃ score, _level_balance_score uniform_design attrs_price_brand = Ok score
           ∧ (score == 0)%Q.
Proof. eexists. split; [vm_compute; reflexivity | reflexivity]. Qed.

(** ** The concrete generator *)

Lemma rotate_Permutation {A} (n : nat) (l : list A) : rotate n l ≡ₚ l.
Proof.
  unfold rotate. rewrite Permutation_app_comm. by rewrite take_drop.
Qed.

#[global] Instance lcg_laws : RandomGenLaws lcg.
Proof.
  split.
  - intros A l s. apply rotate_Permutation.
  - intros a b s Hab. cbn.
    pose proof (Z.mod_pos_bound s (b - a + 1)) as H. lia.
Qed.

(** ** Reasoning about computations that use the generator *)

Section hoare.
Context {G : RandomGen}.

Lemma post_ret {A} (a : A) (P : A → Prop) : P a → post (mret a) P.
Proof. intros H s a' s' [= <- <-]. done. Qed.

Lemma post_bind {A B} (m : M A) (f : A → M B) (P : A → Prop) (Q : B → Prop) :
  post m P → (∀ a, P a → post (f a) Q) → post (m ≫= f) Q.
Proof.
  intros Hm Hf s b s' Hrun. unfold mbind, M_bind in Hrun.
  destruct (m s) as [[a s1]|] eqn:E; [|done].
  eapply Hf; [|exact Hrun]. eapply Hm. exact E.
Qed.

Lemma post_weaken {A} (m : M A) (P Q : A → Prop) :
  post m P → (∀ a, P a → Q a) → post m Q.
Proof. intros Hm HPQ s a s' Hrun. apply HPQ. eapply Hm. exact Hrun. Qed.

Lemma post_lift {A} (r : result A) (P : A → Prop) :
  (∀ a, r = Ok a → P a) → post (lift r) P.
Proof. intros H s a s' Hrun. unfold lift in Hrun. destruct r; [|done].
  injection Hrun as <- <-. by apply H. Qed.

Lemma succeeds_ret {A} (a : A) : succeeds (mret a).
Proof. intros s. by exists a, s. Qed.

Lemma succeeds_bind {A B} (m : M A) (f : A → M B) (P : A → Prop) :
  succeeds m → post m P → (∀ a, P a → succeeds (f a)) → succeeds (m ≫= f).
Proof.
  intros Hm HP Hf s. destruct (Hm s) as (a & s1 & E).
  unfold mbind, M_bind. rewrite E. apply Hf. eapply HP. exact E.
Qed.

Lemma succeeds_lift {A} (r : result A) (a : A) : r = Ok a → succeeds (lift r).
Proof. intros -> s. by exists a, s. Qed.

Lemma succeeds_seed (n : Z) : succeeds (seed n).
Proof. intros s. by eexists _, _. Qed.

Lemma succeeds_shuffle {A} (l : list A) : succeeds (shuffle l).
Proof. intros s. unfold shuffle. destruct (rng_shuffle l s) as [l' s']. by exists l', s'. Qed.

Lemma succeeds_randint (a b : Z) : (a ≤ b)%Z → succeeds (randint a b).
Proof.
  intros H s. unfold randint. rewrite decide_True by done.
  destruct (rng_randint a b s) as [r s']. by exists r, s'.
Qed.

Context {HG : RandomGenLaws G}.

Lemma post_shuffle {A} (l : list A) : post (shuffle l) (λ l', l' ≡ₚ l).
Proof.
  intros s l' s' Hrun. unfold shuffle in Hrun. injection Hrun as Hrun.
  pose proof (rng_shuffle_perm A l s) as Hp. rewrite Hrun in Hp. exact Hp.
Qed.

Lemma post_randint (a b : Z) : post (randint a b) (λ r, (a ≤ r ≤ b)%Z).
Proof.
  intros s r s' Hrun. unfold randint in Hrun.
  destruct (decide (a ≤ b)%Z) as [Hab|]; [|done]. injection Hrun as Hrun.
  pose proof (rng_randint_range a b s Hab) as Hr. rewrite Hrun in Hr. exact Hr.
Qed.
End hoare.

(** ** Design Search Engine *)

Lemma submseteq_filter {A} (P : A → Prop) `{∀ x, Decision (P x)} (l k : list A) :
  l ⊆+ k → filter P l ⊆+ filter P k.
Proof.
  induction 1 as [|x l k _ IH|x y l|x l k _ IH|l k m _ IH1 _ IH2].
  - done.
  - rewrite !filter_cons. destruct (decide (P x)); [by constructor | done].
  - rewrite !filter_cons. destruct (decide (P x)), (decide (P y)); try done.
    apply submseteq_swap.
  - rewrite filter_cons. destruct (decide (P x)); [by constructor | done].
  - by etrans.
Qed.

Lemma elem_of_concat {A} (x : A) (ll : list (list A)) :
  x ∈ concat ll ↔ ∃ l, x ∈ l ∧ l ∈ ll.
Proof.
  induction ll as [|l ll IH]; cbn [concat].
  - split; [by intros ?%elem_of_nil | by intros (l & _ & ?%elem_of_nil)].
  - rewrite elem_of_app, IH. split.
    + intros [H|(l' & H1 & H2)]; [exists l; split; [done|left] |].
      exists l'. split; [done|by right].
    + intros (l' & H1 & [->|H2]%elem_of_cons); [by left|].
      right. by exists l'.
Qed.

Lemma filter_all {A} (P : A → Prop) `{∀ x, Decision (P x)} (l : list A) :
  (∀ x, x ∈ l → P x) → filter P l = l.
Proof.
  induction l as [|x l IH]; intros Hall; [done|].
  rewrite filter_cons, decide_True by (apply Hall; left).
  f_equal. apply IH. intros y Hy. apply Hall. by right.
Qed.

Lemma fill_min_diff_added `{G : RandomGen} (profiles_per_task min_diff : Z)
    (candidates task task' : list Profile) :
  fill_min_diff profiles_per_task min_diff candidates task = Ok task' →
  ∃ added : list Profile, task' = task ++ added ∧ added `sublist_of` candidates.
Proof.
  revert task. induction candidates as [|cand rest IH]; intros task Hrun.
  - injection Hrun as <-. exists []. by rewrite app_nil_r.
  - cbn [fill_min_diff] in Hrun.
    destruct (decide (profiles_per_task ≤ Z.of_nat (length task))%Z).
    { injection Hrun as <-. exists []. rewrite app_nil_r. split; [done|].
      apply sublist_nil_l. }
    destruct (all_min_diff min_diff cand task) as [[]|]; [| |done];
      cbn [mbind result_bind] in Hrun;
      destruct (IH _ Hrun) as (added & -> & Hsub).
    + exists (cand :: added). rewrite <- app_assoc. split; [done|].
      by apply sublist_skip.
    + exists added. split; [done|]. by apply sublist_cons.
Qed.

Lemma fill_relaxed_added `{G : RandomGen} (profiles_per_task : Z)
    (remaining task : list Profile) :
  ∃ added : list Profile,
    fill_relaxed profiles_per_task remaining task = task ++ added
    ∧ added `sublist_of` remaining.
Proof.
  revert task. induction remaining as [|cand rest IH]; intros task.
  - exists []. by rewrite app_nil_r.
  - cbn [fill_relaxed].
    destruct (decide (profiles_per_task ≤ Z.of_nat (length task))%Z).
    { exists []. rewrite app_nil_r. split; [done|]. apply sublist_nil_l. }
    destruct (IH (task ++ [cand])) as (added & -> & Hsub).
    exists (cand :: added). rewrite <- app_assoc. split; [done|].
    by apply sublist_skip.
Qed.

Lemma pop_spec `{G : RandomGen} {A} (l l' : list A) (i : Z) (x : A) :
  pop l i = Ok (x, l') → x ∈ l ∧ l' `sublist_of` l.
Proof.
  unfold pop. destruct (l !! Z.to_nat i) as [y|] eqn:E; [|done].
  intros [= <- <-]. split; [by eapply list_elem_of_lookup_2 | apply sublist_delete].
Qed.

(** The shape of a task: a first profile, then profiles picked among the
    others, then profiles picked among those not yet in the task. *)
Lemma task_shape_well_formed (profiles c1 added1 added2 : list Profile)
    (first : Profile) :
  first ∈ profiles →
  added1 `sublist_of` c1 → c1 ≡ₚ filter (λ p, p ≠ first) profiles →
  added2 ⊆+ filter (λ p, p ∉ first :: added1) profiles →
  well_formed_task profiles ((first :: added1) ++ added2).
Proof.
  intros Hfirst Hs1 Hp1 (c2 & Hs2 & Hp2)%submseteq_sublist_l.
  assert (first :: added1 ⊆+ profiles) as Hsub1.
  { rewrite <- (filter_app_complement (λ p, p = first) profiles).
    change (first :: added1) with ([first] ++ added1). apply submseteq_app.
    - apply singleton_submseteq_l, list_elem_of_filter. done.
    - rewrite <- Hp1. by apply sublist_submseteq. }
  assert (∀ x, x ∈ added1 → x ≠ first) as Hne1.
  { intros x Hx. eapply elem_of_sublist in Hx; [|exact Hs1].
    rewrite Hp1 in Hx. by apply list_elem_of_filter in Hx as [? _]. }
  assert (∀ x, x ∈ added2 → x ∉ first :: added1) as Hne2.
  { intros x Hx. eapply elem_of_sublist in Hx; [|exact Hs2].
    rewrite Hp2 in Hx. by apply list_elem_of_filter in Hx as [? _]. }
  split; [done|]. split.
  - rewrite <- (filter_app_complement (λ p, p ∈ first :: added1) profiles).
    apply submseteq_app.
    + rewrite <- (submseteq_filter (λ p, p ∈ first :: added1) _ _ Hsub1).
      by rewrite filter_all.
    + rewrite <- Hp2. by apply sublist_submseteq.
  - intros Hnd. apply NoDup_app. split; [|split].
    + apply NoDup_cons. split.
      * intros Hin. by apply (Hne1 first).
      * eapply sublist_NoDup; [|exact Hs1]. rewrite Hp1. by apply NoDup_filter.
    + intros x Hx Hx2. by apply (Hne2 x).
    + eapply sublist_NoDup; [|exact Hs2]. rewrite Hp2. by apply NoDup_filter.
Qed.

Section search_invariants.
Context {G : RandomGen} {HG : RandomGenLaws G}.

Lemma one_task_post (profiles available : list Profile)
    (profiles_per_task min_diff : Z) :
  available ⊆ profiles →
  post (one_task profiles profiles_per_task min_diff available)
    (λ r, well_formed_task profiles r.1 ∧ r.2 ⊆ profiles).
Proof.
  intros Hav. unfold one_task.
  eapply (post_bind _ _ (λ av, av ⊆ profiles)).
  { destruct (decide (available = [])).
    - eapply post_weaken; [apply post_shuffle|].
      intros av Hp x Hx. by rewrite Hp in Hx.
    - by apply post_ret. }
  intros av Hav'. eapply post_bind; [apply post_randint|]. intros i _.
  eapply (post_bind _ _ (λ r, r.1 ∈ profiles ∧ r.2 ⊆ profiles)).
  { apply post_lift. intros [x l'] Hpop. apply pop_spec in Hpop as [Hx Hsub].
    split; [by apply Hav'|]. intros y Hy. apply Hav'.
    by eapply elem_of_sublist. }
  intros [first av2] [Hfirst Hav2]. cbn [fst snd] in *.
  eapply post_bind; [apply post_shuffle|]. intros c1 Hc1.
  eapply (post_bind _ _ (λ task, ∃ added1 : list Profile,
             task = first :: added1 ∧ added1 `sublist_of` c1)).
  { apply post_lift. intros task Hfill.
    apply fill_min_diff_added in Hfill as (added & -> & Hsub). by exists added. }
  intros task (added1 & -> & Hs1).
  eapply (post_bind _ _ (well_formed_task profiles)).
  { destruct (decide (Z.of_nat (length (first :: added1)) < profiles_per_task)%Z).
    - eapply post_bind; [apply post_shuffle|]. intros c2 Hc2. apply post_ret.
      destruct (fill_relaxed_added profiles_per_task c2 (first :: added1))
        as (added2 & -> & Hs2).
      eapply task_shape_well_formed; [done..|].
      apply submseteq_sublist_l. by exists c2.
    - apply post_ret. rewrite <- (app_nil_r (first :: added1)).
      eapply task_shape_well_formed; [done..|]. apply submseteq_nil_l. }
  intros task Hwf. by apply post_ret.
Qed.

Lemma tasks_loop_post (n : nat) (profiles available : list Profile)
    (profiles_per_task min_diff : Z) (choice_sets : list (list Profile)) :
  available ⊆ profiles →
  Forall (well_formed_task profiles) choice_sets →
  post (tasks_loop n profiles profiles_per_task min_diff available choice_sets)
    (λ sets, Forall (well_formed_task profiles) sets
             ∧ length sets = length choice_sets + n).
Proof.
  revert available choice_sets.
  induction n as [|n IH]; intros available choice_sets Hav Hwf.
  - apply post_ret. split; [done|lia].
  - cbn [tasks_loop]. eapply post_bind; [by apply one_task_post|].
    intros [task av] [Htask Hav']. cbn [fst snd] in *.
    eapply post_weaken.
    + apply IH; [done|]. apply Forall_app. split; [done|]. by apply Forall_singleton.
    + intros sets [H1 H2]. split; [done|]. rewrite H2, length_app. cbn. lia.
Qed.

Lemma attempt_post (profiles : list Profile) (attributes : Attributes)
    (n_tasks profiles_per_task min_diff : Z) :
  post (attempt profiles attributes n_tasks profiles_per_task min_diff)
    (λ r, Forall (well_formed_task profiles) r.1
          ∧ length r.1 = Z.to_nat n_tasks).
Proof.
  unfold attempt. eapply post_bind; [apply post_shuffle|]. intros av Hav.
  eapply post_bind.
  { apply tasks_loop_post; [|apply Forall_nil_2].
    intros x Hx. by rewrite Hav in Hx. }
  intros sets [H1 H2]. eapply (post_bind _ _ (λ _, True)).
  { by apply post_lift. }
  intros score _. by apply post_ret.
Qed.

Lemma iterations_loop_post (n : nat) (profiles : list Profile)
    (attributes : Attributes) (n_tasks profiles_per_task min_diff : Z)
    (best_sets : option (list (list Profile))) (best_score : option Q)
    (P : list (list Profile) → Prop) :
  post (attempt profiles attributes n_tasks profiles_per_task min_diff)
    (λ r, P r.1) →
  (∀ sets, best_sets = Some sets → P sets) →
  post (iterations_loop n profiles attributes n_tasks profiles_per_task
          min_diff best_sets best_score)
    (λ r, ∀ sets, r.1 = Some sets → P sets).
Proof.
  intros Hattempt. revert best_sets best_score.
  induction n as [|n IH]; intros best_sets best_score Hbest.
  - by apply post_ret.
  - cbn [iterations_loop]. eapply post_bind; [exact Hattempt|].
    intros [sets score] Hsets. cbn [fst] in Hsets.
    destruct (score_lt score best_score).
    + apply IH. by intros ? [= <-].
    + by apply IH.
Qed.

(** After at least one iteration there is a best attempt. *)
Lemma iterations_loop_some (n : nat) (profiles : list Profile)
    (attributes : Attributes) (n_tasks profiles_per_task min_diff : Z)
    (best_sets : option (list (list Profile))) (best_score : option Q) :
  (best_score = None ∧ n ≠ 0) ∨ (is_Some best_sets ∧ is_Some best_score) →
  post (iterations_loop n profiles attributes n_tasks profiles_per_task
          min_diff best_sets best_score)
    (λ r, is_Some r.1 ∧ is_Some r.2).
Proof.
  revert best_sets best_score.
  induction n as [|n IH]; intros best_sets best_score Hpre.
  - apply post_ret. destruct Hpre as [[_ ?]|?]; done.
  - cbn [iterations_loop]. eapply (post_bind _ _ (λ _, True)); [done|].
    intros [sets score] _.
    destruct (score_lt score best_score) eqn:Hlt.
    + apply IH. right. split; by eexists.
    + apply IH. right. destruct Hpre as [[-> _]|?]; [done|done].
Qed.

Lemma generate_one_version_post (profiles : list Profile) (attributes : Attributes)
    (n_tasks profiles_per_task min_diff iterations : Z) :
  post (_generate_one_version profiles attributes n_tasks profiles_per_task
          min_diff iterations)
    (λ r, ∀ sets, r.1 = Some sets →
          Forall (well_formed_task profiles) sets
          ∧ length sets = Z.to_nat n_tasks).
Proof.
  unfold _generate_one_version.
  apply (iterations_loop_post _ _ _ _ _ _ _ _
           (λ sets, Forall (well_formed_task profiles) sets
                    ∧ length sets = Z.to_nat n_tasks)).
  - apply attempt_post.
  - done.
Qed.
End search_invariants.

Section choice_tasks.
Context {G : RandomGen} {HG : RandomGenLaws G}.

(** C6, amended.  When the profiles handed to the Design Search Engine
    are pairwise distinct, the profiles within every Choice Task it
    produces are pairwise distinct (for every attribute specification,
    task count, profiles-per-task, min_diff and iteration count). *)
Theorem choice_task_distinct (profiles : list Profile) (attributes : Attributes)
    (n_tasks profiles_per_task min_diff iterations : Z) :
  NoDup profiles →
  post (_generate_one_version profiles attributes n_tasks profiles_per_task
          min_diff iterations)
    (λ r, ∀ sets task, r.1 = Some sets → task ∈ sets → NoDup task).
Proof.
  intros Hnd. eapply post_weaken; [apply generate_one_version_post|].
  intros r Hr sets task Hsets Htask. destruct (Hr sets Hsets) as [Hwf _].
  rewrite Forall_forall in Hwf. destruct (Hwf task Htask) as (_ & _ & H).
  by apply H.
Qed.
End choice_tasks.

Lemma choice_task_distinct_witness :
  post (_generate_one_version (G := lcg) profiles_price_brand attrs_price_brand
          2 2 2 3)
    (λ r, ∀ sets task, r.1 = Some sets → task ∈ sets → NoDup task).
Proof.
  apply (choice_task_distinct (G := lcg) profiles_price_brand attrs_price_brand
           2 2 2 3).
  apply (bool_decide_unpack _). vm_compute. exact I.
Defined.

(** C6 as stated fails: with profiles that repeat (the enumeration of an
    attribute specification with repeated levels), the relaxation step
    fills a task with two equal profiles.  The run below uses the concrete
    generator; [repeated_profiles_any_generator] shows that the outcome
    repeats a profile whatever is drawn. *)
Lemma choice_task_distinct_counterexample :
  (∃ score s',
     _generate_one_version (G := lcg) profiles_repeated attrs_repeated
       1 3 2 1 (rng_seed 0) = Ok ((Some [task_repeated], score), s'))
  ∧ ¬ NoDup task_repeated.
Proof.
  split.
  - eexists _, _. vm_compute. reflexivity.
  - intros H. apply NoDup_cons in H as [_ H]. apply NoDup_cons in H as [H _].
    apply H. left.
Qed.

Section repeated_profiles.
Context {G : RandomGen} {HG : RandomGenLaws G}.

Lemma Permutation_pair_same {A} (x : A) (l : list A) : l ≡ₚ [x; x] → l = [x; x].
Proof.
  intros Hp. pose proof (Permutation_length Hp) as Hlen.
  destruct l as [|a [|b [|c l]]]; try done.
  assert (a ∈ [x; x]) as Ha by (rewrite <- Hp; left).
  assert (b ∈ [x; x]) as Hb by (rewrite <- Hp; right; left).
  apply elem_of_cons in Ha as [->|Ha%list_elem_of_singleton];
    apply elem_of_cons in Hb as [->|Hb%list_elem_of_singleton]; by subst.
Qed.

(** Whatever the generator draws, a task of three profiles over
    [profiles_repeated] with min_diff 2 repeats a profile: the two copies
    of the profile that was not drawn first are refused by min_diff and
    then both taken by the relaxation. *)
Lemma one_task_repeated (available : list Profile) :
  available ⊆ profiles_repeated →
  post (one_task profiles_repeated 3 2 available)
    (λ r, ¬ NoDup r.1 ∧ r.2 ⊆ profiles_repeated).
Proof.
  intros Hav. unfold one_task.
  eapply (post_bind _ _ (λ av, av ⊆ profiles_repeated)).
  { destruct (decide (available = [])).
    - eapply post_weaken; [apply post_shuffle|].
      intros av Hp x Hx. by rewrite Hp in Hx.
    - by apply post_ret. }
  intros av Hav'. eapply post_bind; [apply post_randint|]. intros i _.
  eapply (post_bind _ _ (λ r, r.1 ∈ profiles_repeated ∧ r.2 ⊆ profiles_repeated)).
  { apply post_lift. intros [x l'] Hpop. apply pop_spec in Hpop as [Hx Hsub].
    split; [by apply Hav'|]. intros y Hy. apply Hav'. by eapply elem_of_sublist. }
  intros [first av2] [Hfirst Hav2]. cbn [fst snd] in *.
  assert (∃ other, (first = profile_ab "x" "u" ∧ other = profile_ab "y" "u")
                   ∨ (first = profile_ab "y" "u" ∧ other = profile_ab "x" "u"))
    as [other Hcases].
  { unfold profiles_repeated in Hfirst.
    repeat (apply elem_of_cons in Hfirst as [->|Hfirst]);
      [by eexists; left | by eexists; left | by eexists; right
      | by eexists; right | by apply elem_of_nil in Hfirst]. }
  eapply post_bind; [apply post_shuffle|]. intros candidates Hc. cbn beta in Hc.
  assert (candidates = [other; other]) as ->.
  { apply Permutation_pair_same. rewrite Hc.
    by destruct Hcases as [[-> ->]|[-> ->]]. }
  eapply (post_bind _ _ (λ task, task = [first])).
  { apply post_lift. intros task Hfill.
    destruct Hcases as [[-> ->]|[-> ->]]; vm_compute in Hfill;
      by injection Hfill as <-. }
  intros task ->. rewrite decide_True by (cbn; lia).
  eapply (post_bind _ _ (λ task, task = [first; other; other])).
  { eapply post_bind; [apply post_shuffle|]. intros remaining Hr. apply post_ret.
    assert (remaining = [other; other]) as ->; [|done].
    apply Permutation_pair_same. rewrite Hr.
    by destruct Hcases as [[-> ->]|[-> ->]]. }
  intros task ->. apply post_ret. split; [|done]. cbn [fst].
  intros H. apply NoDup_cons in H as [_ H]. apply NoDup_cons in H as [H _].
  apply H. left.
Qed.

Lemma tasks_loop_repeated (n : nat) (available : list Profile)
    (choice_sets : list (list Profile)) :
  available ⊆ profiles_repeated →
  Forall (λ task, ¬ NoDup task) choice_sets →
  post (tasks_loop n profiles_repeated 3 2 available choice_sets)
    (Forall (λ task, ¬ NoDup task)).
Proof.
  revert available choice_sets.
  induction n as [|n IH]; intros available choice_sets Hav Hrep.
  - by apply post_ret.
  - cbn [tasks_loop]. eapply post_bind; [by apply one_task_repeated|].
    intros [task av] [Htask Hav']. cbn [fst snd] in *.
    apply IH; [done|]. apply Forall_app. split; [done|]. by apply Forall_singleton.
Qed.

(** With the repeated profiles every task of every attempt repeats a
    profile, for every generator whose shuffle permutes, every number of
    tasks and every number of iterations. *)
Lemma repeated_profiles_any_generator (n_tasks iterations : Z) :
  post (_generate_one_version profiles_repeated attrs_repeated n_tasks 3 2
          iterations)
    (λ r, ∀ sets task, r.1 = Some sets → task ∈ sets → ¬ NoDup task).
Proof.
  eapply post_weaken.
  - apply (iterations_loop_post _ _ _ _ _ _ _ _ (Forall (λ task, ¬ NoDup task))).
    + unfold attempt. eapply post_bind; [apply post_shuffle|]. intros av Hav.
      eapply post_bind.
      { apply tasks_loop_repeated; [|constructor].
        intros x Hx. by rewrite Hav in Hx. }
      intros sets Hsets. eapply (post_bind _ _ (λ _, True)); [by apply post_lift|].
      intros score _. by apply post_ret.
    + done.
  - intros r Hr sets task Hsets Htask. specialize (Hr sets Hsets).
    rewrite Forall_forall in Hr. by apply Hr.
Qed.
End repeated_profiles.

(** The repeated profiles are what the enumerator returns for
    [attrs_repeated]. *)
Example all_profiles_repeated : _all_profiles attrs_repeated = Ok profiles_repeated.
Proof. vm_compute. reflexivity. Qed.

(** ** Design generation *)

Section versions.
Context {G : RandomGen}.

Lemma versions_loop_post (Pv : Z → Version → Prop) (profiles : list Profile)
    (attributes : Attributes) (n_tasks profiles_per_task min_diff base_seed : Z)
    (n : nat) (v : Z) (all_versions : list Version) :
  (∀ v, post (one_version profiles attributes n_tasks profiles_per_task
                min_diff base_seed v) (Pv v)) →
  post (versions_loop n v profiles attributes n_tasks profiles_per_task
          min_diff base_seed all_versions)
    (λ vs, ∃ new : list Version,
             vs = all_versions ++ new ∧ length new = n
             ∧ ∀ i ver, new !! i = Some ver → Pv (v + Z.of_nat i)%Z ver).
Proof.
  intros Hone. revert v all_versions.
  induction n as [|n IH]; intros v all_versions.
  - apply post_ret. exists []. rewrite app_nil_r. split; [done|]. split; [done|].
    intros i ver Hi. by rewrite lookup_nil in Hi.
  - cbn [versions_loop]. eapply post_bind; [apply Hone|]. intros ver Hver.
    eapply post_weaken; [apply IH|].
    intros vs (new & -> & Hlen & Hnew). exists (ver :: new).
    rewrite <- app_assoc. split; [done|]. split; [cbn; lia|].
    intros [|i] ver' Hi.
    + injection Hi as <-. by rewrite Z.add_0_r.
    + cbn in Hi. apply Hnew in Hi.
      by replace (v + Z.of_nat (S i))%Z with (v + 1 + Z.of_nat i)%Z by lia.
Qed.

Lemma generate_design_post (Pv : list Profile → Z → Z → Version → Prop)
    (spec : DesignSpec) :
  (∀ profiles v,
     _all_profiles (spec_attributes spec) = Ok profiles →
     post (one_version profiles (spec_attributes spec)
             (default 8%Z (spec_tasks_per_version spec))
             (default 3%Z (spec_profiles_per_task spec))
             (clamp_min_diff (default 2%Z (spec_min_attribute_diff spec))
                (Z.of_nat (length (spec_attributes spec))))
             (default 42%Z (spec_seed spec)) v)
       (Pv profiles
           (clamp_min_diff (default 2%Z (spec_min_attribute_diff spec))
              (Z.of_nat (length (spec_attributes spec)))) v)) →
  post (generate_design spec)
    (λ d, ∃ profiles,
            _all_profiles (spec_attributes spec) = Ok profiles
            ∧ out_total_profiles d = Z.of_nat (length profiles)
            ∧ length (out_versions d)
              = Z.to_nat (default 4%Z (spec_n_versions spec))
            ∧ ∀ i ver, out_versions d !! i = Some ver →
                Pv profiles
                  (clamp_min_diff (default 2%Z (spec_min_attribute_diff spec))
                     (Z.of_nat (length (spec_attributes spec))))
                  (Z.of_nat i) ver).
Proof.
  intros Hone. unfold generate_design.
  eapply (post_bind _ _ (λ _, True)); [done|]. intros _ _.
  eapply (post_bind _ _ (λ profiles, _all_profiles (spec_attributes spec) = Ok profiles)).
  { by apply post_lift. }
  intros profiles Hprofiles.
  destruct (decide (Z.of_nat (length profiles)
                    < default 3 (spec_profiles_per_task spec))%Z).
  { by apply post_lift. }
  eapply post_bind.
  { apply (versions_loop_post
             (Pv profiles
                (clamp_min_diff (default 2%Z (spec_min_attribute_diff spec))
                   (Z.of_nat (length (spec_attributes spec)))))).
    intros v. by apply Hone. }
  intros vs (new & -> & Hlen & Hnew). apply post_ret.
  exists profiles. cbn. split; [done|]. split; [done|]. split; [done|].
  intros i ver Hi. by apply Hnew in Hi.
Qed.

Lemma one_version_from_seed (profiles : list Profile) (attributes : Attributes)
    (n_tasks profiles_per_task min_diff base_seed v : Z) :
  post (one_version profiles attributes n_tasks profiles_per_task min_diff
          base_seed v)
    (λ ver, version_from_seed profiles attributes n_tasks profiles_per_task
              min_diff base_seed v = Ok ver).
Proof.
  intros s ver s' Hrun. unfold version_from_seed.
  unfold one_version, mbind, M_bind, seed in Hrun.
  destruct (_generate_one_version _ _ _ _ _ _ _) as [[[[sets|] [score|]] s1]|];
    try done.
  destruct (shuffle_each sets s1) as [[sets' s2]|]; [|done].
  by injection Hrun as <- <-.
Qed.

(** C7.  The design written by generate-design does not depend on the
    state the generator is in when the command starts, so two runs with
    the same design specification write the same design (or fail the
    same way); and version number [v] of the output is what the search
    and the final shuffles compute from the state seeded with
    [base_seed + v]. *)
Theorem generate_design_deterministic (spec : DesignSpec) (s0 s0' : rng_state) :
  run_generate_design spec s0 = run_generate_design spec s0'
  ∧ ∀ d, run_generate_design spec s0 = Ok d →
      ∃ profiles,
        _all_profiles (spec_attributes spec) = Ok profiles
        ∧ ∀ v ver, out_versions d !! v = Some ver →
            version_from_seed profiles (spec_attributes spec)
              (default 8%Z (spec_tasks_per_version spec))
              (default 3%Z (spec_profiles_per_task spec))
              (clamp_min_diff (default 2%Z (spec_min_attribute_diff spec))
                 (Z.of_nat (length (spec_attributes spec))))
              (default 42%Z (spec_seed spec)) (Z.of_nat v) = Ok ver.
Proof.
  split; [reflexivity|].
  intros d Hrun. unfold run_generate_design in Hrun.
  destruct (generate_design spec s0) as [[d' s1]|] eqn:E; [|done].
  injection Hrun as ->.
  destruct (generate_design_post
              (λ profiles min_diff v ver,
                 version_from_seed profiles (spec_attributes spec)
                   (default 8%Z (spec_tasks_per_version spec))
                   (default 3%Z (spec_profiles_per_task spec))
                   min_diff (default 42%Z (spec_seed spec)) v = Ok ver)
              spec) with (s := s0) (a := d) (s' := s1)
    as (profiles & Hp & _ & _ & Hvers); [|done|].
  { intros profiles v _. apply one_version_from_seed. }
  exists profiles. split; [done|]. exact Hvers.
Qed.
End versions.

Section version_invariants.
Context {G : RandomGen} {HG : RandomGenLaws G}.

Lemma well_formed_task_perm (profiles task task' : list Profile) :
  task' ≡ₚ task → well_formed_task profiles task → well_formed_task profiles task'.
Proof.
  intros Hp (Hne & Hsub & Hnd). split; [|split].
  - intros ->. by apply Permutation_nil_l in Hp.
  - by rewrite Hp.
  - intros H. rewrite Hp. by apply Hnd.
Qed.

Lemma Forall2_Forall_wf (profiles : list Profile) (sets' sets : list (list Profile)) :
  Forall2 (λ t' t, t' ≡ₚ t) sets' sets →
  Forall (well_formed_task profiles) sets →
  Forall (well_formed_task profiles) sets'.
Proof.
  induction 1 as [|t' t sets' sets Ht _ IH]; intros Hwf; [done|].
  apply Forall_cons in Hwf as [Hwt Hwf]. constructor; [|by apply IH].
  by eapply well_formed_task_perm.
Qed.

Lemma shuffle_each_post (sets : list (list Profile)) :
  post (shuffle_each sets) (λ sets', Forall2 (λ t' t, t' ≡ₚ t) sets' sets).
Proof.
  induction sets as [|cs rest IH].
  - apply post_ret. constructor.
  - cbn [shuffle_each]. eapply post_bind; [apply post_shuffle|]. intros cs' Hcs.
    eapply post_bind; [apply IH|]. intros rest' Hrest.
    apply post_ret. by constructor.
Qed.

Lemma one_version_well_formed (profiles : list Profile) (attributes : Attributes)
    (n_tasks profiles_per_task min_diff base_seed v : Z) :
  post (one_version profiles attributes n_tasks profiles_per_task min_diff
          base_seed v)
    (λ ver, Forall (well_formed_task profiles) (choice_sets ver)
            ∧ length (choice_sets ver) = Z.to_nat n_tasks).
Proof.
  unfold one_version. eapply (post_bind _ _ (λ _, True)); [done|]. intros _ _.
  eapply post_bind; [apply generate_one_version_post|].
  intros [[sets|] [score|]] Hsets; try (by apply post_lift).
  destruct (Hsets sets eq_refl) as [Hwf Hlen].
  eapply post_bind; [apply shuffle_each_post|]. intros sets' Hperm.
  apply post_ret. cbn [choice_sets]. split.
  - eapply Forall2_Forall_wf; [exact Hperm | exact Hwf].
  - rewrite <- Hlen. exact (Forall2_length _ _ _ Hperm).
Qed.

(** C8, amended.  In a generated design, no choice task holds more
    profiles than were enumerated, and no version shows more distinct
    profiles than were enumerated.  (The number of profile slots of a
    version, tasks times profiles per task, is not bounded by the
    enumeration: profiles are reused across tasks.) *)
Theorem version_profiles_bounded (spec : DesignSpec) :
  post (generate_design spec)
    (λ d, ∀ ver, ver ∈ out_versions d →
       (∀ task, task ∈ choice_sets ver →
          (Z.of_nat (length task) ≤ out_total_profiles d)%Z)
       ∧ (version_distinct_profiles ver ≤ out_total_profiles d)%Z).
Proof.
  eapply post_weaken.
  { apply (generate_design_post
             (λ profiles _ _ ver,
                Forall (well_formed_task profiles) (choice_sets ver))).
    intros profiles v _. eapply post_weaken; [apply one_version_well_formed|].
    by intros ? [? _]. }
  intros d (profiles & Hp & Htotal & _ & Hvers) ver Hver.
  apply list_elem_of_lookup in Hver as [i Hi]. apply Hvers in Hi.
  rewrite Forall_forall in Hi. rewrite Htotal. split.
  - intros task Htask. destruct (Hi task Htask) as (_ & Hsub & _).
    apply submseteq_length in Hsub. lia.
  - unfold version_distinct_profiles.
    assert (remove_dups (concat (choice_sets ver)) ⊆+ profiles) as Hsub.
    { apply NoDup_submseteq; [apply NoDup_remove_dups|].
      intros p Hp'. apply elem_of_remove_dups, elem_of_concat in Hp'
        as (task & Hpt & Htask).
      destruct (Hi task Htask) as (_ & Hsub & _).
      by eapply elem_of_submseteq. }
    apply submseteq_length in Hsub. lia.
Qed.
End version_invariants.

Lemma version_profiles_bounded_witness :
  post (generate_design (G := lcg) spec_two_tasks)
    (λ d, ∀ ver, ver ∈ out_versions d →
       (∀ task, task ∈ choice_sets ver →
          (Z.of_nat (length task) ≤ out_total_profiles d)%Z)
       ∧ (version_distinct_profiles ver ≤ out_total_profiles d)%Z).
Proof. exact (version_profiles_bounded (G := lcg) (HG := lcg_laws) spec_two_tasks). Defined.

(** C8 as stated fails: a version of two tasks of three profiles has six
    profile slots, more than the four profiles enumerated. *)
Lemma version_profiles_bounded_counterexample :
  ∃ d, run_generate_design (G := lcg) spec_two_tasks (rng_seed 0) = Ok d
       ∧ out_total_profiles d = 4%Z
       ∧ version_slots <$> out_versions d = [6%Z].
Proof.
  eexists. split; [vm_compute; reflexivity|].
  split; vm_compute; reflexivity.
Qed.

(** ** The fatal error of design generation *)

Lemma foldlM_ok {A B} (f : B → A → result B) (acc : B) (l : list A) :
  (∀ acc x, x ∈ l → ∃ acc', f acc x = Ok acc') → ∃ r, foldlM f acc l = Ok r.
Proof.
  revert acc. induction l as [|x l IH]; intros acc Hok; [by exists acc|].
  cbn [foldlM]. destruct (Hok acc x) as [acc' ->]; [left|].
  cbn [mbind result_bind]. apply IH. intros acc'' y Hy. apply Hok. by right.
Qed.

Lemma profile_diff_count_ok (p1 p2 : Profile) :
  (∀ k, is_Some (p1 !! k) → is_Some (p2 !! k)) →
  ∃ n, _profile_diff_count p1 p2 = Ok n.
Proof.
  intros Hkeys. apply foldlM_ok. intros n [k v] Hkv%elem_of_map_to_list.
  cbn [fst snd]. destruct (Hkeys k) as [v2 ->]; [by eexists|]. by eexists.
Qed.

Section totality.
Context {G : RandomGen} {HG : RandomGenLaws G}.
Context (names : list string) (profiles : list Profile).
Context (Hkeys : uniform_keys names profiles).

Lemma all_min_diff_ok (min_diff : Z) (cand : Profile) (task : list Profile) :
  cand ∈ profiles → task ⊆ profiles →
  ∃ b, all_min_diff min_diff cand task = Ok b.
Proof.
  intros Hcand. induction task as [|t task IH]; intros Htask; [by eexists|].
  cbn [all_min_diff].
  destruct (profile_diff_count_ok cand t) as [d ->].
  { intros k Hk. apply (Hkeys t); [apply Htask; left|]. by apply (Hkeys cand). }
  cbn [mbind result_bind]. destruct (decide _); [|by eexists].
  apply IH. intros x Hx. apply Htask. by right.
Qed.

Lemma fill_min_diff_ok (profiles_per_task min_diff : Z)
    (candidates task : list Profile) :
  candidates ⊆ profiles → task ⊆ profiles →
  ∃ task', fill_min_diff profiles_per_task min_diff candidates task = Ok task'.
Proof.
  revert task. induction candidates as [|cand rest IH]; intros task Hc Ht;
    [by eexists|].
  cbn [fill_min_diff]. destruct (decide _); [by eexists|].
  destruct (all_min_diff_ok min_diff cand task) as [b ->];
    [apply Hc; left | done |].
  cbn [mbind result_bind]. apply IH.
  - intros x Hx. apply Hc. by right.
  - destruct b; [|done]. intros x [Hx|Hx%list_elem_of_singleton]%elem_of_app.
    + by apply Ht.
    + subst. apply Hc. left.
Qed.

Context (Hne : profiles ≠ []).

Lemma one_task_succeeds (profiles_per_task min_diff : Z) (available : list Profile) :
  available ⊆ profiles →
  succeeds (one_task profiles profiles_per_task min_diff available).
Proof.
  intros Hav. unfold one_task.
  eapply (succeeds_bind _ _ (λ av, av ≠ [] ∧ av ⊆ profiles)).
  { destruct (decide _); [apply succeeds_shuffle | apply succeeds_ret]. }
  { destruct (decide (available = [])).
    - eapply post_weaken; [apply post_shuffle|]. intros av Hp. split.
      + intros ->. by apply Permutation_nil_l in Hp.
      + intros x Hx. by rewrite Hp in Hx.
    - by apply post_ret. }
  intros av [Hav1 Hav2].
  assert (0 < length av) as Hlen by (destruct av; [done | cbn; lia]).
  eapply succeeds_bind; [apply succeeds_randint; lia | apply post_randint |].
  intros i Hi. cbn beta in Hi.
  destruct (lookup_lt_is_Some_2 av (Z.to_nat i)) as [first Hfirst]; [lia|].
  eapply (succeeds_bind _ _ (λ r, r.1 ∈ profiles)).
  { eapply succeeds_lift. unfold pop. by rewrite Hfirst. }
  { apply post_lift. intros [x l'] [Hx _]%pop_spec. by apply Hav2. }
  intros [first' av'] Hfirst'. cbn [fst] in Hfirst'.
  eapply succeeds_bind; [apply succeeds_shuffle | apply post_shuffle |].
  intros c1 Hc1. cbn beta in Hc1.
  destruct (fill_min_diff_ok profiles_per_task min_diff c1 [first'])
    as [task Htask].
  { intros x Hx. rewrite Hc1 in Hx. by apply list_elem_of_filter in Hx as [_ ?]. }
  { by intros x ->%list_elem_of_singleton. }
  eapply (succeeds_bind _ _ (λ _, True)); [by eapply succeeds_lift | done |].
  intros task' _.
  eapply (succeeds_bind _ _ (λ _, True)); [| done |].
  - destruct (decide _); [|apply succeeds_ret].
    eapply (succeeds_bind _ _ (λ _, True)); [apply succeeds_shuffle | done |].
    intros ? _. apply succeeds_ret.
  - intros ? _. apply succeeds_ret.
Qed.

Lemma tasks_loop_succeeds (n : nat) (profiles_per_task min_diff : Z)
    (available : list Profile) (choice_sets : list (list Profile)) :
  available ⊆ profiles →
  succeeds (tasks_loop n profiles profiles_per_task min_diff available choice_sets).
Proof.
  revert available choice_sets. induction n as [|n IH];
    intros available choice_sets Hav; [apply succeeds_ret|].
  cbn [tasks_loop].
  eapply succeeds_bind; [by apply one_task_succeeds | by apply one_task_post |].
  intros [task av] [_ Hav']. by apply IH.
Qed.

Context (attributes : Attributes) (Hnames : names = attributes.*1).

Lemma attempt_succeeds (n_tasks profiles_per_task min_diff : Z) :
  succeeds (attempt profiles attributes n_tasks profiles_per_task min_diff).
Proof.
  unfold attempt.
  eapply succeeds_bind; [apply succeeds_shuffle | apply post_shuffle |].
  intros av Hav. cbn beta in Hav.
  assert (av ⊆ profiles) as Hsub by (intros x Hx; by rewrite Hav in Hx).
  eapply succeeds_bind;
    [by apply tasks_loop_succeeds | apply tasks_loop_post; [done|constructor] |].
  intros sets [Hwf _].
  destruct (level_balance_score_ok sets attributes) as (score & Hscore & _).
  { intros p a (task & Hp & Htask)%elem_of_concat Ha.
    rewrite Forall_forall in Hwf. destruct (Hwf task Htask) as (_ & Hsubm & _).
    apply (Hkeys p); [by eapply elem_of_submseteq|].
    rewrite Hnames. apply list_elem_of_fmap. by exists a. }
  eapply (succeeds_bind _ _ (λ _, True)); [by eapply succeeds_lift | done |].
  intros ? _. apply succeeds_ret.
Qed.

Lemma iterations_loop_succeeds (n : nat) (n_tasks profiles_per_task min_diff : Z)
    (best_sets : option (list (list Profile))) (best_score : option Q) :
  succeeds (iterations_loop n profiles attributes n_tasks profiles_per_task
              min_diff best_sets best_score).
Proof.
  revert best_sets best_score. induction n as [|n IH];
    intros best_sets best_score; [apply succeeds_ret|].
  cbn [iterations_loop].
  eapply (succeeds_bind _ _ (λ _, True)); [apply attempt_succeeds | done |].
  intros [sets score] _. destruct (score_lt score best_score); apply IH.
Qed.

Lemma shuffle_each_succeeds (sets : list (list Profile)) :
  succeeds (shuffle_each sets).
Proof.
  induction sets as [|cs rest IH]; [apply succeeds_ret|].
  cbn [shuffle_each].
  eapply (succeeds_bind _ _ (λ _, True)); [apply succeeds_shuffle | done |].
  intros ? _. eapply (succeeds_bind _ _ (λ _, True)); [apply IH | done |].
  intros ? _. apply succeeds_ret.
Qed.

Lemma one_version_succeeds (n_tasks profiles_per_task min_diff base_seed v : Z) :
  succeeds (one_version profiles attributes n_tasks profiles_per_task min_diff
              base_seed v).
Proof.
  unfold one_version.
  eapply (succeeds_bind _ _ (λ _, True)); [apply succeeds_seed | done |].
  intros _ _.
  eapply succeeds_bind.
  - apply iterations_loop_succeeds.
  - apply iterations_loop_some. left. split; [done|]. by vm_compute.
  - intros [[sets|] [score|]] [[? ?] [? ?]]; try done.
    eapply (succeeds_bind _ _ (λ _, True)); [apply shuffle_each_succeeds | done |].
    intros ? _. apply succeeds_ret.
Qed.

Lemma versions_loop_succeeds (n : nat) (v n_tasks profiles_per_task min_diff
    base_seed : Z) (all_versions : list Version) :
  succeeds (versions_loop n v profiles attributes n_tasks profiles_per_task
              min_diff base_seed all_versions).
Proof.
  revert v all_versions. induction n as [|n IH]; intros v all_versions;
    [apply succeeds_ret|].
  cbn [versions_loop].
  eapply (succeeds_bind _ _ (λ _, True)); [apply one_version_succeeds | done |].
  intros ? _. apply IH.
Qed.
End totality.

Lemma level_count_product_pos (attributes : Attributes) :
  (∀ a, a ∈ attributes → a.2 ≠ []) → 0 < level_count_product attributes.
Proof.
  induction attributes as [|a attributes IH]; intros Hne; [cbn; lia|].
  cbn [level_count_product foldr]. apply Nat.mul_pos_pos.
  - specialize (Hne a (list_elem_of_here _ _)). destruct a.2; [done | cbn; lia].
  - apply IH. intros b Hb. apply Hne. by right.
Qed.

Lemma all_profiles_uniform_keys (attributes : Attributes) (profiles : list Profile) :
  NoDup attributes.*1 → _all_profiles attributes = Ok profiles →
  uniform_keys attributes.*1 profiles.
Proof.
  intros Hnd Hp.
  destruct (all_profiles_spec attributes Hnd) as (profiles' & Hp' & _ & Hmem).
  rewrite Hp in Hp'. injection Hp' as <-.
  intros p [Hdom Hlev]%Hmem k. split; [apply Hdom|].
  intros ([n levels] & -> & Ha)%list_elem_of_fmap.
  destruct (Hlev n levels Ha) as (l & _ & Hl). by eexists.
Qed.

Lemma not_exit_bind {A B} (r : result A) (f : A → result B) :
  not_exit r → (∀ a, not_exit (f a)) → not_exit (r ≫= f).
Proof.
  intros Hr Hf. destruct r as [a|e]; [apply Hf|].
  intros code [= ->]. by apply (Hr code).
Qed.

Lemma foldlM_not_exit {A B} (f : B → A → result B) (acc : B) (l : list A) :
  (∀ acc x, not_exit (f acc x)) → not_exit (foldlM f acc l).
Proof.
  intros Hf. revert acc. induction l as [|x l IH]; intros acc; [done|].
  cbn [foldlM]. by apply not_exit_bind.
Qed.

Lemma profile_diff_count_not_exit (p1 p2 : Profile) :
  not_exit (_profile_diff_count p1 p2).
Proof.
  apply foldlM_not_exit. intros n kv. by destruct (p2 !! kv.1).
Qed.

Lemma level_balance_score_not_exit (choice_sets : list (list Profile))
    (attributes : Attributes) :
  not_exit (_level_balance_score choice_sets attributes).
Proof.
  apply foldlM_not_exit. intros score a. apply not_exit_bind.
  - apply foldlM_not_exit. intros st cs. apply foldlM_not_exit.
    intros st' p. unfold count_slot. by destruct (p !! a.1).
  - by intros [counts total].
Qed.

Section no_exit.
Context {G : RandomGen}.

Lemma no_exit_ret {A} (a : A) : no_exit (mret a).
Proof. done. Qed.

Lemma no_exit_bind {A B} (m : M A) (f : A → M B) :
  no_exit m → (∀ a, no_exit (f a)) → no_exit (m ≫= f).
Proof.
  intros Hm Hf s code. unfold mbind, M_bind.
  destruct (m s) as [[a s1]|e] eqn:E; [apply Hf|].
  intros [= ->]. by apply (Hm s code).
Qed.

Lemma no_exit_lift {A} (r : result A) : not_exit r → no_exit (lift r).
Proof. intros Hr s code. unfold lift. destruct r; [done|]. intros [= ->]. by eapply Hr. Qed.

Lemma no_exit_shuffle {A} (l : list A) : no_exit (shuffle l).
Proof. done. Qed.

Lemma no_exit_randint (a b : Z) : no_exit (randint a b).
Proof. intros s code. unfold randint. by destruct (decide _). Qed.

Lemma all_min_diff_not_exit (min_diff : Z) (cand : Profile) (task : list Profile) :
  not_exit (all_min_diff min_diff cand task).
Proof.
  induction task as [|t task IH]; [done|]. cbn [all_min_diff].
  apply not_exit_bind; [apply profile_diff_count_not_exit|].
  intros d. by destruct (decide _).
Qed.

Lemma fill_min_diff_not_exit (profiles_per_task min_diff : Z)
    (candidates task : list Profile) :
  not_exit (fill_min_diff profiles_per_task min_diff candidates task).
Proof.
  revert task. induction candidates as [|cand rest IH]; intros task; [done|].
  cbn [fill_min_diff]. destruct (decide _); [done|].
  apply not_exit_bind; [apply all_min_diff_not_exit|]. intros b. apply IH.
Qed.

Lemma one_task_no_exit (profiles : list Profile) (profiles_per_task min_diff : Z)
    (available : list Profile) :
  no_exit (one_task profiles profiles_per_task min_diff available).
Proof.
  unfold one_task. apply no_exit_bind.
  { destruct (decide _); [apply no_exit_shuffle | apply no_exit_ret]. }
  intros av. apply no_exit_bind; [apply no_exit_randint|]. intros i.
  apply no_exit_bind.
  { apply no_exit_lift. unfold pop. by destruct (av !! Z.to_nat i). }
  intros [first av']. apply no_exit_bind; [apply no_exit_shuffle|]. intros c1.
  apply no_exit_bind; [apply no_exit_lift, fill_min_diff_not_exit|]. intros task.
  apply no_exit_bind; [|intros; apply no_exit_ret].
  destruct (decide _); [|apply no_exit_ret].
  apply no_exit_bind; [apply no_exit_shuffle|]. intros; apply no_exit_ret.
Qed.

Lemma tasks_loop_no_exit (n : nat) (profiles : list Profile)
    (profiles_per_task min_diff : Z) (available : list Profile)
    (choice_sets : list (list Profile)) :
  no_exit (tasks_loop n profiles profiles_per_task min_diff available choice_sets).
Proof.
  revert available choice_sets. induction n as [|n IH];
    intros available choice_sets; [apply no_exit_ret|].
  cbn [tasks_loop]. apply no_exit_bind; [apply one_task_no_exit|].
  intros [task av]. apply IH.
Qed.

Lemma iterations_loop_no_exit (n : nat) (profiles : list Profile)
    (attributes : Attributes) (n_tasks profiles_per_task min_diff : Z)
    (best_sets : option (list (list Profile))) (best_score : option Q) :
  no_exit (iterations_loop n profiles attributes n_tasks profiles_per_task
             min_diff best_sets best_score).
Proof.
  revert best_sets best_score. induction n as [|n IH];
    intros best_sets best_score; [apply no_exit_ret|].
  cbn [iterations_loop]. apply no_exit_bind.
  - unfold attempt. apply no_exit_bind; [apply no_exit_shuffle|]. intros av.
    apply no_exit_bind; [apply tasks_loop_no_exit|]. intros sets.
    apply no_exit_bind; [apply no_exit_lift, level_balance_score_not_exit|].
    intros; apply no_exit_ret.
  - intros [sets score]. destruct (score_lt score best_score); apply IH.
Qed.

Lemma shuffle_each_no_exit (sets : list (list Profile)) : no_exit (shuffle_each sets).
Proof.
  induction sets as [|cs rest IH]; [apply no_exit_ret|]. cbn [shuffle_each].
  apply no_exit_bind; [apply no_exit_shuffle|]. intros cs'.
  apply no_exit_bind; [apply IH|]. intros; apply no_exit_ret.
Qed.

Lemma versions_loop_no_exit (n : nat) (v : Z) (profiles : list Profile)
    (attributes : Attributes) (n_tasks profiles_per_task min_diff base_seed : Z)
    (all_versions : list Version) :
  no_exit (versions_loop n v profiles attributes n_tasks profiles_per_task
             min_diff base_seed all_versions).
Proof.
  revert v all_versions. induction n as [|n IH]; intros v all_versions;
    [apply no_exit_ret|].
  cbn [versions_loop]. apply no_exit_bind; [|intros; apply IH].
  unfold one_version. apply no_exit_bind; [done|]. intros _.
  apply no_exit_bind; [apply iterations_loop_no_exit|].
  intros [[sets|] [score|]]; try (by apply no_exit_lift).
  apply no_exit_bind; [apply shuffle_each_no_exit|]. intros; apply no_exit_ret.
Qed.
End no_exit.

Section fatal_error.
Context {G : RandomGen} {HG : RandomGenLaws G}.

(** C9, amended.  When every attribute has at least one level (the
    Profile Enumerator's input contract), design generation fails, before
    any design output, if and only if profiles_per_task exceeds the number
    of enumerated profiles, and otherwise it produces the design.  The
    failure is [sys.exit(1)], before any version is generated; with or
    without the contract the run ends in [sys.exit(1)] exactly when
    profiles_per_task exceeds the number of enumerated profiles. *)
Theorem generate_design_fatal_iff (spec : DesignSpec) (s0 : rng_state) :
  NoDup (spec_attributes spec).*1 →
  ∃ profiles,
    _all_profiles (spec_attributes spec) = Ok profiles
    ∧ (∀ code, run_generate_design spec s0 = Err (SystemExit code)
               ↔ code = 1%Z
                 ∧ (Z.of_nat (length profiles)
                    < default 3 (spec_profiles_per_task spec))%Z)
    ∧ ((∀ a, a ∈ spec_attributes spec → a.2 ≠ []) →
       (is_error (run_generate_design spec s0)
        ↔ (Z.of_nat (length profiles)
           < default 3 (spec_profiles_per_task spec))%Z)
       ∧ (¬ (Z.of_nat (length profiles)
             < default 3 (spec_profiles_per_task spec))%Z →
          ∃ d, run_generate_design spec s0 = Ok d)).
Proof.
  intros Hnd.
  destruct (all_profiles_spec _ Hnd) as (profiles & Hp & Hlen & _).
  exists profiles. split; [done|].
  assert ((Z.of_nat (length profiles)
           < default 3 (spec_profiles_per_task spec))%Z →
          run_generate_design spec s0 = Err (SystemExit 1)) as Hexit.
  { intros Hlt. unfold run_generate_design, generate_design, mbind, M_bind, seed, lift.
    rewrite Hp. by rewrite decide_True. }
  split.
  - intros code. split; [|by intros [-> ?%Hexit]].
    destruct (decide (Z.of_nat (length profiles)
                      < default 3 (spec_profiles_per_task spec))%Z) as [Hlt|Hge].
    { rewrite (Hexit Hlt). by intros [= <-]. }
    intros Hrun. exfalso.
    unfold run_generate_design, generate_design, mbind, M_bind, seed, lift in Hrun.
    rewrite Hp in Hrun. rewrite decide_False in Hrun by done.
    destruct (versions_loop _ _ _ _ _ _ _ _ _ _) as [[vs s1]|e] eqn:E; [done|].
    injection Hrun as ->. by eapply versions_loop_no_exit.
  - intros Hlevels.
    assert (profiles ≠ []) as Hne.
    { intros ->. pose proof (level_count_product_pos _ Hlevels). cbn in Hlen. lia. }
    pose proof (all_profiles_uniform_keys _ _ Hnd Hp) as Hkeys.
    assert (¬ (Z.of_nat (length profiles)
               < default 3 (spec_profiles_per_task spec))%Z →
            ∃ d, run_generate_design spec s0 = Ok d) as Hok.
    { intros Hge.
      destruct (versions_loop_succeeds (spec_attributes spec).*1 profiles Hkeys Hne
                  (spec_attributes spec) eq_refl
                  (Z.to_nat (default 4%Z (spec_n_versions spec))) 0
                  (default 8%Z (spec_tasks_per_version spec))
                  (default 3%Z (spec_profiles_per_task spec))
                  (clamp_min_diff (default 2%Z (spec_min_attribute_diff spec))
                     (Z.of_nat (length (spec_attributes spec))))
                  (default 42%Z (spec_seed spec)) []
                  (rng_seed (default 42%Z (spec_seed spec))))
        as (vs & s1 & Hvs).
      unfold run_generate_design, generate_design, mbind, M_bind, seed, lift.
      rewrite Hp. rewrite decide_False by done. rewrite Hvs. by eexists. }
    split; [|done]. split.
    + intros Herr. destruct (decide (Z.of_nat (length profiles)
                                    < default 3 (spec_profiles_per_task spec))%Z)
        as [|Hge]; [done|].
      destruct (Hok Hge) as [d Hd]. by rewrite Hd in Herr.
    + intros Hlt. by rewrite (Hexit Hlt).
Qed.
End fatal_error.

Lemma generate_design_fatal_iff_witness :
  ∃ profiles,
    _all_profiles (spec_attributes spec_two_tasks) = Ok profiles
    ∧ (∀ code, run_generate_design (G := lcg) spec_two_tasks (rng_seed 0)
               = Err (SystemExit code)
               ↔ code = 1%Z
                 ∧ (Z.of_nat (length profiles)
                    < default 3 (spec_profiles_per_task spec_two_tasks))%Z)
    ∧ ((∀ a, a ∈ spec_attributes spec_two_tasks → a.2 ≠ []) →
       (is_error (run_generate_design (G := lcg) spec_two_tasks (rng_seed 0))
        ↔ (Z.of_nat (length profiles)
           < default 3 (spec_profiles_per_task spec_two_tasks))%Z)
       ∧ (¬ (Z.of_nat (length profiles)
             < default 3 (spec_profiles_per_task spec_two_tasks))%Z →
          ∃ d, run_generate_design (G := lcg) spec_two_tasks (rng_seed 0) = Ok d)).
Proof.
  apply (generate_design_fatal_iff (G := lcg) (HG := lcg_laws) spec_two_tasks
           (rng_seed 0)).
  apply (bool_decide_unpack _). vm_compute. exact I.
Defined.

(** C9 as stated fails outside the contract: with an attribute without
    levels nothing is enumerated, and when profiles_per_task is 0 it does
    not exceed the number of profiles, the run gets past the check and
    ends, before any design output, with the uncaught [ValueError] of
    [random.randint(0, -1)]. *)
Lemma generate_design_fatal_iff_counterexample :
  _all_profiles (spec_attributes spec_no_levels) = Ok []
  ∧ ¬ (Z.of_nat (length ([] : list Profile))
       < default 3 (spec_profiles_per_task spec_no_levels))%Z
  ∧ run_generate_design (G := lcg) spec_no_levels (rng_seed 0) = Err ValueError
  ∧ is_error (run_generate_design (G := lcg) spec_no_levels (rng_seed 0)).
Proof.
  split; [vm_compute; reflexivity|]. split; [vm_compute; by intros [=]|].
  split; [vm_compute; reflexivity | vm_compute; exact I].
Qed.

(** The spec's end-to-end example yields one version of two tasks, and the
    two profiles of each task differ in both attributes. *)
Example generate_design_end_to_end :
  ∃ d, run_generate_design (G := lcg) spec_end_to_end (rng_seed 0) = Ok d
       ∧ (λ ver, (λ task, match task with
                          | [p; q] => _profile_diff_count p q
                          | _ => Err ValueError
                          end) <$> choice_sets ver) <$> out_versions d
         = [[Ok 2; Ok 2]].
Proof. eexists. split; vm_compute; reflexivity. Qed.

(** When four profiles are enumerated and five are asked for per task, the
    run exits with status 1. *)
Example generate_design_too_few :
  run_generate_design (G := lcg) spec_five_per_task (rng_seed 0)
  = Err (SystemExit 1).
Proof. vm_compute. reflexivity. Qed.

(** ** Sums over dictionaries of reals *)

Lemma Rmap_sum_empty : Rmap_sum ∅ = 0%R.
Proof. apply map_fold_empty. Qed.

Lemma Rmap_sum_insert (d : gmap string R) (k : string) (x : R) :
  d !! k = None → Rmap_sum (<[k := x]> d) = (Rmap_sum d + x)%R.
Proof.
  intros Hk. unfold Rmap_sum. rewrite map_fold_insert_L; [done| |done].
  intros. lra.
Qed.

Lemma Rmap_sum_fmap_scale (d : gmap string R) (c : R) :
  Rmap_sum ((λ r, r * c)%R <$> d) = (Rmap_sum d * c)%R.
Proof.
  induction d as [|k x d Hk IH] using map_ind.
  - rewrite fmap_empty, Rmap_sum_empty. lra.
  - rewrite fmap_insert, !Rmap_sum_insert, IH; [lra|done|].
    by rewrite lookup_fmap, Hk.
Qed.

Lemma Rmap_sum_nonneg (d : gmap string R) :
  (∀ k x, d !! k = Some x → (0 <= x)%R) → (0 <= Rmap_sum d)%R.
Proof.
  induction d as [|k x d Hk IH] using map_ind; intros Hd.
  - rewrite Rmap_sum_empty. lra.
  - rewrite Rmap_sum_insert by done.
    assert (0 <= x)%R by (apply (Hd k); apply lookup_insert_eq).
    assert (0 <= Rmap_sum d)%R; [|lra].
    apply IH. intros k' x' Hk'. apply (Hd k').
    rewrite lookup_insert_ne; [done|]. intros ->. congruence.
Qed.

(** A sum of non-negative entries is at least each entry. *)
Lemma Rmap_sum_ge_entry (d : gmap string R) (k : string) (x : R) :
  (∀ k x, d !! k = Some x → (0 <= x)%R) → d !! k = Some x → (x <= Rmap_sum d)%R.
Proof.
  induction d as [|k' x' d Hk' IH] using map_ind; intros Hd Hk; [done|].
  rewrite Rmap_sum_insert by done.
  assert (∀ k x, d !! k = Some x → (0 <= x)%R) as Hd'.
  { intros k0 x0 H0. apply (Hd k0). rewrite lookup_insert_ne; [done|].
    intros ->. congruence. }
  pose proof (Rmap_sum_nonneg d Hd').
  destruct (decide (k' = k)) as [->|Hne].
  - rewrite lookup_insert_eq in Hk. injection Hk as ->. lra.
  - rewrite lookup_insert_ne in Hk by done.
    assert (0 <= x')%R by (apply (Hd k'); apply lookup_insert_eq).
    pose proof (IH Hd' Hk). lra.
Qed.

(** ** Market Simulator *)

Lemma total_utility_insert (utilities : UtilityTable) (profile : Profile)
    (attr_name level : string) :
  profile !! attr_name = None →
  total_utility utilities (<[attr_name := level]> profile)
  = (total_utility utilities profile + contribution utilities attr_name level)%R.
Proof.
  intros Hnone. unfold total_utility. rewrite map_fold_insert_L; [| |done].
  - unfold contribution. destruct (utilities !! attr_name) as [us|]; [|lra].
    destruct (us !! level); cbn; lra.
  - intros j1 j2 z1 z2 y _ _ _.
    destruct (utilities !! j1) as [u1|], (utilities !! j2) as [u2|]; try done.
    + destruct (u1 !! z1), (u2 !! z2); try done. lra.
Qed.

(** C10.  An attribute of a profile whose name is in the utility table but
    whose level is not among that attribute's utilities adds 0 to the
    profile's total utility: the total is that of the profile without the
    attribute. *)
Theorem absent_level_contributes_zero (utilities : UtilityTable) (profile : Profile)
    (attr_name level : string) (attr_utils : gmap string R) :
  profile !! attr_name = Some level →
  utilities !! attr_name = Some attr_utils →
  attr_utils !! level = None →
  contribution utilities attr_name level = 0%R
  ∧ total_utility utilities profile
    = total_utility utilities (delete attr_name profile).
Proof.
  intros Hp Hu Hl.
  assert (contribution utilities attr_name level = 0%R) as Hc.
  { unfold contribution. by rewrite Hu, Hl. }
  split; [done|].
  rewrite <- (insert_delete_id profile attr_name level Hp) at 1.
  rewrite total_utility_insert by apply lookup_delete_eq. rewrite Hc. lra.
Qed.

Lemma Rmax_shift (a b c : R) : Rmax (a + c) (b + c) = (Rmax a b + c)%R.
Proof. unfold Rmax. destruct (Rle_dec _ _), (Rle_dec _ _); lra. Qed.

Lemma Rlist_max_shift (x c : R) (l : list R) :
  Rlist_max (x + c) ((λ u, u + c)%R <$> l) = (Rlist_max x l + c)%R.
Proof.
  unfold Rlist_max. revert x. induction l as [|y l IH]; intros x; [done|].
  rewrite fmap_cons. cbn [foldl]. rewrite Rmax_shift. apply IH.
Qed.

Lemma foldl_Rplus (a : R) (l : list R) : foldl Rplus a l = (a + Rsum l)%R.
Proof.
  unfold Rsum. revert a. induction l as [|x l IH]; intros a; cbn [foldl]; [lra|].
  rewrite (IH (a + x)%R), (IH (0 + x)%R). lra.
Qed.

Lemma Rsum_cons (x : R) (l : list R) : Rsum (x :: l) = (x + Rsum l)%R.
Proof. unfold Rsum at 1. cbn [foldl]. rewrite foldl_Rplus. lra. Qed.

Lemma Rsum_pos (l : list R) :
  l ≠ [] → (∀ x, x ∈ l → (0 < x)%R) → (0 < Rsum l)%R.
Proof.
  induction l as [|x l IH]; intros Hne Hpos; [done|].
  rewrite Rsum_cons. assert (0 < x)%R by (apply Hpos; left).
  destruct l as [|y l]; [cbn; lra|].
  assert (0 < Rsum (y :: l))%R; [|lra].
  apply IH; [done|]. intros z Hz. apply Hpos. by right.
Qed.

Lemma Rsum_div (l : list R) (s : R) :
  Rsum ((λ e, e / s)%R <$> l) = (Rsum l / s)%R.
Proof.
  induction l as [|x l IH]; [cbn; lra|].
  rewrite fmap_cons, !Rsum_cons, IH. lra.
Qed.

Lemma shares_sum (profile_utils : list R) :
  profile_utils ≠ [] → Rsum (shares profile_utils) = 1%R.
Proof.
  intros Hne. unfold shares.
  set (max_util := match profile_utils with [] => 0%R | u :: rest => Rlist_max u rest end).
  set (exp_utils := (λ u, exp (u - max_util)) <$> profile_utils).
  assert (0 < Rsum exp_utils)%R as Hpos.
  { apply Rsum_pos.
    - subst exp_utils. by destruct profile_utils.
    - intros x (u & -> & _)%list_elem_of_fmap. apply exp_pos. }
  destruct (Rlt_dec 0 (Rsum exp_utils)) as [_|]; [|done].
  rewrite Rsum_div. field. lra.
Qed.

Lemma shares_shift (profile_utils : list R) (c : R) :
  shares ((λ u, u + c)%R <$> profile_utils) = shares profile_utils.
Proof.
  unfold shares.
  assert ((λ u, exp (u - match (λ u, u + c)%R <$> profile_utils with
                          | [] => 0%R
                          | u :: rest => Rlist_max u rest
                          end)) <$> ((λ u, u + c)%R <$> profile_utils)
          = (λ u, exp (u - match profile_utils with
                           | [] => 0%R
                           | u :: rest => Rlist_max u rest
                           end)) <$> profile_utils) as ->; [|done].
  rewrite <- list_fmap_compose. apply list_fmap_ext. intros i u Hu. cbn.
  f_equal. destruct profile_utils as [|v rest]; [by rewrite lookup_nil in Hu|].
  rewrite fmap_cons, Rlist_max_shift. lra.
Qed.

Lemma market_sim_shares (utilities : UtilityTable) (profiles : list Profile) :
  (market_sim utilities profiles).*2 = shares (total_utility utilities <$> profiles).
Proof.
  unfold market_sim. apply snd_zip.
  unfold shares. rewrite !length_fmap, length_zip, length_fmap. lia.
Qed.

(** C2, amended.  In exact arithmetic, for a non-empty list of profiles
    and every utility table the choice shares of the simulator's formula
    sum to 1; and whenever every profile's total utility under a second
    table is its total utility under the first plus one constant c, the
    two tables give the same shares: shares computed from u_i + c are the
    shares computed from u_i. *)
Theorem market_shares_softmax (utilities : UtilityTable) (profiles : list Profile) :
  profiles ≠ [] →
  Rsum (market_sim utilities profiles).*2 = 1%R
  ∧ (∀ (utilities' : UtilityTable) (c : R),
       (∀ p, p ∈ profiles →
             total_utility utilities' p = (total_utility utilities p + c)%R) →
       (market_sim utilities' profiles).*2 = (market_sim utilities profiles).*2)
  ∧ ∀ (profile_utils : list R) (c : R),
      shares ((λ u, u + c)%R <$> profile_utils) = shares profile_utils.
Proof.
  intros Hne. rewrite market_sim_shares. split; [|split].
  - apply shares_sum. by destruct profiles.
  - intros utilities' c Hshift. rewrite !market_sim_shares.
    rewrite <- (shares_shift (total_utility utilities <$> profiles) c).
    f_equal. rewrite <- list_fmap_compose. apply list_fmap_ext.
    intros i p Hp. cbn. apply Hshift. by eapply list_elem_of_lookup_2.
  - intros profile_utils c. apply shares_shift.
Qed.

Lemma contribution_lookup (utilities : UtilityTable) (attr_name level : string)
    (attr_utils : gmap string R) (u : R) :
  utilities !! attr_name = Some attr_utils → attr_utils !! level = Some u →
  contribution utilities attr_name level = u.
Proof. intros H1 H2. unfold contribution. by rewrite H1, H2. Qed.

Lemma total_utility_singleton (utilities : UtilityTable) (attr_name level : string) :
  total_utility utilities {[attr_name := level]}
  = contribution utilities attr_name level.
Proof.
  rewrite <- insert_empty, total_utility_insert by apply lookup_empty.
  unfold total_utility. rewrite map_fold_empty. lra.
Qed.

Lemma market_shares_softmax_witness :
  Rsum (market_sim utilities_abc profiles_abc).*2 = 1%R
  ∧ (∀ (utilities' : UtilityTable) (c : R),
       (∀ p, p ∈ profiles_abc →
             total_utility utilities' p = (total_utility utilities_abc p + c)%R) →
       (market_sim utilities' profiles_abc).*2
       = (market_sim utilities_abc profiles_abc).*2)
  ∧ ∀ (profile_utils : list R) (c : R),
      shares ((λ u, u + c)%R <$> profile_utils) = shares profile_utils.
Proof.
  apply (market_shares_softmax utilities_abc profiles_abc). discriminate.
Defined.

Lemma shares_shift_tables (utilities utilities' : UtilityTable)
    (profiles : list Profile) (c : R) :
  (∀ p, p ∈ profiles →
        total_utility utilities' p = (total_utility utilities p + c)%R) →
  (market_sim utilities' profiles).*2 = (market_sim utilities profiles).*2.
Proof.
  intros Hshift. rewrite !market_sim_shares.
  rewrite <- (shares_shift (total_utility utilities <$> profiles) c).
  f_equal. rewrite <- list_fmap_compose. apply list_fmap_ext.
  intros i p Hp. cbn. apply Hshift. by eapply list_elem_of_lookup_2.
Qed.

(** The spec's example: utilities 1, 1, 2 and 2, 2, 3 give the same
    shares. *)
Example shares_abc_shifted :
  (market_sim utilities_abc_shifted profiles_abc).*2
  = (market_sim utilities_abc profiles_abc).*2.
Proof.
  apply (shares_shift_tables utilities_abc utilities_abc_shifted profiles_abc 1%R).
  intros p Hp. unfold profiles_abc in Hp.
  repeat (apply elem_of_cons in Hp as [->|Hp]);
    [| | | by apply elem_of_nil in Hp];
    rewrite !total_utility_singleton;
    erewrite !contribution_lookup by reflexivity; lra.
Qed.

Lemma absent_level_contributes_zero_witness :
  contribution utilities_color "color" "blue" = 0%R
  ∧ total_utility utilities_color profile_blue
    = total_utility utilities_color (delete "color" profile_blue).
Proof.
  apply (absent_level_contributes_zero utilities_color profile_blue "color" "blue"
           {["red" := 1%R]}); reflexivity.
Defined.

(** ** Market Simulator on binary64 floats *)

Lemma plain_lib_laws : FloatLibLaws plain_lib.
Proof. split; [reflexivity | reflexivity | intros x; reflexivity]. Qed.

(** When a total utility overflows, the only share is 0, whatever the
    library: [inf - inf] is NaN, so is the sum, and [sum_exp > 0] fails. *)
Lemma float_market_sim_overflow (L : FloatLib) :
  FloatLibLaws L →
  float_market_sim utilities_huge [profile_huge]
  = Ok [(profile_huge, infinity, 0%float)].
Proof.
  intros HL. unfold float_market_sim.
  assert (float_total_utility utilities_huge <$> [profile_huge] = [infinity]) as ->
    by (vm_compute; reflexivity).
  unfold float_shares.
  assert (float_max [infinity] = infinity) as -> by reflexivity.
  cbn [mapM].
  assert ((infinity - infinity)%float = nan) as -> by (vm_compute; reflexivity).
  rewrite math_exp_nan. cbn [mbind result_bind mret result_ret].
  rewrite float_sum_one.
  assert ((0 + nan)%float = nan) as -> by (vm_compute; reflexivity).
  assert ((0 <? nan)%float = false) as -> by (vm_compute; reflexivity).
  reflexivity.
Qed.

Example exp_minus_one :
  ∃ y, plain_exp (-1)%float = Ok y
       ∧ (47 / 128 <? y)%float = true ∧ (y <? 377 / 1024)%float = true.
Proof. eexists. split; [vm_compute; reflexivity|]. split; vm_compute; reflexivity. Qed.

Lemma mapM_exp_differences (L : FloatLib) (max_util : float) (l : list float) :
  mapM (λ u, math_exp (u - max_util)%float) l
  = mapM math_exp ((λ u, (u - max_util)%float) <$> l).
Proof. induction l as [|u l IH]; [done|]. cbn. by rewrite IH. Qed.

(** The shares only depend on the differences to the largest utility, as
    floats. *)
Lemma float_shares_differences (L : FloatLib) (l l' : list float) :
  (λ u, (u - float_max l)%float) <$> l = (λ u, (u - float_max l')%float) <$> l' →
  float_shares l = float_shares l'.
Proof.
  intros Heq. unfold float_shares. by rewrite !mapM_exp_differences, Heq.
Qed.

(** The spec's example on floats: utilities 1, 1, 2 and 2, 2, 3 have the
    same differences to their largest, and so the same shares, whatever
    the library. *)
Example float_shares_abc_shifted (L : FloatLib) :
  float_shares [2; 2; 3]%float = float_shares [1; 1; 2]%float.
Proof. apply float_shares_differences. vm_compute. reflexivity. Qed.

(** C2: the claim fails on the program's floats.  A profile whose total
    utility overflows has share 0, so the shares of a non-empty list sum to
    0; and adding [1e17] to the utilities 0 and 1 turns shares of about
    0.27 and 0.73 (below 0.375 and above 0.625) into 0.5 and 0.5. *)
Lemma market_shares_softmax_counterexample :
  float_market_sim (L := plain_lib) utilities_huge [profile_huge]
  = Ok [(profile_huge, infinity, 0%float)]
  ∧ (∃ s_a s_b,
       float_market_sim (L := plain_lib) utilities_unit profiles_unit
       = Ok [([("option", "A")], 0%float, s_a); ([("option", "B")], 1%float, s_b)]
       ∧ (s_a <? 0.375)%float = true ∧ (0.625 <? s_b)%float = true)
  ∧ float_market_sim (L := plain_lib) utilities_unit_shifted profiles_unit
    = Ok [([("option", "A")], 1e17%float, 0.5%float);
          ([("option", "B")], 1e17%float, 0.5%float)].
Proof.
  split; [|split].
  - vm_compute. reflexivity.
  - eexists _, _. split; [vm_compute; reflexivity|]. split; vm_compute; reflexivity.
  - vm_compute. reflexivity.
Qed.

(** ** Importance Calculator *)

Lemma Rlist_max_spec (x : R) (l : list R) :
  Rlist_max x l ∈ x :: l ∧ ∀ v, v ∈ x :: l → (v <= Rlist_max x l)%R.
Proof.
  unfold Rlist_max. revert x. induction l as [|y l IH]; intros x.
  - cbn. split; [left|]. intros v ->%list_elem_of_singleton. lra.
  - cbn [foldl]. destruct (IH (Rmax x y)) as [Hin Hle]. split.
    + apply elem_of_cons in Hin as [Heq|Hin]; [|by do 2 right].
      rewrite Heq. unfold Rmax. destruct (Rle_dec x y); [right; left | left].
    + intros v [->|[->|Hv]%elem_of_cons]%elem_of_cons.
      * etrans; [apply (Rmax_l _ y)|]. apply Hle. left.
      * etrans; [apply (Rmax_r x)|]. apply Hle. left.
      * apply Hle. by right.
Qed.

Lemma Rlist_min_spec (x : R) (l : list R) :
  Rlist_min x l ∈ x :: l ∧ ∀ v, v ∈ x :: l → (Rlist_min x l <= v)%R.
Proof.
  unfold Rlist_min. revert x. induction l as [|y l IH]; intros x.
  - cbn. split; [left|]. intros v ->%list_elem_of_singleton. lra.
  - cbn [foldl]. destruct (IH (Rmin x y)) as [Hin Hle]. split.
    + apply elem_of_cons in Hin as [Heq|Hin]; [|by do 2 right].
      rewrite Heq. unfold Rmin. destruct (Rle_dec x y); [left | right; left].
    + intros v [->|[->|Hv]%elem_of_cons]%elem_of_cons.
      * etrans; [|apply (Rmin_l _ y)]. apply Hle. left.
      * etrans; [|apply (Rmin_r x)]. apply Hle. left.
      * apply Hle. by right.
Qed.

Lemma utility_range_is_range (attr_utils : gmap string R) :
  is_range (map_to_list attr_utils).*2 (utility_range attr_utils).
Proof.
  unfold utility_range, is_range.
  destruct ((map_to_list attr_utils).*2) as [|x l]; [done|].
  destruct (Rlist_max_spec x l) as [Hmax1 Hmax2].
  destruct (Rlist_min_spec x l) as [Hmin1 Hmin2].
  exists (Rlist_max x l), (Rlist_min x l). split; [done|]. split; [done|].
  split; [|done]. intros v Hv. split; [by apply Hmin2 | by apply Hmax2].
Qed.

Lemma utility_range_nonneg (attr_utils : gmap string R) :
  (0 <= utility_range attr_utils)%R.
Proof.
  unfold utility_range. destruct ((map_to_list attr_utils).*2) as [|x l]; [lra|].
  destruct (Rlist_max_spec x l) as [_ Hmax].
  destruct (Rlist_min_spec x l) as [_ Hmin].
  specialize (Hmax x (list_elem_of_here _ _)).
  specialize (Hmin x (list_elem_of_here _ _)). lra.
Qed.

Lemma total_range_nonneg (utilities : UtilityTable) :
  (0 <= Rmap_sum (utility_range <$> utilities))%R.
Proof.
  apply Rmap_sum_nonneg. intros k x. rewrite lookup_fmap.
  destruct (utilities !! k); [|done]. intros [= <-]. apply utility_range_nonneg.
Qed.

(** C5.  The Importance Calculator gives every attribute of the utility
    table the percentage range / (sum of all ranges) * 100, where the range
    of an attribute is the largest minus the smallest of its level
    utilities (0 without levels); the percentages sum to 100 when some
    attribute has a non-zero range; and when the ranges sum to 0, which is
    the only other case, every importance is 0. *)
Theorem importance_percentages (utilities : UtilityTable) :
  (∀ attr_name attr_utils, utilities !! attr_name = Some attr_utils →
     is_range (map_to_list attr_utils).*2 (utility_range attr_utils)
     ∧ ((0 < Rmap_sum (utility_range <$> utilities))%R →
        _compute_importance utilities !! attr_name
        = Some (utility_range attr_utils
                / Rmap_sum (utility_range <$> utilities) * 100)%R))
  ∧ (∀ attr_name, utilities !! attr_name = None →
       _compute_importance utilities !! attr_name = None)
  ∧ ((∃ attr_name attr_utils, utilities !! attr_name = Some attr_utils
                              ∧ utility_range attr_utils ≠ 0%R) →
     Rmap_sum (_compute_importance utilities) = 100%R)
  ∧ (0 <= Rmap_sum (utility_range <$> utilities))%R
  ∧ (Rmap_sum (utility_range <$> utilities) = 0%R →
     ∀ attr_name v, _compute_importance utilities !! attr_name = Some v → v = 0%R).
Proof.
  split; [|split; [|split; [|split]]].
  - intros attr_name attr_utils Hu. split; [apply utility_range_is_range|].
    intros Hpos. unfold _compute_importance. rewrite !lookup_fmap, Hu. cbn.
    by destruct (Rlt_dec _ _).
  - intros attr_name Hu. unfold _compute_importance. by rewrite !lookup_fmap, Hu.
  - intros (attr_name & attr_utils & Hu & Hne).
    pose proof (utility_range_nonneg attr_utils) as Hnn.
    assert (utility_range attr_utils <= Rmap_sum (utility_range <$> utilities))%R
      as Hle.
    { apply (Rmap_sum_ge_entry _ attr_name).
      - intros k x. rewrite lookup_fmap. destruct (utilities !! k); [|done].
        intros [= <-]. apply utility_range_nonneg.
      - by rewrite lookup_fmap, Hu. }
    unfold _compute_importance.
    destruct (Rlt_dec 0 (Rmap_sum (utility_range <$> utilities))) as [Hpos|]; [|lra].
    rewrite (map_fmap_ext _ (λ r, r * (100 / Rmap_sum (utility_range <$> utilities)))%R).
    + rewrite Rmap_sum_fmap_scale. field. lra.
    + intros k x _. field. lra.
  - apply total_range_nonneg.
  - intros Hzero attr_name v. unfold _compute_importance.
    rewrite lookup_fmap. destruct (Rlt_dec _ _) as [Hpos|_]; [lra|].
    destruct ((utility_range <$> utilities) !! attr_name); [|done].
    by intros [= <-].
Qed.

(** ** Utility Estimator *)

Lemma counter_incr_lookup (level l : string) (c : Counter) :
  default 0 (counter_incr level c !! l)
  = default 0 (c !! l) + (if decide (level = l) then 1 else 0).
Proof.
  unfold counter_incr. destruct (decide (level = l)) as [->|Hne].
  - rewrite lookup_insert_eq. cbn. lia.
  - rewrite lookup_insert_ne by done. lia.
Qed.

Lemma init_counts_lookup (attributes : Attributes) (m : gmap string Counter)
    (attr_name : string) :
  attr_name ∈ attributes.*1 ∨ m !! attr_name = Some ∅ →
  foldl (λ m a, <[a.1 := (∅ : Counter)]> m) m attributes !! attr_name = Some ∅.
Proof.
  revert m. induction attributes as [|a attributes IH]; intros m H.
  - destruct H as [H|H]; [by apply elem_of_nil in H | done].
  - cbn [foldl]. apply IH. destruct (decide (a.1 = attr_name)) as [<-|Hne].
    + right. apply lookup_insert_eq.
    + destruct H as [H|H].
      * left. rewrite fmap_cons in H. apply elem_of_cons in H as [H|H]; [|done].
        by destruct Hne.
      * right. by rewrite lookup_insert_ne.
Qed.

Section count_record.
Context (p : Profile) (attr_name : string).

Lemma count_attrs_other (attributes : Attributes) (lc : gmap string Counter) :
  attr_name ∉ attributes.*1 →
  foldl (count_attr p) lc attributes !! attr_name = lc !! attr_name.
Proof.
  revert lc. induction attributes as [|a attributes IH]; intros lc Hnot; [done|].
  rewrite fmap_cons in Hnot. apply not_elem_of_cons in Hnot as [Hne Hnot].
  cbn [foldl]. rewrite IH by done. unfold count_attr.
  destruct (p !! a.1); [|done]. by rewrite lookup_alter_ne.
Qed.

Lemma count_attrs_lookup (attributes : Attributes) (lc : gmap string Counter)
    (c : Counter) :
  NoDup attributes.*1 → attr_name ∈ attributes.*1 → lc !! attr_name = Some c →
  foldl (count_attr p) lc attributes !! attr_name
  = Some (match p !! attr_name with
          | Some level => counter_incr level c
          | None => c
          end).
Proof.
  revert lc. induction attributes as [|a attributes IH]; intros lc Hnd Hin Hlc.
  - by apply elem_of_nil in Hin.
  - rewrite fmap_cons in Hnd, Hin. apply NoDup_cons in Hnd as [Hfresh Hnd].
    cbn [foldl]. destruct (decide (a.1 = attr_name)) as [Heq|Hne].
    + rewrite count_attrs_other by (by rewrite <- Heq).
      unfold count_attr. rewrite Heq. destruct (p !! attr_name).
      * by rewrite lookup_alter_eq, Hlc.
      * done.
    + apply elem_of_cons in Hin as [Hin|Hin]; [by destruct Hne|].
      apply IH; [done..|]. unfold count_attr.
      destruct (p !! a.1); [|done]. by rewrite lookup_alter_ne.
Qed.
End count_record.

Lemma count_record_lookup (attributes : Attributes) (lc : gmap string Counter)
    (rec : ChoiceRecord) (attr_name : string) (c : Counter) :
  NoDup attributes.*1 → attr_name ∈ attributes.*1 → lc !! attr_name = Some c →
  ∃ c', count_record attributes lc rec !! attr_name = Some c'
        ∧ ∀ level, default 0 (c' !! level)
            = default 0 (c !! level)
              + (if decide (chose attr_name level rec) then 1 else 0).
Proof.
  intros Hnd Hin Hlc. unfold count_record.
  destruct (chosen_profile rec) as [p|] eqn:Hp.
  - rewrite (count_attrs_lookup p attr_name attributes lc c) by done.
    eexists. split; [done|]. intros level.
    destruct (p !! attr_name) as [lv|] eqn:Hlv.
    + rewrite counter_incr_lookup.
      destruct (decide (lv = level)) as [->|Hne].
      * rewrite decide_True; [done|]. exists p. by rewrite Hp.
      * rewrite decide_False; [done|]. intros (q & Hq & Hql).
        rewrite Hp in Hq. injection Hq as <-. congruence.
    + rewrite decide_False; [lia|]. intros (q & Hq & Hql).
      rewrite Hp in Hq. injection Hq as <-. congruence.
  - exists c. split; [done|]. intros level.
    rewrite decide_False; [lia|]. intros (q & Hq & _). congruence.
Qed.

Lemma count_records_lookup (attributes : Attributes) (records : list ChoiceRecord)
    (lc : gmap string Counter) (attr_name : string) (c : Counter) :
  NoDup attributes.*1 → attr_name ∈ attributes.*1 → lc !! attr_name = Some c →
  ∃ c', foldl (count_record attributes) lc records !! attr_name = Some c'
        ∧ ∀ level, default 0 (c' !! level)
            = default 0 (c !! level) + chosen_count records attr_name level.
Proof.
  intros Hnd Hin. revert lc c.
  induction records as [|rec records IH]; intros lc c Hlc.
  - exists c. split; [done|]. intros level. unfold chosen_count. cbn. lia.
  - cbn [foldl].
    destruct (count_record_lookup attributes lc rec attr_name c Hnd Hin Hlc)
      as (c1 & Hc1 & Hcount1).
    destruct (IH _ _ Hc1) as (c' & Hc' & Hcount).
    exists c'. split; [done|]. intros level.
    rewrite Hcount, Hcount1. unfold chosen_count. rewrite filter_cons.
    destruct (decide (chose attr_name level rec)); cbn; lia.
Qed.

Lemma level_chosen_counts_lookup (records : list ChoiceRecord)
    (attributes : Attributes) (attr_name : string) :
  NoDup attributes.*1 → attr_name ∈ attributes.*1 →
  ∃ c, level_chosen_counts records attributes !! attr_name = Some c
       ∧ ∀ level, default 0 (c !! level) = chosen_count records attr_name level.
Proof.
  intros Hnd Hin. unfold level_chosen_counts.
  destruct (count_records_lookup attributes records
              (foldl (λ m a, <[a.1 := (∅ : Counter)]> m) ∅ attributes)
              attr_name ∅ Hnd Hin) as (c & Hc & Hcount).
  { apply init_counts_lookup. by left. }
  exists c. split; [done|]. intros level. rewrite Hcount, lookup_empty. done.
Qed.

Lemma chosen_count_le_total (records : list ChoiceRecord) (attr_name level : string) :
  (chosen_count records attr_name level ≤ total_choices records)%nat.
Proof.
  unfold chosen_count, total_choices.
  induction records as [|rec records IH]; [done|].
  rewrite !filter_cons.
  destruct (decide (chose attr_name level rec)) as [(p & Hp & _)|].
  - rewrite decide_True by congruence. cbn. lia.
  - destruct (decide (chosen_profile rec ≠ None)); cbn; lia.
Qed.

Lemma raw_utils_fold_lookup (g : string → R) (levels : list string)
    (m : gmap string R) (level : string) :
  foldl (λ attr_utils l, <[l := g l]> attr_utils) m levels !! level
  = if decide (level ∈ levels) then Some (g level) else m !! level.
Proof.
  revert m. induction levels as [|l levels IH]; intros m.
  - rewrite decide_False; [done|]. apply not_elem_of_nil.
  - cbn [foldl]. rewrite IH. destruct (decide (level ∈ levels)) as [Hin|Hnot].
    + rewrite decide_True; [done|]. by right.
    + destruct (decide (l = level)) as [->|Hne].
      * rewrite decide_True by left. apply lookup_insert_eq.
      * rewrite decide_False.
        -- by rewrite lookup_insert_ne.
        -- intros [->|?]%elem_of_cons; done.
Qed.

Lemma raw_utils_lookup (records : list ChoiceRecord) (attr_name : string)
    (levels : list string) (chosen : Counter) (level : string) :
  (∀ l, default 0 (chosen !! l) = chosen_count records attr_name l) →
  raw_utils chosen (total_choices records) levels !! level
  = if decide (level ∈ levels)
    then Some (pre_centering_utility records attr_name levels level)
    else None.
Proof.
  intros Hcount. unfold raw_utils.
  rewrite (raw_utils_fold_lookup
             (λ l, level_utility (total_choices records) (default 0 (chosen !! l))
                     (1 / INR (length levels)))).
  destruct (decide (level ∈ levels)); [|apply lookup_empty].
  f_equal. unfold level_utility, pre_centering_utility. rewrite Hcount.
  pose proof (chosen_count_le_total records attr_name level).
  destruct (decide (0 < chosen_count records attr_name level)).
  - rewrite decide_True; [done|]. split; [lia|done].
  - rewrite decide_False; [done|]. intros [_ ?]. done.
Qed.

Lemma center_nonempty (raw : gmap string R) :
  raw ≠ ∅ → center raw = (λ u, u - Rmap_sum raw / INR (size raw))%R <$> raw.
Proof. intros Hne. unfold center, mean_util. by rewrite decide_False. Qed.

Lemma compute_utilities_fold (records : list ChoiceRecord)
    (lc : gmap string Counter) (attributes : Attributes) (utilities : UtilityTable) :
  NoDup attributes.*1 →
  (∀ a, a ∈ attributes → a.2 ≠ [] ∧ is_Some (lc !! a.1)) →
  ∃ utilities',
    foldlM (λ utilities a,
              if decide (length a.2 = 0) then Err ZeroDivisionError
              else
                chosen ← match lc !! a.1 with
                         | Some c => Ok c
                         | None => Err KeyError
                         end;
                Ok (<[a.1 := center (raw_utils chosen (total_choices records) a.2)]>
                      utilities))
           utilities attributes = Ok utilities'
    ∧ ∀ attr_name levels, (attr_name, levels) ∈ attributes →
        ∃ c, lc !! attr_name = Some c
             ∧ utilities' !! attr_name
               = Some (center (raw_utils c (total_choices records) levels)).
Proof.
  revert utilities. induction attributes as [|[n levels] attributes IH];
    intros utilities Hnd Hok.
  - exists utilities. split; [done|]. intros ? ? H. by apply elem_of_nil in H.
  - rewrite fmap_cons in Hnd. apply NoDup_cons in Hnd as [Hfresh Hnd].
    destruct (Hok (n, levels)) as [Hlevels [c Hc]]; [left|]. cbn [fst snd] in *.
    cbn [foldlM fst snd]. rewrite decide_False by (by destruct levels).
    rewrite Hc. cbn [mbind result_bind].
    destruct (IH (<[n := center (raw_utils c (total_choices records) levels)]>
                    utilities) Hnd) as (utilities' & Hrun & Hrest).
    { intros a Ha. apply Hok. by right. }
    exists utilities'. split; [done|].
    intros attr_name levels' [[= -> ->]|Hin]%elem_of_cons; [|by apply Hrest].
    exists c. split; [done|].
    clear Hrest IH Hok. revert utilities' Hrun.
    generalize (<[n := center (raw_utils c (total_choices records) levels)]> utilities)
      (lookup_insert_eq utilities n (center (raw_utils c (total_choices records) levels))).
    induction attributes as [|[n' levels'] attributes IH2]; intros u0 Hu0 u1 Hrun.
    + injection Hrun as <-. done.
    + rewrite fmap_cons in Hfresh, Hnd.
      apply not_elem_of_cons in Hfresh as [Hne Hfresh].
      apply NoDup_cons in Hnd as [_ Hnd].
      cbn [foldlM fst snd] in Hrun.
      destruct (decide (length levels' = 0)); [done|].
      destruct (lc !! n') as [c'|]; [|done]. cbn [mbind result_bind] in Hrun.
      eapply (IH2 Hfresh Hnd); [|exact Hrun].
      rewrite lookup_insert_ne; [done|]. cbn in Hne. congruence.
Qed.

(** C1, amended.  For every list of choice records and every attribute
    specification in which each attribute has at least one level, the
    Utility Estimator returns a table that gives each attribute the
    dictionary obtained from the pre-centering utilities of its levels,
    ln((chosen_count / total_choices) / expected_share) when chosen_count
    is positive and -2 when it is 0, with expected_share = 1 / number of
    levels, by subtracting their mean from each of them. *)
Theorem compute_utilities_formula (records : list ChoiceRecord)
    (attributes : Attributes) :
  NoDup attributes.*1 →
  (∀ a, a ∈ attributes → a.2 ≠ []) →
  ∃ utilities,
    _compute_utilities records attributes = Ok utilities
    ∧ ∀ attr_name levels, (attr_name, levels) ∈ attributes →
        ∃ raw : gmap string R,
          (∀ level, level ∈ levels →
             raw !! level
             = Some (pre_centering_utility records attr_name levels level))
          ∧ (∀ level, level ∉ levels → raw !! level = None)
          ∧ utilities !! attr_name
            = Some ((λ u, u - Rmap_sum raw / INR (size raw))%R <$> raw).
Proof.
  intros Hnd Hlevels. unfold _compute_utilities.
  destruct (compute_utilities_fold records
              (level_chosen_counts records attributes) attributes ∅ Hnd)
    as (utilities & Hrun & Hlookup).
  { intros a Ha. split; [by apply Hlevels|].
    destruct (level_chosen_counts_lookup records attributes a.1 Hnd)
      as (c & -> & _); [|done].
    apply list_elem_of_fmap. by exists a. }
  exists utilities. split; [exact Hrun|].
  intros attr_name levels Hin.
  destruct (Hlookup attr_name levels Hin) as (c & Hc & Hu).
  destruct (level_chosen_counts_lookup records attributes attr_name Hnd)
    as (c' & Hc' & Hcount).
  { apply list_elem_of_fmap. by exists (attr_name, levels). }
  rewrite Hc in Hc'. injection Hc' as <-.
  exists (raw_utils c (total_choices records) levels).
  split; [|split].
  - intros level Hl. rewrite (raw_utils_lookup records attr_name) by done.
    by rewrite decide_True.
  - intros level Hl. rewrite (raw_utils_lookup records attr_name) by done.
    by rewrite decide_False.
  - rewrite Hu. f_equal. apply center_nonempty.
    specialize (Hlevels _ Hin). cbn in Hlevels.
    destruct levels as [|l levels]; [done|].
    intros Hempty.
    pose proof (raw_utils_lookup records attr_name (l :: levels) c l Hcount) as Hl.
    rewrite decide_True in Hl by left. by rewrite Hempty, lookup_empty in Hl.
Qed.

Lemma compute_utilities_formula_witness :
  ∃ utilities,
    _compute_utilities records_red attrs_color = Ok utilities
    ∧ ∀ attr_name levels, (attr_name, levels) ∈ attrs_color →
        ∃ raw : gmap string R,
          (∀ level, level ∈ levels →
             raw !! level
             = Some (pre_centering_utility records_red attr_name levels level))
          ∧ (∀ level, level ∉ levels → raw !! level = None)
          ∧ utilities !! attr_name
            = Some ((λ u, u - Rmap_sum raw / INR (size raw))%R <$> raw).
Proof.
  apply (compute_utilities_formula records_red attrs_color).
  - apply (bool_decide_unpack _). vm_compute. exact I.
  - intros a Ha. revert a Ha. apply Forall_forall.
    apply (bool_decide_unpack _). vm_compute. exact I.
Defined.

(** C1 as stated fails: for an attribute without levels the estimator
    divides by the number of levels and raises, so no level of any
    attribute is assigned a utility. *)
Lemma compute_utilities_formula_counterexample :
  _compute_utilities records_red attrs_no_levels = Err ZeroDivisionError.
Proof. reflexivity. Qed.

(** * Further properties *)

(** ** Attribute differences *)

Lemma diff_fold_ok (p2 : Profile) (l : list (string * string)) (n : nat) :
  (∀ kv, kv ∈ l → is_Some (p2 !! kv.1)) →
  foldlM (λ n kv, match p2 !! kv.1 with
                  | None => Err KeyError
                  | Some v2 => Ok (if decide (kv.2 ≠ v2) then S n else n)
                  end) n l
  = Ok (n + length (filter (λ kv : string * string, p2 !! kv.1 ≠ Some kv.2) l)).
Proof.
  revert n. induction l as [|[k v] l IH]; intros n Hall.
  - cbn. f_equal. lia.
  - cbn [foldlM fst snd]. destruct (Hall (k, v)) as [v2 Hv2]; [left|].
    cbn [fst] in Hv2. rewrite Hv2. cbn [mbind result_bind].
    rewrite IH by (intros kv Hkv; apply Hall; by right).
    rewrite filter_cons. cbn [fst snd]. rewrite Hv2. f_equal.
    destruct (decide (v ≠ v2)) as [Hne|Heq].
    + rewrite decide_True by congruence. cbn. lia.
    + rewrite decide_False; [lia|]. intros H. apply H. f_equal.
      by destruct (decide (v = v2)).
Qed.

Lemma diff_fold_missing (p2 : Profile) (l : list (string * string)) (n : nat) :
  (∃ kv, kv ∈ l ∧ p2 !! kv.1 = None) →
  foldlM (λ n kv, match p2 !! kv.1 with
                  | None => Err KeyError
                  | Some v2 => Ok (if decide (kv.2 ≠ v2) then S n else n)
                  end) n l
  = Err KeyError.
Proof.
  revert n. induction l as [|[k v] l IH]; intros n (kv & Hin & Hnone).
  - by apply elem_of_nil in Hin.
  - cbn [foldlM fst snd]. destruct (p2 !! k) as [v2|] eqn:Hk; [|done].
    cbn [mbind result_bind]. apply IH. exists kv. split; [|done].
    apply elem_of_cons in Hin as [->|Hin]; [|done]. cbn in Hnone. congruence.
Qed.

Lemma differing_map_to_list (p1 p2 : Profile) :
  length (filter (λ kv : string * string, p2 !! kv.1 ≠ Some kv.2) (map_to_list p1))
  = differing p1 p2.
Proof.
  unfold differing. rewrite map_filter_alt, <- length_map_to_list.
  symmetry. apply Permutation_length, map_to_list_to_map.
  eapply sublist_NoDup; [apply (NoDup_fst_map_to_list p1)|].
  apply fmap_sublist, sublist_filter.
Qed.

Lemma profile_diff_count_differing (p1 p2 : Profile) :
  (∀ k, is_Some (p1 !! k) → is_Some (p2 !! k)) →
  _profile_diff_count p1 p2 = Ok (differing p1 p2).
Proof.
  intros Hkeys. unfold _profile_diff_count. rewrite diff_fold_ok.
  - by rewrite differing_map_to_list.
  - intros [k v] Hkv%elem_of_map_to_list. apply Hkeys. by eexists.
Qed.

Lemma profile_diff_count_missing (p1 p2 : Profile) (k : string) :
  is_Some (p1 !! k) → p2 !! k = None → _profile_diff_count p1 p2 = Err KeyError.
Proof.
  intros [v Hv] Hnone. apply diff_fold_missing. exists (k, v).
  split; [by apply elem_of_map_to_list | done].
Qed.

Lemma differing_le_size (p1 p2 : Profile) : (differing p1 p2 ≤ size p1)%nat.
Proof. unfold differing. apply map_size_filter. Qed.

(** X1.  [_profile_diff_count p1 p2] raises [KeyError] exactly when [p1]
    has an attribute that [p2] lacks; otherwise it returns the number of
    attributes of [p1] that [p2] maps to another level, which is at most the
    number of attributes of [p1]. *)
Theorem profile_diff_count_keys (p1 p2 : Profile) :
  (_profile_diff_count p1 p2 = Err KeyError
   ↔ ∃ k, is_Some (p1 !! k) ∧ p2 !! k = None)
  ∧ ((∀ k, is_Some (p1 !! k) → is_Some (p2 !! k)) →
     _profile_diff_count p1 p2 = Ok (differing p1 p2)
     ∧ (differing p1 p2 ≤ size p1)%nat).
Proof.
  split.
  - split.
    + intros Herr.
      destruct (decide (map_Forall (λ k _, is_Some (p2 !! k)) p1)) as [Hall|Hnot].
      * rewrite profile_diff_count_differing in Herr; [done|].
        intros k [v Hv]. by apply (Hall k v).
      * apply map_not_Forall in Hnot as (k & v & Hv & Hno); [|apply _].
        exists k. split; [by eexists|]. by apply eq_None_not_Some.
    + intros (k & Hk & Hnone). by eapply profile_diff_count_missing.
  - intros Hkeys. split; [by apply profile_diff_count_differing|].
    apply differing_le_size.
Qed.

Lemma differing_zero (p1 p2 : Profile) : differing p1 p2 = 0 ↔ p1 ⊆ p2.
Proof.
  unfold differing. rewrite map_size_empty_iff, map_empty_filter, map_subseteq_spec.
  unfold map_Forall. cbn [fst snd]. split.
  - intros H k v Hk. specialize (H k v Hk).
    destruct (decide (p2 !! k = Some v)); [done|]. by destruct H.
  - intros H k v Hk Hne. apply Hne. by apply H.
Qed.

Lemma differing_sym (p1 p2 : Profile) :
  (∀ k, is_Some (p1 !! k) ↔ is_Some (p2 !! k)) → differing p1 p2 = differing p2 p1.
Proof.
  intros Hkeys. unfold differing. rewrite <- !size_dom. f_equal.
  apply set_eq. intros k. rewrite !elem_of_dom. unfold is_Some.
  setoid_rewrite map_lookup_filter_Some. cbn [fst snd]. split.
  - intros (v & Hv & Hne). destruct (proj1 (Hkeys k)) as [v2 Hv2]; [by eexists|].
    exists v2. split; [done|]. congruence.
  - intros (v & Hv & Hne). destruct (proj2 (Hkeys k)) as [v1 Hv1]; [by eexists|].
    exists v1. split; [done|]. congruence.
Qed.

(** X2.  The count is 0 exactly when [p2] maps every attribute of [p1] to
    the same level; and for two profiles over the same attributes the count
    does not depend on the order of the arguments and is 0 only when the
    profiles are equal. *)
Theorem profile_diff_count_zero_sym (p1 p2 : Profile) :
  (_profile_diff_count p1 p2 = Ok 0 ↔ p1 ⊆ p2)
  ∧ ((∀ k, is_Some (p1 !! k) ↔ is_Some (p2 !! k)) →
     _profile_diff_count p1 p2 = _profile_diff_count p2 p1
     ∧ (_profile_diff_count p1 p2 = Ok 0 ↔ p1 = p2)).
Proof.
  assert (_profile_diff_count p1 p2 = Ok 0 ↔ p1 ⊆ p2) as Hzero.
  { split.
    - intros Hrun.
      destruct (decide (map_Forall (λ k _, is_Some (p2 !! k)) p1)) as [Hall|Hnot].
      + rewrite profile_diff_count_differing in Hrun
          by (intros k [v Hv]; by apply (Hall k v)).
        injection Hrun as Hrun. by apply differing_zero.
      + apply map_not_Forall in Hnot as (k & v & Hv & Hno); [|apply _].
        rewrite (profile_diff_count_missing p1 p2 k) in Hrun; [done|by eexists|].
        by apply eq_None_not_Some.
    - intros Hsub. rewrite profile_diff_count_differing.
      + f_equal. by apply differing_zero.
      + intros k [v Hv]. exists v. rewrite map_subseteq_spec in Hsub. by apply Hsub. }
  split; [exact Hzero|]. intros Hkeys. split.
  - rewrite !profile_diff_count_differing by (intros k; apply Hkeys).
    f_equal. by apply differing_sym.
  - rewrite Hzero. split; [|by intros ->].
    intros Hsub. apply map_eq. intros k.
    rewrite map_subseteq_spec in Hsub.
    destruct (p1 !! k) as [v|] eqn:E1; [symmetry; by apply Hsub|].
    destruct (p2 !! k) as [v|] eqn:E2; [|done].
    destruct (proj2 (Hkeys k)) as [v' Hv']; [by eexists|]. congruence.
Qed.

(** ** The greedy phase of a task *)

Lemma all_min_diff_true (min_diff : Z) (cand : Profile) (task : list Profile) :
  all_min_diff min_diff cand task = Ok true →
  ∀ t, t ∈ task →
    ∃ d, _profile_diff_count cand t = Ok d ∧ (min_diff ≤ Z.of_nat d)%Z.
Proof.
  induction task as [|t0 task IH]; intros Hrun t Ht; [by apply elem_of_nil in Ht|].
  cbn [all_min_diff] in Hrun.
  destruct (_profile_diff_count cand t0) as [d|] eqn:Hd; [|done].
  cbn [mbind result_bind] in Hrun.
  destruct (decide (min_diff ≤ Z.of_nat d)%Z) as [Hle|]; [|done].
  apply elem_of_cons in Ht as [->|Ht]; [by exists d | by apply IH].
Qed.

Lemma min_diff_respected_snoc (min_diff : Z) (task : list Profile) (cand : Profile) :
  min_diff_respected min_diff task →
  (∀ t, t ∈ task →
     ∃ d, _profile_diff_count cand t = Ok d ∧ (min_diff ≤ Z.of_nat d)%Z) →
  min_diff_respected min_diff (task ++ [cand]).
Proof.
  intros Htask Hcand i j earlier later Hij Hi Hj.
  assert (j < length (task ++ [cand])) as Hlen by (by eapply lookup_lt_Some).
  rewrite length_app in Hlen. cbn in Hlen.
  rewrite lookup_app_l in Hi by lia.
  destruct (decide (j < length task)) as [Hj'|Hj'].
  - rewrite lookup_app_l in Hj by done. exact (Htask i j earlier later Hij Hi Hj).
  - rewrite lookup_app_r in Hj by lia.
    replace (j - length task) with 0 in Hj by lia. injection Hj as <-.
    apply Hcand. by eapply list_elem_of_lookup_2.
Qed.

Lemma fill_min_diff_respects (profiles_per_task min_diff : Z)
    (candidates task task' : list Profile) :
  min_diff_respected min_diff task →
  fill_min_diff profiles_per_task min_diff candidates task = Ok task' →
  min_diff_respected min_diff task'.
Proof.
  revert task. induction candidates as [|cand rest IH]; intros task Htask Hrun.
  - by injection Hrun as <-.
  - cbn [fill_min_diff] in Hrun.
    destruct (decide (profiles_per_task ≤ Z.of_nat (length task))%Z);
      [by injection Hrun as <-|].
    destruct (all_min_diff min_diff cand task) as [[]|] eqn:Hall; [| |done];
      cbn [mbind result_bind] in Hrun.
    + eapply IH; [|exact Hrun]. apply min_diff_respected_snoc; [done|].
      by apply all_min_diff_true.
    + by eapply IH.
Qed.

Lemma fill_min_diff_length (profiles_per_task min_diff : Z)
    (candidates task task' : list Profile) :
  fill_min_diff profiles_per_task min_diff candidates task = Ok task' →
  (Z.of_nat (length task) ≤ Z.of_nat (length task')
   ≤ Z.max profiles_per_task (Z.of_nat (length task)))%Z.
Proof.
  revert task. induction candidates as [|cand rest IH]; intros task Hrun.
  - injection Hrun as <-. lia.
  - cbn [fill_min_diff] in Hrun.
    destruct (decide (profiles_per_task ≤ Z.of_nat (length task))%Z);
      [injection Hrun as <-; lia|].
    destruct (all_min_diff min_diff cand task) as [[]|]; [| |done];
      cbn [mbind result_bind] in Hrun; apply IH in Hrun;
      rewrite ?length_app in Hrun; cbn in Hrun; lia.
Qed.

(** X3.  The greedy phase of a task keeps the minimum-difference rule:
    starting from the first profile alone, every profile it adds differs
    from every profile already in the task in at least [min_diff]
    attributes; the first profile stays first and the task never grows
    beyond [profiles_per_task] profiles (or one, when that is smaller). *)
Theorem greedy_phase_min_diff (profiles_per_task min_diff : Z)
    (candidates task : list Profile) (first : Profile) :
  fill_min_diff profiles_per_task min_diff candidates [first] = Ok task →
  min_diff_respected min_diff task
  ∧ (∃ added, task = first :: added ∧ added `sublist_of` candidates)
  ∧ (Z.of_nat (length task) ≤ Z.max profiles_per_task 1)%Z.
Proof.
  intros Hrun. split; [|split].
  - eapply fill_min_diff_respects; [|exact Hrun].
    intros i j earlier later Hij Hi Hj.
    apply lookup_lt_Some in Hj. cbn in Hj. lia.
  - apply fill_min_diff_added in Hrun as (added & -> & Hsub). by exists added.
  - apply fill_min_diff_length in Hrun. cbn in Hrun. lia.
Qed.

Lemma greedy_phase_min_diff_witness :
  min_diff_respected 2 [profile_of "low" "X"; profile_of "high" "Y"]
  ∧ (∃ added, [profile_of "low" "X"; profile_of "high" "Y"]
              = profile_of "low" "X" :: added
              ∧ added `sublist_of` [profile_of "low" "Y"; profile_of "high" "X";
                                    profile_of "high" "Y"])
  ∧ (Z.of_nat (length [profile_of "low" "X"; profile_of "high" "Y"])
     ≤ Z.max 2 1)%Z.
Proof.
  apply (greedy_phase_min_diff 2 2
           [profile_of "low" "Y"; profile_of "high" "X"; profile_of "high" "Y"]).
  vm_compute. reflexivity.
Defined.

(** ** The size of a task *)

Lemma fill_relaxed_length (profiles_per_task : Z) (remaining task : list Profile) :
  Z.of_nat (length (fill_relaxed profiles_per_task remaining task))
  = if decide (profiles_per_task ≤ Z.of_nat (length task))%Z
    then Z.of_nat (length task)
    else Z.min profiles_per_task (Z.of_nat (length task + length remaining)).
Proof.
  revert task. induction remaining as [|cand rest IH]; intros task.
  - cbn [fill_relaxed length]. rewrite Nat.add_0_r.
    destruct (decide (profiles_per_task ≤ Z.of_nat (length task))%Z); lia.
  - cbn [fill_relaxed].
    destruct (decide (profiles_per_task ≤ Z.of_nat (length task))%Z); [done|].
    rewrite IH, length_app. cbn [length].
    destruct (decide (profiles_per_task ≤ Z.of_nat (length task + 1))%Z); lia.
Qed.

Lemma filter_complement_length {A} (P : A → Prop) `{∀ x, Decision (P x)}
    (l : list A) :
  length (filter P l) + length (filter (λ x, ¬ P x) l) = length l.
Proof. rewrite <- length_app. apply Permutation_length, filter_app_complement. Qed.

Lemma remaining_length (profiles task : list Profile) :
  NoDup profiles → NoDup task → task ⊆ profiles →
  length (filter (λ p, p ∉ task) profiles) = length profiles - length task.
Proof.
  intros Hp Ht Hsub.
  pose proof (filter_complement_length (λ p, p ∈ task) profiles) as Hlen.
  assert (filter (λ p, p ∈ task) profiles ≡ₚ task) as Hperm.
  { apply NoDup_Permutation; [by apply NoDup_filter | done |].
    intros x. rewrite list_elem_of_filter. split; [by intros [? _]|].
    intros Hx. split; [done | by apply Hsub]. }
  rewrite (Permutation_length Hperm) in Hlen. lia.
Qed.

Section task_size.
Context {G : RandomGen} {HG : RandomGenLaws G}.

Lemma one_task_size (profiles available : list Profile)
    (profiles_per_task min_diff : Z) :
  NoDup profiles →
  (profiles_per_task ≤ Z.of_nat (length profiles))%Z →
  available ⊆ profiles →
  post (one_task profiles profiles_per_task min_diff available)
    (λ r, Z.of_nat (length r.1) = Z.max 1 profiles_per_task ∧ r.2 ⊆ profiles).
Proof.
  intros Hnd Hppt Hav. unfold one_task.
  eapply (post_bind _ _ (λ av, av ⊆ profiles)).
  { destruct (decide (available = [])).
    - eapply post_weaken; [apply post_shuffle|].
      intros av Hp x Hx. by rewrite Hp in Hx.
    - by apply post_ret. }
  intros av Hav'. eapply post_bind; [apply post_randint|]. intros i _.
  eapply (post_bind _ _ (λ r, r.1 ∈ profiles ∧ r.2 ⊆ profiles)).
  { apply post_lift. intros [x l'] Hpop. apply pop_spec in Hpop as [Hx Hsub].
    split; [by apply Hav'|]. intros y Hy. apply Hav'. by eapply elem_of_sublist. }
  intros [first av2] [Hfirst Hav2]. cbn [fst snd] in *.
  eapply post_bind; [apply post_shuffle|]. intros c1 Hc1. cbn beta in Hc1.
  eapply (post_bind _ _ (λ task,
            well_formed_task profiles task
            ∧ (1 ≤ Z.of_nat (length task) ≤ Z.max profiles_per_task 1)%Z)).
  { apply post_lift. intros task Hfill. split.
    - apply fill_min_diff_added in Hfill as (added & -> & Hsub).
      rewrite <- (app_nil_r ([first] ++ added)).
      eapply (task_shape_well_formed _ c1); [done..|]. apply submseteq_nil_l.
    - apply fill_min_diff_length in Hfill. cbn in Hfill. lia. }
  intros task [(_ & Hsub & Hndt) Hlen].
  eapply (post_bind _ _ (λ task, Z.of_nat (length task) = Z.max 1 profiles_per_task)).
  - destruct (decide (Z.of_nat (length task) < profiles_per_task)%Z) as [Hlt|Hge].
    + eapply post_bind; [apply post_shuffle|]. intros remaining Hr. cbn beta in Hr.
      apply post_ret. rewrite fill_relaxed_length.
      rewrite decide_False by lia.
      rewrite (Permutation_length Hr), remaining_length;
        [|done|by apply Hndt|intros x Hx; by eapply elem_of_submseteq].
      apply submseteq_length in Hsub. lia.
    + apply post_ret. lia.
  - intros task' Hlen'. by apply post_ret.
Qed.

Lemma tasks_loop_size (n : nat) (profiles available : list Profile)
    (profiles_per_task min_diff : Z) (choice_sets : list (list Profile)) :
  NoDup profiles →
  (profiles_per_task ≤ Z.of_nat (length profiles))%Z →
  available ⊆ profiles →
  Forall (λ task, Z.of_nat (length task) = Z.max 1 profiles_per_task) choice_sets →
  post (tasks_loop n profiles profiles_per_task min_diff available choice_sets)
    (Forall (λ task, Z.of_nat (length task) = Z.max 1 profiles_per_task)).
Proof.
  intros Hnd Hppt. revert available choice_sets.
  induction n as [|n IH]; intros available choice_sets Hav Hsize.
  - by apply post_ret.
  - cbn [tasks_loop]. eapply post_bind; [by apply one_task_size|].
    intros [task av] [Htask Hav']. cbn [fst snd] in *.
    apply IH; [done|]. apply Forall_app. split; [done|]. by apply Forall_singleton.
Qed.

Lemma generate_one_version_size (profiles : list Profile) (attributes : Attributes)
    (n_tasks profiles_per_task min_diff iterations : Z) :
  NoDup profiles →
  (profiles_per_task ≤ Z.of_nat (length profiles))%Z →
  post (_generate_one_version profiles attributes n_tasks profiles_per_task
          min_diff iterations)
    (λ r, ∀ sets, r.1 = Some sets →
          Forall (λ task, Z.of_nat (length task) = Z.max 1 profiles_per_task) sets).
Proof.
  intros Hnd Hppt. unfold _generate_one_version.
  apply (iterations_loop_post _ _ _ _ _ _ _ _
           (Forall (λ task, Z.of_nat (length task) = Z.max 1 profiles_per_task)));
    [|done].
  unfold attempt. eapply post_bind; [apply post_shuffle|]. intros av Hav.
  eapply post_bind.
  { apply tasks_loop_size; [done..| |constructor].
    intros x Hx. by rewrite Hav in Hx. }
  intros sets Hsets. eapply (post_bind _ _ (λ _, True)); [by apply post_lift|].
  intros score _. by apply post_ret.
Qed.

(** X4.  When the profiles are pairwise distinct and [profiles_per_task]
    does not exceed their number, the search returns, if anything,
    [n_tasks] tasks of exactly [profiles_per_task] profiles each; a task is
    never empty, so that it has one profile when [profiles_per_task] is 0
    or negative. *)
Theorem generate_one_version_task_sizes (profiles : list Profile)
    (attributes : Attributes) (n_tasks profiles_per_task min_diff iterations : Z) :
  NoDup profiles →
  (profiles_per_task ≤ Z.of_nat (length profiles))%Z →
  post (_generate_one_version profiles attributes n_tasks profiles_per_task
          min_diff iterations)
    (λ r, ∀ sets, r.1 = Some sets →
          length sets = Z.to_nat n_tasks
          ∧ ∀ task, task ∈ sets →
              Z.of_nat (length task) = Z.max 1 profiles_per_task).
Proof.
  intros Hnd Hppt s r s' Hrun sets Hsets. split.
  - by destruct (generate_one_version_post _ _ _ _ _ _ _ _ _ Hrun sets Hsets).
  - pose proof (generate_one_version_size _ attributes n_tasks _ min_diff iterations
                  Hnd Hppt _ _ _ Hrun sets Hsets) as Hsize.
    by rewrite Forall_forall in Hsize.
Qed.
End task_size.

Lemma generate_one_version_task_sizes_witness :
  post (_generate_one_version (G := lcg) profiles_price_brand attrs_price_brand
          2 3 2 5)
    (λ r, ∀ sets, r.1 = Some sets →
          length sets = Z.to_nat 2
          ∧ ∀ task, task ∈ sets → Z.of_nat (length task) = Z.max 1 3).
Proof.
  apply (generate_one_version_task_sizes (G := lcg) profiles_price_brand
           attrs_price_brand 2 3 2 5).
  - apply (bool_decide_unpack _). vm_compute. exact I.
  - vm_compute. discriminate.
Defined.

(** ** The balance score does not see the order *)

Lemma count_slots_perm (attr_name : string) (l l' : list Profile) :
  l ≡ₚ l' →
  ∀ st, foldlM (count_slot attr_name) st l = foldlM (count_slot attr_name) st l'.
Proof.
  induction 1 as [|p l l' _ IH|p q l|l l' l'' _ IH1 _ IH2]; intros [counts total].
  - done.
  - cbn [foldlM]. destruct (count_slot attr_name (counts, total) p); [apply IH|done].
  - cbn [foldlM]. unfold count_slot.
    destruct (p !! attr_name) as [lp|], (q !! attr_name) as [lq|];
      cbn [mbind result_bind fst snd]; try done.
    f_equal. f_equal.
    destruct (decide (lp = lq)) as [->|Hne].
    + by rewrite !lookup_insert_eq.
    + rewrite !lookup_insert_ne by done. by apply insert_insert_ne.
  - by rewrite IH1, IH2.
Qed.

Lemma count_levels_perm (attr_name : string) (choice_sets choice_sets' : list (list Profile)) :
  slots choice_sets' ≡ₚ slots choice_sets →
  count_levels attr_name choice_sets' = count_levels attr_name choice_sets.
Proof.
  intros Hperm. unfold count_levels. rewrite !foldlM_concat.
  by apply count_slots_perm.
Qed.

Lemma level_balance_score_perm (choice_sets choice_sets' : list (list Profile))
    (attributes : Attributes) :
  slots choice_sets' ≡ₚ slots choice_sets →
  _level_balance_score choice_sets' attributes
  = _level_balance_score choice_sets attributes.
Proof.
  intros Hperm. unfold _level_balance_score. generalize 0%Q.
  induction attributes as [|a attributes IH]; intros acc; [done|].
  cbn [foldlM]. rewrite (count_levels_perm _ _ _ Hperm).
  destruct (count_levels a.1 choice_sets) as [[counts total]|]; [|done].
  cbn [mbind result_bind]. apply IH.
Qed.

Lemma slots_perm_tasks (sets sets' : list (list Profile)) :
  Forall2 (λ t' t, t' ≡ₚ t) sets' sets → slots sets' ≡ₚ slots sets.
Proof.
  unfold slots. induction 1 as [|t' t sets' sets Ht _ IH]; [done|].
  cbn [concat]. by rewrite Ht, IH.
Qed.

Lemma slots_reverse (choice_sets : list (list Profile)) :
  slots (reverse choice_sets) ≡ₚ slots choice_sets.
Proof.
  unfold slots. induction choice_sets as [|t rest IH]; [done|].
  rewrite reverse_cons, concat_app, IH. cbn [concat].
  rewrite app_nil_r. apply Permutation_app_comm.
Qed.

(** X5.  The balance score only depends on which profiles fill the slots of
    a design, not on their order: two designs whose slots are permutations
    of each other (tasks reordered, profiles reordered within or moved
    between tasks) get the same score, or raise the same error when a
    profile lacks an attribute. *)
Theorem level_balance_score_order (choice_sets choice_sets' : list (list Profile))
    (attributes : Attributes) :
  slots choice_sets' ≡ₚ slots choice_sets →
  _level_balance_score choice_sets' attributes
  = _level_balance_score choice_sets attributes.
Proof. apply level_balance_score_perm. Qed.

Lemma level_balance_score_order_witness :
  _level_balance_score (reverse uniform_design) attrs_price_brand
  = _level_balance_score uniform_design attrs_price_brand.
Proof.
  apply (level_balance_score_order uniform_design (reverse uniform_design)
           attrs_price_brand).
  apply slots_reverse.
Defined.

(** ** Distinct profiles *)

Lemma NoDup_bind_inv {A B} (f : A → list B) (l : list A) :
  NoDup (l ≫= f) → (∀ x, x ∈ l → f x ≠ []) → NoDup l.
Proof.
  induction l as [|x l IH]; intros Hnd Hne; [constructor|].
  rewrite bind_cons in Hnd. apply NoDup_app in Hnd as (_ & Hdisj & Hrest).
  constructor.
  - intros Hx. destruct (f x) as [|y k] eqn:Hfx.
    + by apply (Hne x); [left|].
    + apply (Hdisj y); [left|]. apply list_elem_of_bind. exists x.
      split; [|done]. rewrite Hfx. left.
  - apply IH; [done|]. intros y Hy. apply Hne. by right.
Qed.

Lemma nested_iteration_NoDup (attributes : Attributes) (built : Profile) :
  NoDup attributes.*1 → (∀ a, a ∈ attributes → NoDup a.2) →
  NoDup (nested_iteration attributes built).
Proof.
  revert built. induction attributes as [|[n levels] rest IH]; intros built Hnd Hlev.
  - apply NoDup_singleton.
  - rewrite fmap_cons in Hnd. cbn [fst] in Hnd. apply NoDup_cons in Hnd as [Hn Hnd].
    cbn [nested_iteration]. apply NoDup_bind.
    + intros l1 l2 p _ _ H1 H2.
      destruct (nested_iteration_sound _ _ _ Hnd H1) as [_ Ho1].
      destruct (nested_iteration_sound _ _ _ Hnd H2) as [_ Ho2].
      specialize (Ho1 n Hn). specialize (Ho2 n Hn).
      rewrite lookup_insert_eq in Ho1, Ho2. congruence.
    + intros l _. apply IH; [done|]. intros a Ha. apply Hlev. by right.
    + apply (Hlev (n, levels)). left.
Qed.

Lemma nested_iteration_nil (attributes : Attributes) (built built' : Profile) :
  nested_iteration attributes built = [] → nested_iteration attributes built' = [].
Proof.
  intros H. apply length_zero_iff_nil. apply (f_equal length) in H.
  by rewrite nested_iteration_length in *.
Qed.

Lemma nested_iteration_NoDup_inv (attributes : Attributes) (built : Profile) :
  NoDup (nested_iteration attributes built) →
  nested_iteration attributes built ≠ [] →
  ∀ a, a ∈ attributes → NoDup a.2.
Proof.
  revert built. induction attributes as [|[n levels] rest IH]; intros built Hnd Hne a Ha.
  { by apply elem_of_nil in Ha. }
  cbn [nested_iteration] in Hnd, Hne.
  assert (∀ l, l ∈ levels → nested_iteration rest (<[n:=l]> built) ≠ []) as Hrest.
  { intros l _ Hnil. apply Hne.
    clear -Hnil. induction levels as [|l' levels IHl]; [done|].
    rewrite bind_cons, IHl, app_nil_r. by eapply nested_iteration_nil. }
  apply elem_of_cons in Ha as [->|Ha].
  - cbn [snd]. by eapply NoDup_bind_inv.
  - destruct levels as [|l levels]; [done|].
    rewrite bind_cons in Hnd. apply NoDup_app in Hnd as (Hl & _ & _).
    eapply IH; [exact Hl | apply Hrest; left | done].
Qed.

(** X6.  The enumerated profiles are pairwise distinct exactly when no
    attribute lists a level twice, or nothing is enumerated at all (some
    attribute has no level). *)
Theorem all_profiles_distinct (attributes : Attributes) (profiles : list Profile) :
  NoDup attributes.*1 →
  _all_profiles attributes = Ok profiles →
  (NoDup profiles ↔ profiles = [] ∨ ∀ a, a ∈ attributes → NoDup a.2).
Proof.
  intros Hnd Hp. rewrite all_profiles_nested in Hp by done. injection Hp as <-.
  split.
  - intros Hnodup. destruct (nested_iteration attributes ∅) eqn:E; [by left|].
    right. rewrite <- E in Hnodup. eapply nested_iteration_NoDup_inv; [done|].
    by rewrite E.
  - intros [->|Hlev]; [constructor | by apply nested_iteration_NoDup].
Qed.

Lemma all_profiles_distinct_witness :
  NoDup profiles_price_brand
  ↔ profiles_price_brand = [] ∨ ∀ a, a ∈ attrs_price_brand → NoDup a.2.
Proof.
  apply (all_profiles_distinct attrs_price_brand profiles_price_brand).
  - apply (bool_decide_unpack _). vm_compute. exact I.
  - vm_compute. reflexivity.
Defined.

(** ** The design written *)

Section design_record.
Context {G : RandomGen}.

Lemma attempt_score (profiles : list Profile) (attributes : Attributes)
    (n_tasks profiles_per_task min_diff : Z) :
  post (attempt profiles attributes n_tasks profiles_per_task min_diff)
    (λ r, _level_balance_score r.1 attributes = Ok r.2).
Proof.
  unfold attempt. eapply (post_bind _ _ (λ _, True)); [done|]. intros av _.
  eapply (post_bind _ _ (λ _, True)); [done|]. intros sets _.
  eapply post_bind; [apply post_lift; intros score Hscore; exact Hscore|].
  intros score Hscore. by apply post_ret.
Qed.

Lemma iterations_loop_pair (n : nat) (profiles : list Profile)
    (attributes : Attributes) (n_tasks profiles_per_task min_diff : Z)
    (best_sets : option (list (list Profile))) (best_score : option Q)
    (P : list (list Profile) → Q → Prop) :
  post (attempt profiles attributes n_tasks profiles_per_task min_diff)
    (λ r, P r.1 r.2) →
  (∀ sets score, best_sets = Some sets → best_score = Some score → P sets score) →
  post (iterations_loop n profiles attributes n_tasks profiles_per_task
          min_diff best_sets best_score)
    (λ r, ∀ sets score, r.1 = Some sets → r.2 = Some score → P sets score).
Proof.
  intros Hattempt. revert best_sets best_score.
  induction n as [|n IH]; intros best_sets best_score Hbest.
  - by apply post_ret.
  - cbn [iterations_loop]. eapply post_bind; [exact Hattempt|].
    intros [sets score] Hsets. cbn [fst snd] in Hsets.
    destruct (score_lt score best_score).
    + apply IH. by intros ? ? [= <-] [= <-].
    + by apply IH.
Qed.

Lemma post_and {A} (m : M A) (P Q : A → Prop) :
  post m P → post m Q → post m (λ a, P a ∧ Q a).
Proof. intros HP HQ s a s' Hrun. split; [by eapply HP | by eapply HQ]. Qed.

Lemma generate_design_record (Pv : list Profile → Z → Version → Prop)
    (spec : DesignSpec) :
  (∀ profiles v,
     _all_profiles (spec_attributes spec) = Ok profiles →
     (default 3%Z (spec_profiles_per_task spec) ≤ Z.of_nat (length profiles))%Z →
     post (one_version profiles (spec_attributes spec)
             (default 8%Z (spec_tasks_per_version spec))
             (default 3%Z (spec_profiles_per_task spec))
             (clamp_min_diff (default 2%Z (spec_min_attribute_diff spec))
                (Z.of_nat (length (spec_attributes spec))))
             (default 42%Z (spec_seed spec)) v)
       (Pv profiles v)) →
  post (generate_design spec)
    (λ d, ∃ profiles,
            _all_profiles (spec_attributes spec) = Ok profiles
            ∧ (default 3%Z (spec_profiles_per_task spec)
               ≤ Z.of_nat (length profiles))%Z
            ∧ out_attributes d = spec_attributes spec
            ∧ out_n_tasks d = default 8%Z (spec_tasks_per_version spec)
            ∧ out_profiles_per_task d = default 3%Z (spec_profiles_per_task spec)
            ∧ out_n_versions d = default 4%Z (spec_n_versions spec)
            ∧ out_include_none d = default false (spec_include_none spec)
            ∧ out_total_profiles d = Z.of_nat (length profiles)
            ∧ length (out_versions d)
              = Z.to_nat (default 4%Z (spec_n_versions spec))
            ∧ ∀ i ver, out_versions d !! i = Some ver →
                Pv profiles (Z.of_nat i) ver).
Proof.
  intros Hone. unfold generate_design.
  eapply (post_bind _ _ (λ _, True)); [done|]. intros _ _.
  eapply (post_bind _ _ (λ profiles, _all_profiles (spec_attributes spec) = Ok profiles)).
  { by apply post_lift. }
  intros profiles Hprofiles.
  destruct (decide (Z.of_nat (length profiles)
                    < default 3 (spec_profiles_per_task spec))%Z) as [|Hge].
  { by apply post_lift. }
  eapply post_bind.
  { apply (versions_loop_post (Pv profiles)).
    intros v. apply Hone; [done|lia]. }
  intros vs (new & -> & Hlen & Hnew). apply post_ret.
  exists profiles. cbn. repeat (split; [done || lia|]).
  intros i ver Hi. by apply Hnew in Hi.
Qed.

Context {HG : RandomGenLaws G}.

Lemma one_version_post (P : list (list Profile) → Q → Prop)
    (profiles : list Profile) (attributes : Attributes)
    (n_tasks profiles_per_task min_diff base_seed v : Z) :
  post (_generate_one_version profiles attributes n_tasks profiles_per_task
          min_diff default_iterations)
    (λ r, ∀ sets score, r.1 = Some sets → r.2 = Some score → P sets score) →
  post (one_version profiles attributes n_tasks profiles_per_task min_diff
          base_seed v)
    (λ ver, version ver = (v + 1)%Z
            ∧ ∃ sets score, P sets score
                ∧ Forall2 (λ t' t, t' ≡ₚ t) (choice_sets ver) sets
                ∧ balance_score ver = round4 score).
Proof.
  intros Hsearch. unfold one_version.
  eapply (post_bind _ _ (λ _, True)); [done|]. intros _ _.
  eapply post_bind; [exact Hsearch|].
  intros [[sets|] [score|]] Hsets; try (by apply post_lift).
  specialize (Hsets sets score eq_refl eq_refl).
  eapply post_bind; [apply shuffle_each_post|]. intros sets' Hperm.
  apply post_ret. cbn [version choice_sets balance_score]. split; [done|].
  by exists sets, score.
Qed.

(** X7.  The design that generate-design writes repeats the specification
    with its defaults filled in, counts the enumerated profiles (the
    product of the level counts, never fewer than [profiles_per_task]),
    and holds [n_versions] versions, numbered from 1 in order, of
    [n_tasks] choice tasks each. *)
Theorem generate_design_shape (spec : DesignSpec) :
  NoDup (spec_attributes spec).*1 →
  post (generate_design spec)
    (λ d, out_attributes d = spec_attributes spec
          ∧ out_n_tasks d = default 8%Z (spec_tasks_per_version spec)
          ∧ out_profiles_per_task d = default 3%Z (spec_profiles_per_task spec)
          ∧ out_n_versions d = default 4%Z (spec_n_versions spec)
          ∧ out_include_none d = default false (spec_include_none spec)
          ∧ out_total_profiles d
            = Z.of_nat (level_count_product (spec_attributes spec))
          ∧ (out_profiles_per_task d ≤ out_total_profiles d)%Z
          ∧ length (out_versions d) = Z.to_nat (out_n_versions d)
          ∧ ∀ i ver, out_versions d !! i = Some ver →
              version ver = (Z.of_nat i + 1)%Z
              ∧ length (choice_sets ver) = Z.to_nat (out_n_tasks d)).
Proof.
  intros Hnd. eapply post_weaken.
  { apply (generate_design_record
             (λ _ v ver, version ver = (v + 1)%Z
                         ∧ length (choice_sets ver)
                           = Z.to_nat (default 8%Z (spec_tasks_per_version spec)))).
    intros profiles v _ _. eapply post_weaken.
    - apply (one_version_post
               (λ sets _, length sets
                          = Z.to_nat (default 8%Z (spec_tasks_per_version spec)))).
      eapply post_weaken; [apply generate_one_version_post|].
      intros r Hr sets score Hsets _. by destruct (Hr sets Hsets).
    - intros ver (Hv & sets & score & Hlen & Hperm & _). split; [done|].
      rewrite <- Hlen. exact (Forall2_length _ _ _ Hperm). }
  intros d (profiles & Hp & Hge & Ha & Hn & Hppt & Hnv & Hin & Htot & Hlen & Hvers).
  destruct (all_profiles_spec _ Hnd) as (profiles' & Hp' & Hcount & _).
  rewrite Hp in Hp'. injection Hp' as <-.
  rewrite Hcount in Hge.
  rewrite Ha, Hn, Hppt, Hnv, Hin, Htot, Hcount.
  repeat (split; [done|]). done.
Qed.

(** X8.  The balance score recorded with a version is the score of the
    choice sets written with it, rounded to four decimals: the shuffle of
    the presentation order, done after scoring, does not change it. *)
Theorem recorded_balance_score (spec : DesignSpec) :
  post (generate_design spec)
    (λ d, ∀ ver, ver ∈ out_versions d →
       ∃ score,
         _level_balance_score (choice_sets ver) (out_attributes d) = Ok score
         ∧ balance_score ver = round4 score).
Proof.
  eapply post_weaken.
  { apply (generate_design_record
             (λ _ _ ver, ∃ score,
                _level_balance_score (choice_sets ver) (spec_attributes spec)
                = Ok score
                ∧ balance_score ver = round4 score)).
    intros profiles v _ _. eapply post_weaken.
    - apply (one_version_post
               (λ sets score,
                  _level_balance_score sets (spec_attributes spec) = Ok score)).
      unfold _generate_one_version. apply iterations_loop_pair; [|done].
      apply attempt_score.
    - intros ver (_ & sets & score & Hscore & Hperm & Hround).
      exists score. split; [|done]. rewrite <- Hscore.
      by apply level_balance_score_perm, slots_perm_tasks. }
  intros d (profiles & _ & _ & Ha & _ & _ & _ & _ & _ & _ & Hvers) ver Hver.
  apply list_elem_of_lookup in Hver as [i Hi]. rewrite Ha. by eapply Hvers.
Qed.

(** X9.  When the specification names no level twice within an attribute,
    every choice task of the design shows exactly [profiles_per_task]
    profiles (one, when that number is below 1), no two of them equal,
    and each gives every attribute one of its levels and has no other
    key. *)
Theorem generate_design_tasks (spec : DesignSpec) :
  NoDup (spec_attributes spec).*1 →
  (∀ a, a ∈ spec_attributes spec → NoDup a.2) →
  post (generate_design spec)
    (λ d, ∀ ver task, ver ∈ out_versions d → task ∈ choice_sets ver →
       NoDup task
       ∧ Z.of_nat (length task) = Z.max 1 (out_profiles_per_task d)
       ∧ ∀ p : Profile, p ∈ task →
           (∀ k, is_Some (p !! k) → k ∈ (spec_attributes spec).*1)
           ∧ ∀ n levels, (n, levels) ∈ spec_attributes spec →
               ∃ l, l ∈ levels ∧ p !! n = Some l).
Proof.
  intros Hnd Hlev. eapply post_weaken.
  { apply (generate_design_record
             (λ profiles _ ver,
                Forall (λ task,
                  well_formed_task profiles task
                  ∧ Z.of_nat (length task)
                    = Z.max 1 (default 3%Z (spec_profiles_per_task spec)))
                  (choice_sets ver))).
    intros profiles v Hp Hge.
    assert (NoDup profiles) as Hndp.
    { rewrite all_profiles_nested in Hp by done. injection Hp as <-.
      by apply nested_iteration_NoDup. }
    eapply post_weaken.
    - apply (one_version_post
               (λ sets _,
                  Forall (well_formed_task profiles) sets
                  ∧ Forall (λ task, Z.of_nat (length task)
                              = Z.max 1 (default 3%Z (spec_profiles_per_task spec)))
                      sets)).
      eapply post_weaken.
      + apply post_and; [apply generate_one_version_post|].
        by apply generate_one_version_size.
      + intros r [Hwf Hsize] sets score Hsets _.
        destruct (Hwf sets Hsets) as [Hwf' _]. split; [done|]. by apply Hsize.
    - intros ver (_ & sets & score & [Hwf Hsize] & Hperm & _).
      clear -Hwf Hsize Hperm.
      induction Hperm as [|t' t sets' sets Ht _ IH]; [constructor|].
      apply Forall_cons in Hwf as [Hwf1 Hwf]. apply Forall_cons in Hsize as [Hs1 Hsize].
      constructor; [|by apply IH]. split.
      + by eapply well_formed_task_perm.
      + by rewrite (Permutation_length Ht). }
  intros d (profiles & Hp & _ & _ & _ & Hppt & _ & _ & _ & _ & Hvers) ver task Hver Htask.
  apply list_elem_of_lookup in Hver as [i Hi]. apply Hvers in Hi.
  rewrite Forall_forall in Hi. destruct (Hi task Htask) as [(_ & Hsub & Hndt) Hsize].
  destruct (all_profiles_spec _ Hnd) as (profiles' & Hp' & _ & Hmem).
  rewrite Hp in Hp'. injection Hp' as <-.
  assert (NoDup profiles) as Hndp.
  { rewrite all_profiles_nested in Hp by done. injection Hp as <-.
    by apply nested_iteration_NoDup. }
  split; [by apply Hndt|]. split; [by rewrite Hppt|].
  intros p Hpt. apply Hmem. by eapply elem_of_submseteq.
Qed.
End design_record.

Lemma generate_design_shape_witness :
  post (generate_design (G := lcg) spec_two_tasks)
    (λ d, out_attributes d = spec_attributes spec_two_tasks
          ∧ out_n_tasks d = default 8%Z (spec_tasks_per_version spec_two_tasks)
          ∧ out_profiles_per_task d
            = default 3%Z (spec_profiles_per_task spec_two_tasks)
          ∧ out_n_versions d = default 4%Z (spec_n_versions spec_two_tasks)
          ∧ out_include_none d = default false (spec_include_none spec_two_tasks)
          ∧ out_total_profiles d
            = Z.of_nat (level_count_product (spec_attributes spec_two_tasks))
          ∧ (out_profiles_per_task d ≤ out_total_profiles d)%Z
          ∧ length (out_versions d) = Z.to_nat (out_n_versions d)
          ∧ ∀ i ver, out_versions d !! i = Some ver →
              version ver = (Z.of_nat i + 1)%Z
              ∧ length (choice_sets ver) = Z.to_nat (out_n_tasks d)).
Proof.
  apply (generate_design_shape (G := lcg) (HG := lcg_laws) spec_two_tasks).
  apply (bool_decide_unpack _). vm_compute. exact I.
Defined.

Lemma generate_design_tasks_witness :
  post (generate_design (G := lcg) spec_two_tasks)
    (λ d, ∀ ver task, ver ∈ out_versions d → task ∈ choice_sets ver →
       NoDup task
       ∧ Z.of_nat (length task) = Z.max 1 (out_profiles_per_task d)
       ∧ ∀ p : Profile, p ∈ task →
           (∀ k, is_Some (p !! k) → k ∈ (spec_attributes spec_two_tasks).*1)
           ∧ ∀ n levels, (n, levels) ∈ spec_attributes spec_two_tasks →
               ∃ l, l ∈ levels ∧ p !! n = Some l).
Proof.
  apply (generate_design_tasks (G := lcg) (HG := lcg_laws) spec_two_tasks).
  - apply (bool_decide_unpack _). vm_compute. exact I.
  - apply Forall_forall. apply (bool_decide_unpack _). vm_compute. exact I.
Defined.

Lemma recorded_balance_score_witness :
  post (generate_design (G := lcg) spec_two_tasks)
    (λ d, ∀ ver, ver ∈ out_versions d →
       ∃ score,
         _level_balance_score (choice_sets ver) (out_attributes d) = Ok score
         ∧ balance_score ver = round4 score).
Proof. exact (recorded_balance_score (G := lcg) (HG := lcg_laws) spec_two_tasks). Defined.

(** ** The table of utilities *)

Lemma Rmap_sum_fmap_shift (d : gmap string R) (m : R) :
  Rmap_sum ((λ u, u - m)%R <$> d) = (Rmap_sum d - INR (size d) * m)%R.
Proof.
  induction d as [|k x d Hk IH] using map_ind.
  - rewrite fmap_empty, Rmap_sum_empty, map_size_empty. cbn. lra.
  - rewrite fmap_insert, !Rmap_sum_insert, IH; [|done|by rewrite lookup_fmap, Hk].
    rewrite map_size_insert_None by done. rewrite S_INR. lra.
Qed.

Lemma Rmap_sum_const (d : gmap string R) (v : R) :
  (∀ k x, d !! k = Some x → x = v) → Rmap_sum d = (INR (size d) * v)%R.
Proof.
  induction d as [|k x d Hk IH] using map_ind; intros Hd.
  - rewrite Rmap_sum_empty, map_size_empty. cbn. lra.
  - rewrite Rmap_sum_insert, map_size_insert_None, S_INR by done.
    rewrite IH.
    + rewrite (Hd k x) by apply lookup_insert_eq. lra.
    + intros k' x' Hk'. apply (Hd k'). rewrite lookup_insert_ne; [done|].
      intros ->. congruence.
Qed.

Lemma size_INR_nonzero (d : gmap string R) : d ≠ ∅ → INR (size d) ≠ 0%R.
Proof. intros Hne. apply not_0_INR. by rewrite map_size_empty_iff. Qed.

Lemma center_sum (raw : gmap string R) : Rmap_sum (center raw) = 0%R.
Proof.
  unfold center, mean_util. destruct (decide (raw = ∅)) as [->|Hne].
  - by rewrite fmap_empty, Rmap_sum_empty.
  - rewrite Rmap_sum_fmap_shift. field. by apply size_INR_nonzero.
Qed.

Lemma center_lookup (raw : gmap string R) (level : string) :
  center raw !! level = (λ u, u - mean_util raw)%R <$> raw !! level.
Proof. unfold center. by rewrite lookup_fmap. Qed.

Lemma mean_util_const (raw : gmap string R) (v : R) :
  raw ≠ ∅ → (∀ k x, raw !! k = Some x → x = v) → mean_util raw = v.
Proof.
  intros Hne Hconst. unfold mean_util. rewrite decide_False by done.
  rewrite (Rmap_sum_const raw v) by done. field. by apply size_INR_nonzero.
Qed.

Lemma raw_utils_level (chosen : Counter) (total : nat) (levels : list string)
    (level : string) :
  raw_utils chosen total levels !! level
  = if decide (level ∈ levels)
    then Some (level_utility total (default 0 (chosen !! level))
                 (1 / INR (length levels)))
    else None.
Proof.
  unfold raw_utils.
  rewrite (raw_utils_fold_lookup
             (λ l, level_utility total (default 0 (chosen !! l))
                     (1 / INR (length levels)))).
  by destruct (decide (level ∈ levels)).
Qed.

Lemma raw_utils_nonempty (chosen : Counter) (total : nat) (levels : list string) :
  levels ≠ [] → raw_utils chosen total levels ≠ ∅.
Proof.
  destruct levels as [|l levels]; [done|]. intros _ Hempty.
  pose proof (raw_utils_level chosen total (l :: levels) l) as Hl.
  rewrite decide_True in Hl by left. by rewrite Hempty, lookup_empty in Hl.
Qed.

Lemma raw_utils_ext (chosen chosen' : Counter) (total : nat) (levels : list string) :
  (∀ level, default 0 (chosen !! level) = default 0 (chosen' !! level)) →
  raw_utils chosen total levels = raw_utils chosen' total levels.
Proof.
  intros Hext. apply map_eq. intros level. rewrite !raw_utils_level.
  by rewrite Hext.
Qed.

Lemma compute_utilities_fold_other (records : list ChoiceRecord)
    (lc : gmap string Counter) (attributes : Attributes)
    (utilities utilities' : UtilityTable) (attr_name : string) :
  foldlM (λ utilities a,
            if decide (length a.2 = 0) then Err ZeroDivisionError
            else
              chosen ← match lc !! a.1 with
                       | Some c => Ok c
                       | None => Err KeyError
                       end;
              Ok (<[a.1 := center (raw_utils chosen (total_choices records) a.2)]>
                    utilities))
         utilities attributes = Ok utilities' →
  attr_name ∉ attributes.*1 →
  utilities' !! attr_name = utilities !! attr_name.
Proof.
  revert utilities. induction attributes as [|a attributes IH];
    intros utilities Hrun Hnot.
  - by injection Hrun as <-.
  - cbn [foldlM] in Hrun. rewrite fmap_cons in Hnot.
    apply not_elem_of_cons in Hnot as [Hne Hnot].
    destruct (decide (length a.2 = 0)); [done|].
    destruct (lc !! a.1) as [c|]; [|done]. cbn [mbind result_bind] in Hrun.
    rewrite (IH _ Hrun Hnot). by rewrite lookup_insert_ne.
Qed.

(** The table in terms of the counts of the statements. *)
Lemma compute_utilities_table (records : list ChoiceRecord) (attributes : Attributes) :
  NoDup attributes.*1 →
  (∀ a, a ∈ attributes → a.2 ≠ []) →
  ∃ utilities,
    _compute_utilities records attributes = Ok utilities
    ∧ (∀ attr_name levels, (attr_name, levels) ∈ attributes →
         ∃ c : Counter,
           (∀ level, default 0 (c !! level) = chosen_count records attr_name level)
           ∧ utilities !! attr_name
             = Some (center (raw_utils c (total_choices records) levels)))
    ∧ (∀ attr_name, attr_name ∉ attributes.*1 → utilities !! attr_name = None).
Proof.
  intros Hnd Hlevels. unfold _compute_utilities.
  destruct (compute_utilities_fold records
              (level_chosen_counts records attributes) attributes ∅ Hnd)
    as (utilities & Hrun & Hlookup).
  { intros a Ha. split; [by apply Hlevels|].
    destruct (level_chosen_counts_lookup records attributes a.1 Hnd)
      as (c & -> & _); [|done].
    apply list_elem_of_fmap. by exists a. }
  exists utilities. split; [exact Hrun|]. split.
  - intros attr_name levels Hin.
    destruct (Hlookup attr_name levels Hin) as (c & Hc & Hu).
    destruct (level_chosen_counts_lookup records attributes attr_name Hnd)
      as (c' & Hc' & Hcount).
    { apply list_elem_of_fmap. by exists (attr_name, levels). }
    rewrite Hc in Hc'. injection Hc' as <-. by exists c.
  - intros attr_name Hnot.
    by rewrite (compute_utilities_fold_other _ _ _ _ _ _ Hrun Hnot).
Qed.

(** X10.  The utility table has one entry per attribute of the
    specification and no other; the entry of an attribute has one utility
    per level and no other; and the utilities of an attribute sum to zero
    (in exact arithmetic). *)
Theorem compute_utilities_zero_centered (records : list ChoiceRecord)
    (attributes : Attributes) :
  NoDup attributes.*1 →
  (∀ a, a ∈ attributes → a.2 ≠ []) →
  ∃ utilities,
    _compute_utilities records attributes = Ok utilities
    ∧ (∀ attr_name, is_Some (utilities !! attr_name) ↔ attr_name ∈ attributes.*1)
    ∧ ∀ attr_name levels, (attr_name, levels) ∈ attributes →
        ∃ attr_utils,
          utilities !! attr_name = Some attr_utils
          ∧ (∀ level, is_Some (attr_utils !! level) ↔ level ∈ levels)
          ∧ Rmap_sum attr_utils = 0%R.
Proof.
  intros Hnd Hlevels.
  destruct (compute_utilities_table records attributes Hnd Hlevels)
    as (utilities & Hrun & Hin & Hout).
  exists utilities. split; [done|]. split.
  - intros attr_name. split.
    + intros Hsome. destruct (decide (attr_name ∈ attributes.*1)) as [|Hnot]; [done|].
      rewrite (Hout _ Hnot) in Hsome. by destruct Hsome.
    + intros ([n levels] & -> & Ha)%list_elem_of_fmap.
      destruct (Hin n levels Ha) as (c & _ & Hu). cbn [fst]. by rewrite Hu.
  - intros attr_name levels Ha. destruct (Hin attr_name levels Ha) as (c & _ & Hu).
    eexists. split; [exact Hu|]. split; [|apply center_sum].
    intros level. rewrite center_lookup, fmap_is_Some, raw_utils_level.
    destruct (decide (level ∈ levels)); split; try done.
Qed.

Lemma compute_utilities_zero_centered_witness :
  ∃ utilities,
    _compute_utilities records_red attrs_color = Ok utilities
    ∧ (∀ attr_name, is_Some (utilities !! attr_name) ↔ attr_name ∈ attrs_color.*1)
    ∧ ∀ attr_name levels, (attr_name, levels) ∈ attrs_color →
        ∃ attr_utils,
          utilities !! attr_name = Some attr_utils
          ∧ (∀ level, is_Some (attr_utils !! level) ↔ level ∈ levels)
          ∧ Rmap_sum attr_utils = 0%R.
Proof.
  apply (compute_utilities_zero_centered records_red attrs_color).
  - apply (bool_decide_unpack _). vm_compute. exact I.
  - intros a Ha. revert a Ha. apply Forall_forall.
    apply (bool_decide_unpack _). vm_compute. exact I.
Defined.

(** X11.  With floats idealised as reals: when the levels of an attribute
    were all chosen equally often, each of them gets utility 0; in
    particular every utility is 0 when no record carries a choice.  (The
    program's floats give 0 up to rounding in the first case, and exactly
    0 in the second.) *)
Theorem compute_utilities_equal_counts (records : list ChoiceRecord)
    (attributes : Attributes) :
  NoDup attributes.*1 →
  (∀ a, a ∈ attributes → a.2 ≠ []) →
  ∃ utilities,
    _compute_utilities records attributes = Ok utilities
    ∧ (∀ attr_name levels, (attr_name, levels) ∈ attributes →
         (∀ l l', l ∈ levels → l' ∈ levels →
            chosen_count records attr_name l = chosen_count records attr_name l') →
         ∃ attr_utils,
           utilities !! attr_name = Some attr_utils
           ∧ ∀ level, level ∈ levels → attr_utils !! level = Some 0%R)
    ∧ (total_choices records = 0 →
       ∀ attr_name attr_utils level,
         utilities !! attr_name = Some attr_utils →
         is_Some (attr_utils !! level) → attr_utils !! level = Some 0%R).
Proof.
  intros Hnd Hlevels.
  destruct (compute_utilities_table records attributes Hnd Hlevels)
    as (utilities & Hrun & Hin & Hout).
  assert (∀ attr_name levels, (attr_name, levels) ∈ attributes →
            (∀ l l', l ∈ levels → l' ∈ levels →
               chosen_count records attr_name l = chosen_count records attr_name l') →
            ∃ attr_utils,
              utilities !! attr_name = Some attr_utils
              ∧ (∀ level, is_Some (attr_utils !! level) → level ∈ levels)
              ∧ ∀ level, level ∈ levels → attr_utils !! level = Some 0%R) as Hequal.
  { intros attr_name levels Ha Heq. destruct (Hin attr_name levels Ha) as (c & Hc & Hu).
    eexists. split; [exact Hu|]. split.
    { intros level. rewrite center_lookup, fmap_is_Some, raw_utils_level.
      destruct (decide (level ∈ levels)); [done | by intros []]. }
    intros level Hl. rewrite center_lookup.
    assert (∀ k x, raw_utils c (total_choices records) levels !! k = Some x →
                   x = level_utility (total_choices records)
                         (chosen_count records attr_name level)
                         (1 / INR (length levels))) as Hconst.
    { intros k x. rewrite raw_utils_level. destruct (decide (k ∈ levels)); [|done].
      intros [= <-]. by rewrite Hc, (Heq k level). }
    pose proof (Hlevels _ Ha) as Hne. cbn [snd] in Hne.
    rewrite (mean_util_const _ _ (raw_utils_nonempty _ _ _ Hne) Hconst).
    rewrite raw_utils_level, decide_True by done. cbn. rewrite Hc. f_equal. lra. }
  exists utilities. split; [done|]. split.
  - intros attr_name levels Ha Heq.
    destruct (Hequal attr_name levels Ha Heq) as (t & Ht & _ & Hzero). by exists t.
  - intros Htotal attr_name attr_utils level Hu Hl.
    destruct (decide (attr_name ∈ attributes.*1)) as [Hattr|Hnot];
      [|by rewrite (Hout _ Hnot) in Hu].
    apply list_elem_of_fmap in Hattr as ([n levels] & -> & Ha). cbn [fst] in *.
    destruct (Hequal n levels Ha) as (t & Ht & Hdom & Hzero).
    { intros l l' _ _.
      pose proof (chosen_count_le_total records n l).
      pose proof (chosen_count_le_total records n l'). lia. }
    rewrite Hu in Ht. injection Ht as <-. apply Hzero. by apply Hdom.
Qed.

Lemma compute_utilities_equal_counts_witness :
  chosen_count records_balanced "price" "low" = 1
  ∧ chosen_count records_balanced "price" "high" = 1
  ∧ total_choices records_balanced = 2
  ∧ ∃ utilities attr_utils,
      _compute_utilities records_balanced attrs_price_brand = Ok utilities
      ∧ utilities !! "price" = Some attr_utils
      ∧ attr_utils !! "low" = Some 0%R
      ∧ attr_utils !! "high" = Some 0%R.
Proof.
  split; [vm_compute; reflexivity|]. split; [vm_compute; reflexivity|].
  split; [vm_compute; reflexivity|].
  destruct (compute_utilities_equal_counts records_balanced attrs_price_brand)
    as (utilities & Hrun & Hequal & _).
  - apply (bool_decide_unpack _). vm_compute. exact I.
  - intros a Ha. revert a Ha. apply Forall_forall.
    apply (bool_decide_unpack _). vm_compute. exact I.
  - destruct (Hequal "price" ["low"; "high"]) as (attr_utils & Hu & Hzero).
    + left.
    + intros l l' Hl Hl'.
      apply elem_of_cons in Hl as [->|Hl];
        [|apply elem_of_cons in Hl as [->|Hl]; [|by apply elem_of_nil in Hl]];
        (apply elem_of_cons in Hl' as [->|Hl'];
           [|apply elem_of_cons in Hl' as [->|Hl']; [|by apply elem_of_nil in Hl']]);
        vm_compute; reflexivity.
    + exists utilities, attr_utils. split; [exact Hrun|]. split; [exact Hu|].
      split; apply Hzero; [left | right; left].
Defined.

Lemma ln_quotient (x y : R) :
  (0 < x)%R → (0 < y)%R → ln (x / y) = (ln x - ln y)%R.
Proof.
  intros Hx Hy. unfold Rdiv. rewrite ln_mult, ln_Rinv; [lra|done..|].
  by apply Rinv_0_lt_compat.
Qed.

Lemma ln_monotone (x y : R) : (0 < x)%R → (x <= y)%R → (ln x <= ln y)%R.
Proof.
  intros Hx [Hlt| ->]; [|lra]. left. by apply ln_increasing.
Qed.

Lemma level_utility_chosen (total chosen : nat) (expected_share : R) :
  0 < chosen → (chosen ≤ total)%nat →
  level_utility total chosen expected_share
  = ln (INR chosen / INR total / expected_share).
Proof. intros H1 H2. unfold level_utility. rewrite decide_True; [done|lia]. Qed.

Lemma level_utility_never (total : nat) (expected_share : R) :
  level_utility total 0 expected_share = (-2)%R.
Proof. unfold level_utility. rewrite decide_False; [done|lia]. Qed.

(** X12.  Within an attribute the utilities of two levels that were both
    chosen differ by the logarithm of the ratio of their counts, whatever
    the number of choices and of levels, so that the level chosen more
    often has the higher utility.  A level never chosen stands at -2
    before centering: a chosen level lies above it by
    ln(share * number of levels) + 2, which is negative for a level chosen
    rarely enough. *)
Theorem utility_difference (records : list ChoiceRecord) (attributes : Attributes) :
  NoDup attributes.*1 →
  (∀ a, a ∈ attributes → a.2 ≠ []) →
  ∃ utilities,
    _compute_utilities records attributes = Ok utilities
    ∧ ∀ attr_name levels l l',
        (attr_name, levels) ∈ attributes → l ∈ levels → l' ∈ levels →
        ∃ attr_utils u u',
          utilities !! attr_name = Some attr_utils
          ∧ attr_utils !! l = Some u ∧ attr_utils !! l' = Some u'
          ∧ (0 < chosen_count records attr_name l →
             0 < chosen_count records attr_name l' →
             (u' - u = ln (INR (chosen_count records attr_name l')
                           / INR (chosen_count records attr_name l)))%R
             ∧ ((chosen_count records attr_name l
                 ≤ chosen_count records attr_name l')%nat → (u <= u')%R))
          ∧ (chosen_count records attr_name l = 0 →
             0 < chosen_count records attr_name l' →
             (u' - u = ln (INR (chosen_count records attr_name l')
                           / INR (total_choices records)
                           * INR (length levels)) + 2)%R).
Proof.
  intros Hnd Hlevels.
  destruct (compute_utilities_table records attributes Hnd Hlevels)
    as (utilities & Hrun & Hin & _).
  exists utilities. split; [done|].
  intros attr_name levels l l' Ha Hl Hl'.
  destruct (Hin attr_name levels Ha) as (c & Hc & Hu).
  pose proof (Hlevels _ Ha) as Hne. cbn [snd] in Hne.
  assert (0 < INR (length levels))%R as Hlen.
  { apply lt_0_INR. destruct levels; [done | cbn; lia]. }
  eexists _, _, _. split; [exact Hu|].
  rewrite !center_lookup, !raw_utils_level, !decide_True, !Hc by done.
  cbn [fmap option_fmap option_map].
  split; [done|]. split; [done|].
  pose proof (chosen_count_le_total records attr_name l) as Hle.
  pose proof (chosen_count_le_total records attr_name l') as Hle'.
  set (n := chosen_count records attr_name l) in *.
  set (n' := chosen_count records attr_name l') in *.
  set (total := total_choices records) in *.
  split.
  - intros Hn Hn'. rewrite !level_utility_chosen by done.
    assert (0 < INR n)%R by (by apply lt_0_INR).
    assert (0 < INR n')%R by (by apply lt_0_INR).
    assert (0 < INR total)%R by (apply lt_0_INR; lia).
    assert (0 < INR n / INR total / (1 / INR (length levels)))%R as Hx.
    { apply Rdiv_lt_0_compat; [by apply Rdiv_lt_0_compat|].
      apply Rdiv_lt_0_compat; [lra|done]. }
    assert (0 < INR n' / INR total / (1 / INR (length levels)))%R as Hx'.
    { apply Rdiv_lt_0_compat; [by apply Rdiv_lt_0_compat|].
      apply Rdiv_lt_0_compat; [lra|done]. }
    assert (ln (INR n' / INR total / (1 / INR (length levels)))
            - ln (INR n / INR total / (1 / INR (length levels)))
            = ln (INR n' / INR n))%R as Hdiff.
    { rewrite <- ln_quotient by done. f_equal. field. lra. }
    split; [lra|].
    intros Hnn. assert (INR n <= INR n')%R as HR by (by apply le_INR).
    assert (0 <= ln (INR n' / INR n))%R; [|lra].
    rewrite <- ln_1. apply ln_monotone; [lra|].
    apply (Rmult_le_reg_r (INR n)); [done|]. field_simplify; lra.
  - intros Hn Hn'. rewrite Hn, level_utility_never.
    rewrite level_utility_chosen by done.
    assert (0 < INR total)%R by (apply lt_0_INR; lia).
    assert (INR n' / INR total / (1 / INR (length levels))
            = INR n' / INR total * INR (length levels))%R as -> by (field; lra).
    lra.
Qed.

Lemma utility_difference_witness :
  ∃ utilities,
    _compute_utilities records_red attrs_color = Ok utilities
    ∧ ∀ attr_name levels l l',
        (attr_name, levels) ∈ attrs_color → l ∈ levels → l' ∈ levels →
        ∃ attr_utils u u',
          utilities !! attr_name = Some attr_utils
          ∧ attr_utils !! l = Some u ∧ attr_utils !! l' = Some u'
          ∧ (0 < chosen_count records_red attr_name l →
             0 < chosen_count records_red attr_name l' →
             (u' - u = ln (INR (chosen_count records_red attr_name l')
                           / INR (chosen_count records_red attr_name l)))%R
             ∧ ((chosen_count records_red attr_name l
                 ≤ chosen_count records_red attr_name l')%nat → (u <= u')%R))
          ∧ (chosen_count records_red attr_name l = 0 →
             0 < chosen_count records_red attr_name l' →
             (u' - u = ln (INR (chosen_count records_red attr_name l')
                           / INR (total_choices records_red)
                           * INR (length levels)) + 2)%R).
Proof.
  apply (utility_difference records_red attrs_color).
  - apply (bool_decide_unpack _). vm_compute. exact I.
  - intros a Ha. revert a Ha. apply Forall_forall.
    apply (bool_decide_unpack _). vm_compute. exact I.
Defined.

(** ** What the estimator reads of the records *)

Lemma foldlM_ext {A B} (f g : B → A → result B) (acc : B) (l : list A) :
  (∀ a acc, a ∈ l → f acc a = g acc a) → foldlM f acc l = foldlM g acc l.
Proof.
  revert acc. induction l as [|x l IH]; intros acc Hext; [done|].
  cbn [foldlM]. rewrite (Hext x acc) by left.
  destruct (g acc x) as [acc1|]; [|done]. cbn [mbind result_bind].
  apply IH. intros y acc' Hy. apply Hext. by right.
Qed.

Lemma compute_utilities_counts (records records' : list ChoiceRecord)
    (attributes : Attributes) :
  NoDup attributes.*1 →
  (∀ a level, a ∈ attributes →
     chosen_count records' a.1 level = chosen_count records a.1 level) →
  total_choices records' = total_choices records →
  _compute_utilities records' attributes = _compute_utilities records attributes.
Proof.
  intros Hnd Hcounts Htotal. unfold _compute_utilities. rewrite Htotal.
  apply foldlM_ext. intros a utilities Ha.
  destruct (decide (length a.2 = 0)); [done|].
  assert (a.1 ∈ attributes.*1) as Hin by (apply list_elem_of_fmap; by exists a).
  destruct (level_chosen_counts_lookup records attributes a.1 Hnd Hin)
    as (c & -> & Hc).
  destruct (level_chosen_counts_lookup records' attributes a.1 Hnd Hin)
    as (c' & -> & Hc').
  cbn [mbind result_bind]. do 3 f_equal. apply raw_utils_ext.
  intros level. by rewrite Hc, Hc', Hcounts.
Qed.

Lemma chosen_count_chosen (records : list ChoiceRecord) (attr_name level : string) :
  chosen_count (filter (λ r, chosen_profile r ≠ None) records) attr_name level
  = chosen_count records attr_name level.
Proof.
  unfold chosen_count. induction records as [|r records IH]; [done|].
  rewrite !filter_cons.
  destruct (decide (chosen_profile r ≠ None)) as [Hsome|Hnone].
  - rewrite filter_cons. destruct (decide (chose attr_name level r)); cbn; by rewrite IH.
  - rewrite decide_False; [done|]. intros (p & Hp & _). apply Hnone. by rewrite Hp.
Qed.

Lemma total_choices_chosen (records : list ChoiceRecord) :
  total_choices (filter (λ r, chosen_profile r ≠ None) records)
  = total_choices records.
Proof.
  unfold total_choices. induction records as [|r records IH]; [done|].
  rewrite !filter_cons.
  destruct (decide (chosen_profile r ≠ None)) as [Hsome|Hnone]; [|done].
  rewrite filter_cons, decide_True by done. cbn. by rewrite IH.
Qed.

Lemma chosen_count_profiles (records records' : list ChoiceRecord)
    (attr_name level : string) :
  chosen_profile <$> records' = chosen_profile <$> records →
  chosen_count records' attr_name level = chosen_count records attr_name level.
Proof.
  unfold chosen_count. revert records'.
  induction records as [|r records IH]; intros [|r' records'] Heq; try done.
  rewrite !fmap_cons in Heq. injection Heq as Hr Heq.
  rewrite !filter_cons. specialize (IH _ Heq).
  destruct (decide (chose attr_name level r')) as [(p & Hp & Hl)|Hno].
  - rewrite decide_True; [cbn; by rewrite IH|]. exists p. by rewrite <- Hr.
  - rewrite decide_False; [done|]. intros (p & Hp & Hl). apply Hno.
    exists p. by rewrite Hr.
Qed.

Lemma total_choices_profiles (records records' : list ChoiceRecord) :
  chosen_profile <$> records' = chosen_profile <$> records →
  total_choices records' = total_choices records.
Proof.
  unfold total_choices. revert records'.
  induction records as [|r records IH]; intros [|r' records'] Heq; try done.
  rewrite !fmap_cons in Heq. injection Heq as Hr Heq.
  rewrite !filter_cons, Hr. specialize (IH _ Heq).
  destruct (decide (chosen_profile r ≠ None)); cbn; by rewrite IH.
Qed.

(** X13.  The estimator reads of the records only the chosen profiles:
    the task number and the agent traits do not matter, neither does the
    order of the records, and records of a "none of these" answer can be
    dropped. *)
Theorem compute_utilities_reads_choices (records records' : list ChoiceRecord)
    (attributes : Attributes) :
  NoDup attributes.*1 →
  (chosen_profile <$> records' = chosen_profile <$> records
   ∨ records' ≡ₚ records
   ∨ records' = filter (λ r, chosen_profile r ≠ None) records) →
  _compute_utilities records' attributes = _compute_utilities records attributes.
Proof.
  intros Hnd [Heq|[Hperm| ->]]; apply compute_utilities_counts; try done.
  - intros a level _. by apply chosen_count_profiles.
  - by apply total_choices_profiles.
  - intros a level _. unfold chosen_count. by rewrite Hperm.
  - unfold total_choices. by rewrite Hperm.
  - intros a level _. apply chosen_count_chosen.
  - apply total_choices_chosen.
Qed.

Lemma compute_utilities_reads_choices_witness :
  _compute_utilities (reverse records_segments) attrs_color
  = _compute_utilities records_segments attrs_color.
Proof.
  apply (compute_utilities_reads_choices records_segments
           (reverse records_segments) attrs_color).
  - apply (bool_decide_unpack _). vm_compute. exact I.
  - right. left. apply reverse_Permutation.
Defined.

(** ** Importance percentages *)

Lemma utility_range_small (attr_utils : gmap string R) :
  (size attr_utils ≤ 1)%nat → utility_range attr_utils = 0%R.
Proof.
  unfold utility_range. intros Hsize.
  assert (length (map_to_list attr_utils).*2 ≤ 1)%nat as Hlen.
  { by rewrite length_fmap, length_map_to_list. }
  destruct ((map_to_list attr_utils).*2) as [|x [|y l]]; [done| |cbn in Hlen; lia].
  unfold Rlist_max, Rlist_min. cbn. lra.
Qed.

(** X14.  The importance table has the attributes of the utility table;
    every importance lies between 0 and 100; and an attribute with a
    single level, or none, has importance 0. *)
Theorem importance_bounds (utilities : UtilityTable) :
  (∀ attr_name, is_Some (_compute_importance utilities !! attr_name)
                ↔ is_Some (utilities !! attr_name))
  ∧ (∀ attr_name v, _compute_importance utilities !! attr_name = Some v →
       (0 <= v <= 100)%R)
  ∧ (∀ attr_name attr_utils, utilities !! attr_name = Some attr_utils →
       (size attr_utils ≤ 1)%nat →
       _compute_importance utilities !! attr_name = Some 0%R).
Proof.
  split; [|split].
  - intros attr_name. unfold _compute_importance.
    by rewrite !lookup_fmap, !fmap_is_Some.
  - intros attr_name v. unfold _compute_importance. rewrite !lookup_fmap.
    destruct (utilities !! attr_name) as [attr_utils|] eqn:Hu; [|done].
    cbn. intros [= <-].
    pose proof (utility_range_nonneg attr_utils) as Hnn.
    destruct (Rlt_dec 0 (Rmap_sum (utility_range <$> utilities))) as [Hpos|]; [|lra].
    assert (utility_range attr_utils <= Rmap_sum (utility_range <$> utilities))%R
      as Hle.
    { apply (Rmap_sum_ge_entry _ attr_name).
      - intros k x. rewrite lookup_fmap. destruct (utilities !! k); [|done].
        intros [= <-]. apply utility_range_nonneg.
      - by rewrite lookup_fmap, Hu. }
    split.
    + apply Rmult_le_pos; [|lra]. apply Rmult_le_pos; [done|].
      left. by apply Rinv_0_lt_compat.
    + apply (Rmult_le_reg_r (Rmap_sum (utility_range <$> utilities))); [done|].
      field_simplify; lra.
  - intros attr_name attr_utils Hu Hsize. unfold _compute_importance.
    rewrite !lookup_fmap, Hu. cbn. rewrite (utility_range_small _ Hsize).
    f_equal. destruct (Rlt_dec _ _); lra.
Qed.

(** ** Choice shares *)

Lemma Rsum_scale (l : list R) (c : R) :
  Rsum ((λ x, x * c)%R <$> l) = (Rsum l * c)%R.
Proof.
  induction l as [|x l IH]; [cbn; lra|].
  rewrite fmap_cons, !Rsum_cons, IH. lra.
Qed.

Lemma Rsum_ge_elem (l : list R) (x : R) :
  (∀ y, y ∈ l → (0 < y)%R) → x ∈ l → (x <= Rsum l)%R.
Proof.
  induction l as [|y l IH]; intros Hpos Hx; [by apply elem_of_nil in Hx|].
  rewrite Rsum_cons.
  assert (0 <= Rsum l)%R as Hsum.
  { destruct l as [|z l]; [cbn; lra|]. left. apply Rsum_pos; [done|].
    intros w Hw. apply Hpos. by right. }
  assert (0 < y)%R by (apply Hpos; left).
  apply elem_of_cons in Hx as [->|Hx]; [lra|].
  assert (x <= Rsum l)%R; [|lra]. apply IH; [|done].
  intros w Hw. apply Hpos. by right.
Qed.

Lemma Rdiv_le_iff (t a b : R) : (0 < t)%R → (a / t <= b / t)%R ↔ (a <= b)%R.
Proof.
  intros Ht. pose proof (Rinv_0_lt_compat _ Ht) as Hinv. unfold Rdiv. split.
  - intros H. by apply (Rmult_le_reg_r (/ t)).
  - intros H. apply Rmult_le_compat_r; [lra|done].
Qed.

Lemma exp_sum_pos (profile_utils : list R) :
  profile_utils ≠ [] → (0 < Rsum (exp <$> profile_utils))%R.
Proof.
  intros Hne. apply Rsum_pos; [by destruct profile_utils|].
  intros x (u & -> & _)%list_elem_of_fmap. apply exp_pos.
Qed.

(** The shift by the largest utility cancels. *)
Lemma shares_softmax (profile_utils : list R) :
  shares profile_utils
  = (λ u, exp u / Rsum (exp <$> profile_utils))%R <$> profile_utils.
Proof.
  destruct (decide (profile_utils = [])) as [->|Hne]; [done|].
  unfold shares.
  set (max_util := match profile_utils with [] => 0%R | u :: rest => Rlist_max u rest end).
  assert ((λ u, exp (u - max_util)) <$> profile_utils
          = (λ x, x * exp (- max_util))%R <$> (exp <$> profile_utils)) as ->.
  { rewrite <- list_fmap_compose. apply list_fmap_ext. intros i u _. cbn.
    unfold Rminus. apply exp_plus. }
  rewrite Rsum_scale. pose proof (exp_sum_pos _ Hne) as Hsum.
  pose proof (exp_pos (- max_util)) as Hm.
  destruct (Rlt_dec 0 (Rsum (exp <$> profile_utils) * exp (- max_util))) as [_|Hn].
  - rewrite <- !list_fmap_compose. apply list_fmap_ext. intros i u _. cbn.
    field. split; lra.
  - destruct Hn. by apply Rmult_lt_0_compat.
Qed.

Lemma zip_fmap_rows {A B C} (f : A → B) (g : B → C) (l : list A) :
  zip (zip l (f <$> l)) (g <$> (f <$> l)) = (λ x, (x, f x, g (f x))) <$> l.
Proof. induction l as [|x l IH]; [done|]. cbn. by rewrite <- IH. Qed.

Lemma market_sim_softmax (utilities : UtilityTable) (profiles : list Profile) :
  market_sim utilities profiles
  = (λ p, (p, total_utility utilities p,
           (exp (total_utility utilities p)
            / Rsum ((λ q, exp (total_utility utilities q)) <$> profiles))%R))
      <$> profiles.
Proof.
  unfold market_sim. rewrite shares_softmax, zip_fmap_rows.
  by rewrite <- list_fmap_compose.
Qed.


(** X16.  Every share lies between 0 and 1, and of two profiles of one
    simulation the one with the lower or equal total utility never has the
    higher share; equal utilities give equal shares. *)
Theorem market_shares_ordered (utilities : UtilityTable) (profiles : list Profile)
    (p p' : Profile) (u u' s s' : R) :
  (p, u, s) ∈ market_sim utilities profiles →
  (p', u', s') ∈ market_sim utilities profiles →
  (0 <= s <= 1)%R ∧ ((u <= u')%R → (s <= s')%R) ∧ (u = u' → s = s').
Proof.
  rewrite market_sim_softmax.
  intros (q & [= -> -> ->] & Hq)%list_elem_of_fmap
         (q' & [= -> -> ->] & Hq')%list_elem_of_fmap.
  set (total := Rsum ((λ q, exp (total_utility utilities q)) <$> profiles)).
  assert (0 < total)%R as Htotal.
  { subst total. rewrite (list_fmap_compose (total_utility utilities) exp).
    apply exp_sum_pos. destruct profiles; [by apply elem_of_nil in Hq | done]. }
  assert (exp (total_utility utilities q) <= total)%R as Hle.
  { apply Rsum_ge_elem.
    - intros y (r & -> & _)%list_elem_of_fmap. apply exp_pos.
    - apply list_elem_of_fmap. by exists q. }
  pose proof (exp_pos (total_utility utilities q)) as Hpos.
  pose proof (exp_pos (total_utility utilities q')) as Hpos'.
  split; [split|split].
  - left. by apply Rdiv_lt_0_compat.
  - replace 1%R with (total / total)%R by (field; lra).
    by apply Rdiv_le_iff.
  - rewrite (Rdiv_le_iff total) by done.
    intros [Hlt| ->]; [|lra]. left. by apply exp_increasing.
  - by intros ->.
Qed.

Lemma market_shares_ordered_witness :
  (0 <= exp (total_utility utilities_abc {["option" := "A"]})
        / Rsum ((λ q, exp (total_utility utilities_abc q)) <$> profiles_abc) <= 1)%R
  ∧ ((total_utility utilities_abc {["option" := "A"]}
      <= total_utility utilities_abc {["option" := "C"]})%R
     → (exp (total_utility utilities_abc {["option" := "A"]})
        / Rsum ((λ q, exp (total_utility utilities_abc q)) <$> profiles_abc)
        <= exp (total_utility utilities_abc {["option" := "C"]})
           / Rsum ((λ q, exp (total_utility utilities_abc q)) <$> profiles_abc))%R)
  ∧ (total_utility utilities_abc {["option" := "A"]}
     = total_utility utilities_abc {["option" := "C"]} →
     (exp (total_utility utilities_abc {["option" := "A"]})
      / Rsum ((λ q, exp (total_utility utilities_abc q)) <$> profiles_abc))%R
     = (exp (total_utility utilities_abc {["option" := "C"]})
        / Rsum ((λ q, exp (total_utility utilities_abc q)) <$> profiles_abc))%R).
Proof.
  apply (market_shares_ordered utilities_abc profiles_abc
           {["option" := "A"]} {["option" := "C"]}).
  - rewrite market_sim_softmax. apply list_elem_of_fmap.
    exists {["option" := "A"]}. split; [reflexivity|]. left.
  - rewrite market_sim_softmax. apply list_elem_of_fmap.
    exists {["option" := "C"]}. split; [reflexivity|]. right. right. left.
Defined.

(** ** Directory names *)

Example slugify_question :
  slugify "  Which Plan: 5G, or  Fibre? " default_max_len = "which-plan-5g-or-fibre".
Proof. vm_compute. reflexivity. Qed.

Example slugify_cut : slugify "alpha beta gamma" 12 = "alpha-beta".
Proof. vm_compute. reflexivity. Qed.

Lemma slug_char_not_space (c : Ascii.ascii) : is_slug_char c → ¬ is_space c.
Proof. unfold is_slug_char, is_space. lia. Qed.

Lemma lower_char_slug (c : Ascii.ascii) : is_slug_char c → lower_char c = c.
Proof.
  unfold is_slug_char, lower_char. intros H. rewrite decide_False; [done|]. lia.
Qed.

Lemma hyphen_slug_char : is_slug_char hyphen.
Proof. unfold is_slug_char. vm_compute. right. right. reflexivity. Qed.

Lemma lstrip_suffix (text : list Ascii.ascii) : lstrip text `suffix_of` text.
Proof.
  induction text as [|c text IH]; [done|]. cbn [lstrip].
  destruct (decide (is_space c)); [by apply suffix_cons_r | done].
Qed.

Lemma Forall_lstrip (P : Ascii.ascii → Prop) (text : list Ascii.ascii) :
  Forall P text → Forall P (lstrip text).
Proof.
  intros H. destruct (lstrip_suffix text) as [k Hk]. rewrite Hk in H.
  by apply Forall_app in H as [_ ?].
Qed.

Lemma Forall_strip (P : Ascii.ascii → Prop) (text : list Ascii.ascii) :
  Forall P text → Forall P (strip text).
Proof.
  intros H. unfold strip.
  by apply Forall_reverse, Forall_lstrip, Forall_reverse, Forall_lstrip.
Qed.

Lemma strip_length (text : list Ascii.ascii) : (length (strip text) ≤ length text)%nat.
Proof.
  unfold strip. rewrite length_reverse.
  etrans; [apply suffix_length, lstrip_suffix|]. rewrite length_reverse.
  apply suffix_length, lstrip_suffix.
Qed.

Lemma hyphenate_slug (in_run : bool) (text : list Ascii.ascii) :
  Forall (λ c, is_slug_char c ∨ is_space c) text →
  Forall is_slug_char (hyphenate in_run text).
Proof.
  revert in_run. induction text as [|c text IH]; intros in_run H; [constructor|].
  apply Forall_cons in H as [Hc H]. cbn [hyphenate].
  destruct (decide (is_space c)) as [|Hns].
  - destruct in_run; [by apply IH|]. constructor; [apply hyphen_slug_char | by apply IH].
  - constructor; [by destruct Hc | by apply IH].
Qed.

Lemma hyphenate_length (in_run : bool) (text : list Ascii.ascii) :
  (length (hyphenate in_run text) ≤ length text)%nat.
Proof.
  revert in_run. induction text as [|c text IH]; intros in_run; [done|].
  cbn [hyphenate]. destruct (decide (is_space c)).
  - destruct in_run; cbn [length]; [specialize (IH true) | specialize (IH true)]; lia.
  - cbn [length]. specialize (IH false). lia.
Qed.

Lemma slice_to_prefix (n : Z) (text : list Ascii.ascii) :
  slice_to n text `prefix_of` text.
Proof. unfold slice_to. destruct (decide (0 ≤ n)%Z); apply prefix_take. Qed.

Lemma rsplit_head_prefix (text : list Ascii.ascii) : rsplit_head text `prefix_of` text.
Proof.
  induction text as [|c text IH]; [done|]. cbn [rsplit_head].
  destruct (decide (hyphen ∈ text)); [by apply prefix_cons|].
  destruct (decide (c = hyphen)); [apply prefix_nil | done].
Qed.

(** The part cut off by [rsplit] starts with the hyphen. *)
Lemma rsplit_head_hyphen (text : list Ascii.ascii) :
  hyphen ∈ text → (rsplit_head text ++ [hyphen]) `prefix_of` text.
Proof.
  induction text as [|c text IH]; intros Hin; [by apply elem_of_nil in Hin|].
  cbn [rsplit_head]. destruct (decide (hyphen ∈ text)) as [Ht|Ht].
  - cbn. apply prefix_cons. by apply IH.
  - apply elem_of_cons in Hin as [<-|?]; [|done].
    rewrite decide_True by done. cbn. apply prefix_cons, prefix_nil.
Qed.

Lemma rsplit_head_no_hyphen (text : list Ascii.ascii) :
  hyphen ∉ text → rsplit_head text = text.
Proof.
  destruct text as [|c text]; [done|]. intros Hnot.
  apply not_elem_of_cons in Hnot as [Hc Ht]. cbn [rsplit_head].
  rewrite decide_False by done. by rewrite decide_False.
Qed.

Lemma Forall_prefix (P : Ascii.ascii → Prop) (l k : list Ascii.ascii) :
  l `prefix_of` k → Forall P k → Forall P l.
Proof. intros [m ->] H. by apply Forall_app in H as [? _]. Qed.

Lemma slug_text_chars (text : list Ascii.ascii) :
  Forall is_slug_char (hyphenate false (strip (remove_other (lower text)))).
Proof.
  apply hyphenate_slug, Forall_strip. unfold remove_other.
  apply Forall_forall. by intros c [? _]%list_elem_of_filter.
Qed.

Lemma slugify_chars (text : string) (max_len : Z) :
  Forall is_slug_char (String.list_ascii_of_string (slugify text max_len)).
Proof.
  unfold slugify. rewrite String.list_ascii_of_string_of_list_ascii.
  destruct (decide _); [|apply slug_text_chars].
  eapply Forall_prefix; [|apply slug_text_chars].
  etrans; [apply rsplit_head_prefix | apply slice_to_prefix].
Qed.

Lemma slugify_long (text : string) (max_len : Z) :
  (Z.of_nat (String.length text) ≤ max_len)%Z →
  String.list_ascii_of_string (slugify text max_len)
  = hyphenate false (strip (remove_other (lower (String.list_ascii_of_string text)))).
Proof.
  intros Hlen. unfold slugify. rewrite String.list_ascii_of_string_of_list_ascii.
  rewrite decide_False; [done|].
  pose proof (hyphenate_length false
                (strip (remove_other (lower (String.list_ascii_of_string text))))).
  pose proof (strip_length (remove_other (lower (String.list_ascii_of_string text)))).
  assert (length (remove_other (lower (String.list_ascii_of_string text)))
          ≤ length (String.list_ascii_of_string text))%nat.
  { unfold remove_other, lower. etrans; [apply length_filter|]. by rewrite length_fmap. }
  assert (length (String.list_ascii_of_string text) = String.length text) as Hl.
  { clear. induction text as [|c text IH]; [done|]. cbn. by rewrite IH. }
  lia.
Qed.

(** X17.  A slug only holds lower-case letters a-z, digits and hyphens,
    whatever the text and the length bound. *)
Theorem slugify_alphabet (text : string) (max_len : Z) (c : Ascii.ascii) :
  c ∈ String.list_ascii_of_string (slugify text max_len) →
  (97 ≤ ord c ≤ 122 ∨ 48 ≤ ord c ≤ 57 ∨ ord c = 45)%N.
Proof.
  intros Hc. pose proof (slugify_chars text max_len) as H.
  rewrite Forall_forall in H. by apply H.
Qed.

Lemma slugify_alphabet_witness :
  (97 ≤ ord hyphen ≤ 122 ∨ 48 ≤ ord hyphen ≤ 57 ∨ ord hyphen = 45)%N.
Proof.
  apply (slugify_alphabet "alpha beta gamma" 12 hyphen).
  vm_compute. do 5 right. left.
Defined.

(** X18.  A slug is a prefix of the slug made without length bound, the
    whole of it when that has at most [max_len] characters.  With a bound
    of 0 or more it has at most [max_len] characters; and when it was cut,
    it either stops just before a hyphen of the unbounded slug, or is its
    first [max_len] characters and has no hyphen. *)
Theorem slugify_truncation (text : string) (max_len : Z) :
  String.list_ascii_of_string (slugify text max_len)
    `prefix_of` String.list_ascii_of_string
                  (slugify text (Z.of_nat (String.length text)))
  ∧ ((Z.of_nat (length (String.list_ascii_of_string
                          (slugify text (Z.of_nat (String.length text)))))
      ≤ max_len)%Z →
     slugify text max_len = slugify text (Z.of_nat (String.length text)))
  ∧ ((0 ≤ max_len)%Z →
     (Z.of_nat (length (String.list_ascii_of_string (slugify text max_len)))
      ≤ max_len)%Z
     ∧ (slugify text max_len ≠ slugify text (Z.of_nat (String.length text)) →
        (String.list_ascii_of_string (slugify text max_len) ++ [hyphen])
          `prefix_of` String.list_ascii_of_string
                        (slugify text (Z.of_nat (String.length text)))
        ∨ (Z.of_nat (length (String.list_ascii_of_string (slugify text max_len)))
           = max_len
           ∧ hyphen ∉ String.list_ascii_of_string (slugify text max_len)))).
Proof.
  rewrite (slugify_long text (Z.of_nat (String.length text))) by lia.
  assert (slugify text (Z.of_nat (String.length text))
          = String.string_of_list_ascii
              (hyphenate false
                 (strip (remove_other (lower (String.list_ascii_of_string text))))))
    as Hfull.
  { rewrite <- (slugify_long text (Z.of_nat (String.length text))) by lia.
    by rewrite String.string_of_list_ascii_of_string. }
  rewrite Hfull. unfold slugify.
  rewrite String.list_ascii_of_string_of_list_ascii.
  set (full := hyphenate false
                 (strip (remove_other (lower (String.list_ascii_of_string text))))).
  split; [|split].
  - destruct (decide _); [|done].
    etrans; [apply rsplit_head_prefix | apply slice_to_prefix].
  - intros Hle. by rewrite decide_False by lia.
  - intros Hpos. destruct (decide (max_len < Z.of_nat (length full))%Z) as [Hcut|Hno].
    + unfold slice_to. rewrite decide_True by done.
      assert (length (take (Z.to_nat max_len) full) = Z.to_nat max_len) as Htake.
      { rewrite length_take. lia. }
      split.
      * pose proof (prefix_length _ _ (rsplit_head_prefix (take (Z.to_nat max_len) full))).
        lia.
      * intros _. destruct (decide (hyphen ∈ take (Z.to_nat max_len) full)) as [Hin|Hnot].
        -- left. etrans; [by apply rsplit_head_hyphen | apply prefix_take].
        -- right. rewrite (rsplit_head_no_hyphen _ Hnot). split; [lia|done].
    + split; [lia|]. intros Hne. by destruct Hne.
Qed.

Lemma lstrip_id (text : list Ascii.ascii) :
  Forall (λ c, ¬ is_space c) text → lstrip text = text.
Proof.
  destruct text as [|c text]; [done|]. intros [Hc _]%Forall_cons.
  cbn [lstrip]. by rewrite decide_False.
Qed.

Lemma strip_id (text : list Ascii.ascii) :
  Forall (λ c, ¬ is_space c) text → strip text = text.
Proof.
  intros H. unfold strip. rewrite (lstrip_id text H).
  rewrite lstrip_id by (by apply Forall_reverse). apply reverse_involutive.
Qed.

Lemma hyphenate_id (in_run : bool) (text : list Ascii.ascii) :
  Forall (λ c, ¬ is_space c) text → hyphenate in_run text = text.
Proof.
  revert in_run. induction text as [|c text IH]; intros in_run H; [done|].
  apply Forall_cons in H as [Hc H]. cbn [hyphenate].
  rewrite decide_False by done. by rewrite IH.
Qed.

Lemma slug_text_id (text : list Ascii.ascii) :
  Forall is_slug_char text →
  hyphenate false (strip (remove_other (lower text))) = text.
Proof.
  intros H.
  assert (lower text = text) as ->.
  { unfold lower. induction H as [|c text Hc _ IH]; [done|].
    rewrite fmap_cons, IH. by rewrite lower_char_slug. }
  assert (remove_other text = text) as ->.
  { unfold remove_other. induction H as [|c text Hc _ IH]; [done|].
    rewrite filter_cons, decide_True by (by left). by rewrite IH. }
  assert (Forall (λ c, ¬ is_space c) text) as Hns.
  { eapply Forall_impl; [exact H|]. apply slug_char_not_space. }
  rewrite strip_id by done. by apply hyphenate_id.
Qed.

(** X19.  With a length bound of 0 or more, the slug of a slug is the
    slug itself. *)
Theorem slugify_idempotent (text : string) (max_len : Z) :
  (0 ≤ max_len)%Z →
  slugify (slugify text max_len) max_len = slugify text max_len.
Proof.
  intros Hpos.
  pose proof (slugify_chars text max_len) as Hchars.
  assert (Z.of_nat (length (String.list_ascii_of_string (slugify text max_len)))
          ≤ max_len)%Z as Hlen.
  { unfold slugify. rewrite String.list_ascii_of_string_of_list_ascii.
    destruct (decide _) as [Hcut|]; [|lia].
    unfold slice_to. rewrite decide_True by done.
    pose proof (prefix_length _ _ (rsplit_head_prefix
      (take (Z.to_nat max_len)
         (hyphenate false
            (strip (remove_other (lower (String.list_ascii_of_string text)))))))) as Hp.
    rewrite length_take in Hp. lia. }
  unfold slugify at 1. rewrite (slug_text_id _ Hchars).
  rewrite decide_False by lia. apply String.string_of_list_ascii_of_string.
Qed.

Lemma slugify_idempotent_witness :
  slugify (slugify "alpha beta gamma" 12) 12 = slugify "alpha beta gamma" 12.
Proof. apply (slugify_idempotent "alpha beta gamma" 12). lia. Defined.

(** ** Analysis *)

Lemma foldlM_insert_spec {A V} (key : A → string) (f : A → result V) (g : A → V)
    (l : list A) (m0 : gmap string V) :
  (∀ x, x ∈ l → f x = Ok (g x)) → NoDup (key <$> l) →
  ∃ m, foldlM (λ m x, r ← f x; Ok (<[key x := r]> m)) m0 l = Ok m
       ∧ (∀ x, x ∈ l → m !! key x = Some (g x))
       ∧ (∀ k, k ∉ key <$> l → m !! k = m0 !! k).
Proof.
  revert m0. induction l as [|x l IH]; intros m0 Hf Hnd.
  - exists m0. split; [done|]. split; [|done]. intros x Hx. by apply elem_of_nil in Hx.
  - rewrite fmap_cons in Hnd. apply NoDup_cons in Hnd as [Hx Hnd].
    cbn [foldlM]. rewrite (Hf x) by left. cbn [mbind result_bind].
    destruct (IH (<[key x := g x]> m0)) as (m & Hrun & Hin & Hout); [|done|].
    { intros y Hy. apply Hf. by right. }
    exists m. split; [done|]. split.
    + intros y [->|Hy]%elem_of_cons; [|by apply Hin].
      rewrite (Hout _ Hx). apply lookup_insert_eq.
    + intros k Hk. rewrite fmap_cons in Hk. apply not_elem_of_cons in Hk as [Hne Hk].
      rewrite (Hout _ Hk). by apply lookup_insert_ne.
Qed.

Lemma segment_traits_spec (records : list ChoiceRecord) (trait : string) :
  trait ∈ segment_traits records
  ↔ ∃ rec, rec ∈ records ∧ is_Some (agent_traits rec !! trait).
Proof.
  unfold segment_traits.
  induction records as [|rec records IH] using rev_ind.
  - cbn. split; [set_solver|]. intros (rec & Hrec & _). by apply elem_of_nil in Hrec.
  - rewrite foldl_snoc, elem_of_union, IH, elem_of_dom. split.
    + intros [(r & Hr & Ht)|Ht].
      * exists r. split; [|done]. apply elem_of_app. by left.
      * exists rec. split; [|done]. apply elem_of_app. right. left.
    + intros (r & [Hr|Hr%list_elem_of_singleton]%elem_of_app & Ht).
      * left. by exists r.
      * right. by subst.
Qed.

Lemma group_records_lookup (trait : string) (records : list ChoiceRecord) (v : string) :
  group_records trait records !! v
  = if decide (filter (λ r, trait_value trait r = v) records = []) then None
    else Some (filter (λ r, trait_value trait r = v) records).
Proof.
  unfold group_records.
  induction records as [|rec records IH] using rev_ind; [done|].
  rewrite foldl_snoc, filter_app.
  destruct (decide (trait_value trait rec = v)) as [Hv|Hv].
  - rewrite Hv, lookup_insert_eq, IH.
    rewrite (filter_cons_True _ rec []) by done.
    destruct (decide (filter (λ r, trait_value trait r = v) records = []))
      as [->|Hne]; cbn [default app].
    + by rewrite decide_False.
    + rewrite decide_False; [done|]. by intros [_ ?]%app_eq_nil.
  - rewrite lookup_insert_ne by done. rewrite IH.
    rewrite (filter_cons_False _ rec []) by done. by rewrite app_nil_r.
Qed.

Lemma compute_utilities_levels (records : list ChoiceRecord) (attributes : Attributes)
    (utilities : UtilityTable) :
  _compute_utilities records attributes = Ok utilities →
  ∀ a, a ∈ attributes → a.2 ≠ [].
Proof.
  unfold _compute_utilities. generalize (∅ : UtilityTable).
  generalize (level_chosen_counts records attributes) at 1.
  induction attributes as [|a attributes IH]; intros lc u0 Hrun b Hb.
  - by apply elem_of_nil in Hb.
  - cbn [foldlM] in Hrun. destruct (decide (length a.2 = 0)) as [|Hlen]; [done|].
    destruct (lc !! a.1) as [c|]; [|done]. cbn [mbind result_bind] in Hrun.
    apply elem_of_cons in Hb as [->|Hb].
    + by destruct a.2.
    + by eapply IH.
Qed.

Lemma compute_utilities_not_exit (records : list ChoiceRecord) (attributes : Attributes) :
  not_exit (_compute_utilities records attributes).
Proof.
  unfold _compute_utilities. apply foldlM_not_exit. intros u a code.
  destruct (decide (length a.2 = 0)); [done|].
  by destruct (level_chosen_counts records attributes !! a.1).
Qed.

Lemma segment_result_ok (records : list ChoiceRecord) (attributes : Attributes)
    (utilities : UtilityTable) :
  _compute_utilities records attributes = Ok utilities →
  segment_result attributes records
  = Ok {| seg_utilities := utilities;
          seg_importance := _compute_importance utilities;
          seg_n_observations := length records |}.
Proof. intros Hu. unfold segment_result. by rewrite Hu. Qed.

Section analysis.
Context (attributes : Attributes).
Context (Hnames : NoDup attributes.*1) (Hlevels : ∀ a, a ∈ attributes → a.2 ≠ []).

Lemma compute_utilities_total (records : list ChoiceRecord) :
  ∃ utilities, _compute_utilities records attributes = Ok utilities.
Proof.
  destruct (compute_utilities_table records attributes Hnames Hlevels)
    as (utilities & Hrun & _).
  by exists utilities.
Qed.

Lemma trait_results_spec (groups : gmap string (list ChoiceRecord)) :
  ∃ results,
    trait_results attributes groups = Ok results
    ∧ ∀ v, match groups !! v with
           | None => results !! v = None
           | Some rs =>
               ∃ group, results !! v = Some group
                 ∧ _compute_utilities rs attributes = Ok (seg_utilities group)
                 ∧ seg_importance group = _compute_importance (seg_utilities group)
                 ∧ seg_n_observations group = length rs
           end.
Proof.
  destruct (foldlM_insert_spec fst
              (λ kv : string * list ChoiceRecord, segment_result attributes kv.2)
              (λ kv, {| seg_utilities :=
                          match _compute_utilities kv.2 attributes with
                          | Ok u => u
                          | Err _ => ∅
                          end;
                        seg_importance :=
                          _compute_importance
                            match _compute_utilities kv.2 attributes with
                            | Ok u => u
                            | Err _ => ∅
                            end;
                        seg_n_observations := length kv.2 |})
              (map_to_list groups) ∅) as (results & Hrun & Hin & Hout).
  { intros [v rs] _. cbn [snd].
    destruct (compute_utilities_total rs) as [u Hu].
    rewrite Hu. by apply segment_result_ok. }
  { apply NoDup_fst_map_to_list. }
  exists results. split; [exact Hrun|]. intros v.
  destruct (groups !! v) as [rs|] eqn:Hv.
  - apply elem_of_map_to_list in Hv. specialize (Hin _ Hv). cbn [fst snd] in Hin.
    eexists. split; [exact Hin|]. cbn.
    destruct (compute_utilities_total rs) as [u ->]. done.
  - rewrite Hout; [done|]. intros ([v' rs] & -> & Hin')%list_elem_of_fmap.
    apply elem_of_map_to_list in Hin'. cbn in Hv. congruence.
Qed.

Lemma segment_analysis_spec (records : list ChoiceRecord) :
  ∃ segments,
    segment_analysis records attributes = Ok segments
    ∧ ∀ trait,
        if decide (trait ∈ segment_traits records)
        then ∃ results,
               segments !! trait = Some results
               ∧ trait_results attributes (group_records trait records) = Ok results
        else segments !! trait = None.
Proof.
  destruct (foldlM_insert_spec Datatypes.id
              (λ trait, trait_results attributes (group_records trait records))
              (λ trait, match trait_results attributes (group_records trait records) with
                        | Ok r => r
                        | Err _ => ∅
                        end)
              (elements (segment_traits records)) ∅) as (segments & Hrun & Hin & Hout).
  { intros trait _.
    by destruct (trait_results_spec (group_records trait records)) as (r & -> & _). }
  { rewrite list_fmap_id. apply NoDup_elements. }
  exists segments. split; [exact Hrun|]. intros trait.
  destruct (decide (trait ∈ segment_traits records)) as [Ht|Ht].
  - apply elem_of_elements in Ht. specialize (Hin _ Ht). cbn in Hin.
    destruct (trait_results_spec (group_records trait records)) as (r & Hr & _).
    rewrite Hr in Hin. by exists r.
  - rewrite Hout; [done|]. rewrite list_fmap_id. by rewrite elem_of_elements.
Qed.

Lemma analyze_spec (records : list ChoiceRecord) :
  records ≠ [] →
  ∃ a,
    analyze records attributes = Ok a
    ∧ an_n_observations a = length records
    ∧ _compute_utilities records attributes = Ok (an_utilities a)
    ∧ an_importance a = _compute_importance (an_utilities a)
    ∧ ∀ trait,
        if decide (trait ∈ segment_traits records)
        then ∃ results,
               an_segments a !! trait = Some results
               ∧ trait_results attributes (group_records trait records) = Ok results
        else an_segments a !! trait = None.
Proof.
  intros Hne. unfold analyze. rewrite decide_False by done.
  destruct (compute_utilities_total records) as [u Hu].
  destruct (segment_analysis_spec records) as (segments & Hseg & Hspec).
  rewrite Hu, Hseg. cbn [mbind result_bind]. eexists. split; [done|]. by cbn.
Qed.
End analysis.

(** X20.  The analysis stops with exit status 1 exactly when there is no
    choice record; with at least one record and at least one level for
    every attribute it produces its tables. *)
Theorem analyze_exit_iff (records : list ChoiceRecord) (attributes : Attributes) :
  (∀ code, analyze records attributes = Err (SystemExit code)
           ↔ code = 1%Z ∧ records = [])
  ∧ (NoDup attributes.*1 → (∀ a, a ∈ attributes → a.2 ≠ []) → records ≠ [] →
     ∃ a, analyze records attributes = Ok a).
Proof.
  split.
  - intros code. unfold analyze. destruct (decide (records = [])) as [->|Hne].
    + split; [by intros [= <-] | by intros [-> _]].
    + split; [|by intros [_ ?]]. intros Hrun. exfalso.
      destruct (_compute_utilities records attributes) as [u|e] eqn:Hu.
      * cbn [mbind result_bind] in Hrun.
        pose proof (compute_utilities_levels _ _ _ Hu) as Hlevels.
        destruct (decide (NoDup attributes.*1)) as [Hnd|Hnd].
        -- destruct (segment_analysis_spec attributes Hnd Hlevels records)
             as (segments & Hseg & _).
           by rewrite Hseg in Hrun.
        -- destruct (segment_analysis records attributes) as [s|e] eqn:Hs; [done|].
           cbn in Hrun. injection Hrun as ->.
           unfold segment_analysis in Hs.
           eapply foldlM_not_exit; [|exact Hs]. intros m trait.
           apply not_exit_bind.
           ++ unfold trait_results. apply foldlM_not_exit. intros m' kv.
              apply not_exit_bind; [|done]. unfold segment_result.
              apply not_exit_bind; [apply compute_utilities_not_exit|].
              intros u1. apply not_exit_bind; [apply compute_utilities_not_exit|done].
           ++ done.
      * cbn in Hrun. injection Hrun as ->.
        by eapply compute_utilities_not_exit.
  - intros Hnd Hlevels Hne.
    destruct (analyze_spec attributes Hnd Hlevels records Hne) as (a & Ha & _).
    by exists a.
Qed.

Lemma filter_none {A} (P : A → Prop) `{∀ x, Decision (P x)} (l : list A) :
  (∀ x, x ∈ l → ¬ P x) → filter P l = [].
Proof.
  induction l as [|x l IH]; intros Hno; [done|].
  rewrite filter_cons, decide_False by (apply Hno; left).
  apply IH. intros y Hy. apply Hno. by right.
Qed.

(** X21.  The segment analysis has one entry per agent trait that some
    record carries, and under a trait one group per value that occurs,
    where a record without the trait counts under "unknown"; the group of
    a value reports the utilities, the importance and the number of
    exactly the records with that value, in their order. *)
Theorem analyze_segments (records : list ChoiceRecord) (attributes : Attributes) :
  NoDup attributes.*1 → (∀ a, a ∈ attributes → a.2 ≠ []) → records ≠ [] →
  ∃ a,
    analyze records attributes = Ok a
    ∧ (∀ trait, is_Some (an_segments a !! trait)
                ↔ ∃ rec, rec ∈ records ∧ is_Some (agent_traits rec !! trait))
    ∧ ∀ trait groups v,
        an_segments a !! trait = Some groups →
        (groups !! v = None ↔ ∀ rec, rec ∈ records → trait_value trait rec ≠ v)
        ∧ ∀ group, groups !! v = Some group →
            _compute_utilities (filter (λ r, trait_value trait r = v) records)
              attributes = Ok (seg_utilities group)
            ∧ seg_importance group = _compute_importance (seg_utilities group)
            ∧ seg_n_observations group
              = length (filter (λ r, trait_value trait r = v) records).
Proof.
  intros Hnd Hlevels Hne.
  destruct (analyze_spec attributes Hnd Hlevels records Hne)
    as (a & Ha & _ & _ & _ & Hseg).
  exists a. split; [done|]. split.
  - intros trait. rewrite <- segment_traits_spec. specialize (Hseg trait).
    destruct (decide (trait ∈ segment_traits records)) as [Ht|Ht].
    + destruct Hseg as (results & -> & _). split; [done | by eexists].
    + rewrite Hseg. split; [by intros [] | done].
  - intros trait groups v Hgroups. specialize (Hseg trait).
    destruct (decide (trait ∈ segment_traits records)) as [Ht|Ht];
      [|by rewrite Hseg in Hgroups].
    destruct Hseg as (results & Hres & Hrun). rewrite Hgroups in Hres.
    injection Hres as <-.
    destruct (trait_results_spec attributes Hnd Hlevels (group_records trait records))
      as (results & Hrun' & Hspec).
    rewrite Hrun in Hrun'. injection Hrun' as <-.
    specialize (Hspec v). rewrite group_records_lookup in Hspec.
    destruct (decide (filter (λ r, trait_value trait r = v) records = []))
      as [Hnil|Hsome].
    + split; [|by rewrite Hspec]. split; [|done]. intros _ rec Hrec Hv.
      assert (rec ∈ filter (λ r, trait_value trait r = v) records) as Hin
        by (by apply list_elem_of_filter).
      rewrite Hnil in Hin. by apply elem_of_nil in Hin.
    + destruct Hspec as (group & Hgroup & Hu & Hi & Hn). split.
      * split; [by rewrite Hgroup|]. intros Hno. destruct Hsome.
        by apply filter_none.
      * intros group' Hgroup'. rewrite Hgroup in Hgroup'. by injection Hgroup' as <-.
Qed.

Lemma analyze_segments_witness :
  ∃ a,
    analyze records_segments attrs_color = Ok a
    ∧ (∀ trait, is_Some (an_segments a !! trait)
                ↔ ∃ rec, rec ∈ records_segments
                         ∧ is_Some (agent_traits rec !! trait))
    ∧ ∀ trait groups v,
        an_segments a !! trait = Some groups →
        (groups !! v = None
         ↔ ∀ rec, rec ∈ records_segments → trait_value trait rec ≠ v)
        ∧ ∀ group, groups !! v = Some group →
            _compute_utilities
              (filter (λ r, trait_value trait r = v) records_segments)
              attrs_color = Ok (seg_utilities group)
            ∧ seg_importance group = _compute_importance (seg_utilities group)
            ∧ seg_n_observations group
              = length (filter (λ r, trait_value trait r = v) records_segments).
Proof.
  apply (analyze_segments records_segments attrs_color).
  - apply (bool_decide_unpack _). vm_compute. exact I.
  - intros a Ha. revert a Ha. apply Forall_forall.
    apply (bool_decide_unpack _). vm_compute. exact I.
  - discriminate.
Defined.

Lemma Nmap_sum_delete (d : gmap string nat) (k : string) :
  Nmap_sum d = default 0 (d !! k) + Nmap_sum (delete k d).
Proof.
  unfold Nmap_sum. destruct (d !! k) as [x|] eqn:Hk.
  - rewrite (map_fold_delete_L _ _ k x d); [cbn; lia| |done]. intros. lia.
  - by rewrite delete_id.
Qed.

Lemma Nmap_sum_insert (d : gmap string nat) (k : string) (x : nat) :
  Nmap_sum (<[k := x]> d) = x + Nmap_sum (delete k d).
Proof.
  rewrite <- insert_delete_eq. unfold Nmap_sum.
  rewrite map_fold_insert_L; [lia| |apply lookup_delete_eq]. intros. lia.
Qed.

Lemma group_sizes_sum (trait : string) (records : list ChoiceRecord) :
  Nmap_sum (length <$> group_records trait records) = length records.
Proof.
  unfold group_records.
  induction records as [|rec records IH] using rev_ind; [done|].
  rewrite foldl_snoc, fmap_insert, Nmap_sum_insert, !length_app. cbn [length].
  rewrite <- IH. rewrite (Nmap_sum_delete (length <$> _) (trait_value trait rec)).
  rewrite lookup_fmap. destruct (_ !! trait_value trait rec); cbn; lia.
Qed.

(** X22.  Under every trait of the segment analysis the groups partition
    the records: no group is empty, and their numbers of observations add
    up to the number of observations of the whole analysis.  When all
    records have the same value of a trait, its one group repeats the
    overall utilities and importance. *)
Theorem analyze_partition (records : list ChoiceRecord) (attributes : Attributes) :
  NoDup attributes.*1 → (∀ a, a ∈ attributes → a.2 ≠ []) → records ≠ [] →
  ∃ a,
    analyze records attributes = Ok a
    ∧ an_n_observations a = length records
    ∧ ∀ trait groups,
        an_segments a !! trait = Some groups →
        total_observations groups = an_n_observations a
        ∧ (∀ v group, groups !! v = Some group → 0 < seg_n_observations group)
        ∧ ∀ v, (∀ rec, rec ∈ records → trait_value trait rec = v) →
            ∃ group, groups = {[v := group]}
                     ∧ seg_utilities group = an_utilities a
                     ∧ seg_importance group = an_importance a
                     ∧ seg_n_observations group = an_n_observations a.
Proof.
  intros Hnd Hlevels Hne.
  destruct (analyze_spec attributes Hnd Hlevels records Hne)
    as (a & Ha & Hn & Hu & Hi & Hseg).
  exists a. split; [done|]. split; [done|].
  intros trait groups Hgroups. specialize (Hseg trait).
  destruct (decide (trait ∈ segment_traits records)) as [Ht|Ht];
    [|by rewrite Hseg in Hgroups].
  destruct Hseg as (results & Hres & Hrun). rewrite Hgroups in Hres.
  injection Hres as <-.
  destruct (trait_results_spec attributes Hnd Hlevels (group_records trait records))
    as (results & Hrun' & Hspec).
  rewrite Hrun in Hrun'. injection Hrun' as <-.
  split; [|split].
  - unfold total_observations. rewrite Hn, <- (group_sizes_sum trait). f_equal.
    apply map_eq. intros v. rewrite !lookup_fmap. specialize (Hspec v).
    destruct (group_records trait records !! v) as [rs|].
    + destruct Hspec as (group & -> & _ & _ & Hlen). cbn. by rewrite Hlen.
    + by rewrite Hspec.
  - intros v group Hgroup. specialize (Hspec v).
    rewrite group_records_lookup in Hspec.
    destruct (decide (filter (λ r, trait_value trait r = v) records = []))
      as [Hnil|Hsome]; [by rewrite Hspec in Hgroup|].
    destruct Hspec as (group' & Hgroup' & _ & _ & Hlen).
    rewrite Hgroup in Hgroup'. injection Hgroup' as <-. rewrite Hlen.
    destruct (filter _ records); [done | cbn; lia].
  - intros v Hall.
    assert (filter (λ r, trait_value trait r = v) records = records) as Hfilter
      by (by apply filter_all).
    pose proof (Hspec v) as Hv. rewrite group_records_lookup, Hfilter in Hv.
    rewrite decide_False in Hv by done.
    destruct Hv as (group & Hgroup & Hgu & Hgi & Hgn).
    exists group. split; [|split; [|split]].
    + apply map_eq. intros w. destruct (decide (w = v)) as [->|Hw].
      * by rewrite lookup_singleton_eq.
      * rewrite lookup_singleton_ne by done. specialize (Hspec w).
        rewrite group_records_lookup in Hspec.
        rewrite filter_none in Hspec; [by rewrite decide_True in Hspec|].
        intros rec Hrec. by rewrite (Hall rec Hrec).
    + rewrite Hu in Hgu. by injection Hgu.
    + rewrite Hgi, Hi. f_equal. rewrite Hu in Hgu. by injection Hgu.
    + by rewrite Hgn, Hn.
Qed.

Lemma analyze_partition_witness :
  ∃ a,
    analyze records_segments attrs_color = Ok a
    ∧ an_n_observations a = length records_segments
    ∧ ∀ trait groups,
        an_segments a !! trait = Some groups →
        total_observations groups = an_n_observations a
        ∧ (∀ v group, groups !! v = Some group → 0 < seg_n_observations group)
        ∧ ∀ v, (∀ rec, rec ∈ records_segments → trait_value trait rec = v) →
            ∃ group, groups = {[v := group]}
                     ∧ seg_utilities group = an_utilities a
                     ∧ seg_importance group = an_importance a
                     ∧ seg_n_observations group = an_n_observations a.
Proof.
  apply (analyze_partition records_segments attrs_color).
  - apply (bool_decide_unpack _). vm_compute. exact I.
  - intros a Ha. revert a Ha. apply Forall_forall.
    apply (bool_decide_unpack _). vm_compute. exact I.
  - discriminate.
Defined.

(** ** Results parser *)

Example parse_rows_results :
  _parse_results_csv rows_results spec_results
  = Ok [ {| task := 1; chosen_profile := Some {["color" := "red"]};
            agent_traits := {["segment" := "young"]} |};
         {| task := 2; chosen_profile := None;
            agent_traits := {["segment" := "young"]} |};
         {| task := 2; chosen_profile := Some {["color" := "red"]};
            agent_traits := ∅ |} ].
Proof. vm_compute. reflexivity. Qed.

Lemma mapM_result_app {A B} (f : A → result B) (l1 l2 : list A) :
  mapM f (l1 ++ l2) = k1 ← mapM f l1; k2 ← mapM f l2; Ok (k1 ++ k2).
Proof.
  induction l1 as [|x l1 IH]; cbn.
  - by destruct (mapM f l2).
  - destruct (f x); cbn; [|done]. rewrite IH.
    destruct (mapM f l1); cbn; [|done]. by destruct (mapM f l2).
Qed.

Lemma mapM_result_Ok {A B} (f : A → result B) (g : A → B) (l : list A) :
  (∀ x, x ∈ l → f x = Ok (g x)) → mapM f l = Ok (g <$> l).
Proof.
  induction l as [|x l IH]; intros Hf; [done|]. cbn.
  rewrite Hf by left. cbn. rewrite IH; [done|]. intros y Hy. apply Hf. by right.
Qed.


Lemma chr_Ok (n : nat) : (Z.of_nat n < 1114112)%Z → chr n = Ok (latin1 n).
Proof. intros Hn. unfold chr. by rewrite decide_True. Qed.



Lemma option_labels_Err (profiles_per_task : Z) :
  (max_profiles_per_task < profiles_per_task)%Z →
  option_labels profiles_per_task = Err ValueError.
Proof.
  unfold max_profiles_per_task. intros Hlt. unfold option_labels.
  destruct (Z_of_nat_complete 1114047) as [k Hk]; [lia|].
  replace (Z.to_nat profiles_per_task)
    with (k + S (Z.to_nat (profiles_per_task - 1114048))) by lia.
  rewrite seq_app, mapM_result_app.
  rewrite (mapM_result_Ok _ (λ i, latin1 (65 + i)) (seq 0 k));
    [|intros i Hi%elem_of_seq; apply chr_Ok; lia].
  cbn [mbind result_bind seq mapM].
  assert (chr (65 + (0 + k)) = Err ValueError) as ->; [|done].
  unfold chr. by rewrite decide_False by lia.
Qed.






Lemma parse_results_Err (rows : list Row) (design_spec : ResultsSpec) :
  ¬ (default 3 (rs_profiles_per_task design_spec) ≤ max_profiles_per_task)%Z →
  _parse_results_csv rows design_spec = Err ValueError.
Proof.
  intros Hlt. unfold _parse_results_csv. by rewrite option_labels_Err by lia.
Qed.






















(** With more options per task than characters to label them, the parser
    raises before it reads a row. *)
Example parse_too_many_options (rows : list Row) :
  _parse_results_csv rows spec_too_many_options = Err ValueError.
Proof. apply parse_results_Err. vm_compute. by intros H; apply H. Qed.

(** ** More iterations *)

Section iterations.
Context {G : RandomGen}.

Lemma iterations_loop_app (n m : nat) (profiles : list Profile)
    (attributes : Attributes) (n_tasks profiles_per_task min_diff : Z)
    (best_sets : option (list (list Profile))) (best_score : option Q)
    (s : rng_state) :
  iterations_loop (n + m) profiles attributes n_tasks profiles_per_task min_diff
    best_sets best_score s
  = match iterations_loop n profiles attributes n_tasks profiles_per_task min_diff
            best_sets best_score s with
    | Ok ((best_sets', best_score'), s') =>
        iterations_loop m profiles attributes n_tasks profiles_per_task min_diff
          best_sets' best_score' s'
    | Err e => Err e
    end.
Proof.
  revert best_sets best_score s. induction n as [|n IH]; intros best_sets best_score s.
  - done.
  - cbn [Nat.add iterations_loop]. unfold mbind, M_bind.
    destruct (attempt profiles attributes n_tasks profiles_per_task min_diff s)
      as [[[sets score] s1]|]; [|done].
    destruct (score_lt score best_score); apply IH.
Qed.

Lemma iterations_loop_score_le (m : nat) (profiles : list Profile)
    (attributes : Attributes) (n_tasks profiles_per_task min_diff : Z)
    (best_sets best_sets' : option (list (list Profile))) (score : Q)
    (best_score' : option Q) (s s' : rng_state) :
  iterations_loop m profiles attributes n_tasks profiles_per_task min_diff
    best_sets (Some score) s = Ok ((best_sets', best_score'), s') →
  ∃ score', best_score' = Some score' ∧ (score' <= score)%Q.
Proof.
  revert best_sets score s. induction m as [|m IH]; intros best_sets score s Hrun.
  - injection Hrun as <- <- <-. exists score. split; [done|]. apply Qle_refl.
  - cbn [iterations_loop] in Hrun. unfold mbind, M_bind in Hrun.
    destruct (attempt profiles attributes n_tasks profiles_per_task min_diff s)
      as [[[sets new_score] s1]|]; [|done].
    unfold score_lt in Hrun. destruct (Qlt_le_dec new_score score) as [Hlt|Hge].
    + apply IH in Hrun as (score' & -> & Hle). exists score'. split; [done|].
      apply Qlt_le_weak in Hlt. by apply (Qle_trans _ new_score).
    + by apply IH in Hrun.
Qed.

(** X26.  From the same generator state, a search with more iterations
    never returns a worse balance score than one with fewer, and it fails
    whenever the shorter one does. *)
Theorem more_iterations_never_worse (profiles : list Profile)
    (attributes : Attributes) (n_tasks profiles_per_task min_diff : Z)
    (iterations iterations' : Z) (s : rng_state) :
  (iterations ≤ iterations')%Z →
  match _generate_one_version profiles attributes n_tasks profiles_per_task
          min_diff iterations s,
        _generate_one_version profiles attributes n_tasks profiles_per_task
          min_diff iterations' s with
  | Ok ((_, Some score), _), Ok ((_, best_score'), _) =>
      ∃ score', best_score' = Some score' ∧ (score' <= score)%Q
  | Err _, Ok _ => False
  | _, _ => True
  end.
Proof.
  intros Hle. unfold _generate_one_version.
  replace (Z.to_nat iterations')
    with (Z.to_nat iterations + (Z.to_nat iterations' - Z.to_nat iterations))%nat
    by lia.
  rewrite iterations_loop_app.
  destruct (iterations_loop (Z.to_nat iterations) _ _ _ _ _ _ _ _)
    as [[[best_sets best_score] s1]|]; [|done].
  destruct best_score as [score|]; [|done].
  destruct (iterations_loop _ _ _ _ _ _ _ _ _) as [[[sets' score'] s2]|] eqn:Hrun;
    [|done].
  by eapply iterations_loop_score_le.
Qed.
End iterations.

Lemma more_iterations_never_worse_witness :
  match _generate_one_version (G := lcg) profiles_price_brand attrs_price_brand
          2 3 2 1 (rng_seed 0),
        _generate_one_version (G := lcg) profiles_price_brand attrs_price_brand
          2 3 2 4 (rng_seed 0) with
  | Ok ((_, Some score), _), Ok ((_, best_score'), _) =>
      ∃ score', best_score' = Some score' ∧ (score' <= score)%Q
  | Err _, Ok _ => False
  | _, _ => True
  end.
Proof.
  apply (more_iterations_never_worse (G := lcg) profiles_price_brand
           attrs_price_brand 2 3 2 1 4 (rng_seed 0)).
  lia.
Defined.

(** ** Agent traits *)







(** ** The pool of first profiles *)

Section pool.
Context {G : RandomGen} {HG : RandomGenLaws G}.

Lemma first_profiles_snoc (choice_sets : list (list Profile)) (first : Profile)
    (rest : list Profile) :
  first_profiles (choice_sets ++ [first :: rest])
  = first_profiles choice_sets ++ [first].
Proof. unfold first_profiles. by rewrite omap_app. Qed.

Lemma one_task_pool (profiles available : list Profile)
    (profiles_per_task min_diff : Z) (rounds : list (list Profile))
    (current : list Profile) :
  Forall (λ round, round ≡ₚ profiles) rounds →
  current ++ available ≡ₚ profiles →
  post (one_task profiles profiles_per_task min_diff available)
    (λ r, ∃ first rest rounds' current',
            r.1 = first :: rest
            ∧ concat rounds ++ current ++ [first] = concat rounds' ++ current'
            ∧ Forall (λ round, round ≡ₚ profiles) rounds'
            ∧ current' ++ r.2 ≡ₚ profiles).
Proof.
  intros Hrounds Hcur. unfold one_task.
  eapply (post_bind _ _ (λ av, ∃ rounds' current',
            concat rounds ++ current = concat rounds' ++ current'
            ∧ Forall (λ round, round ≡ₚ profiles) rounds'
            ∧ current' ++ av ≡ₚ profiles)).
  { destruct (decide (available = [])) as [->|].
    - eapply post_weaken; [apply post_shuffle|]. intros av Hav.
      exists (rounds ++ [current]), []. rewrite concat_app. cbn [concat].
      rewrite !app_nil_r. split; [done|]. split; [|done].
      apply Forall_app. split; [done|]. apply Forall_singleton.
      by rewrite app_nil_r in Hcur.
    - apply post_ret. by exists rounds, current. }
  intros av (rounds' & current' & Heq & Hrounds' & Hcur').
  eapply post_bind; [apply post_randint|]. intros i _.
  eapply (post_bind _ _ (λ r, av ≡ₚ r.1 :: r.2)).
  { apply post_lift. intros [x l'] Hpop. unfold pop in Hpop.
    destruct (av !! Z.to_nat i) as [y|] eqn:E; [|done].
    injection Hpop as <- <-. cbn [fst snd]. by apply delete_Permutation. }
  intros [first av2] Hpop. cbn [fst snd] in *.
  eapply (post_bind _ _ (λ _, True)); [done|]. intros c1 _.
  eapply (post_bind _ _ (λ task, ∃ added1 : list Profile, task = first :: added1)).
  { apply post_lift. intros task Hfill.
    apply fill_min_diff_added in Hfill as (added & -> & _). by exists added. }
  intros task (added1 & ->).
  eapply (post_bind _ _ (λ task, ∃ rest : list Profile, task = first :: rest)).
  { destruct (decide (Z.of_nat (length (first :: added1)) < profiles_per_task)%Z).
    - eapply (post_bind _ _ (λ _, True)); [done|]. intros c2 _. apply post_ret.
      destruct (fill_relaxed_added profiles_per_task c2 (first :: added1))
        as (added2 & -> & _).
      by exists (added1 ++ added2).
    - apply post_ret. by exists added1. }
  intros task (rest & ->). apply post_ret. cbn [fst snd].
  exists first, rest, rounds', (current' ++ [first]).
  split; [done|]. split; [by rewrite !app_assoc, Heq|]. split; [done|].
  rewrite <- Hcur', Hpop, <- app_assoc. done.
Qed.

Lemma tasks_loop_pool (n : nat) (profiles available : list Profile)
    (profiles_per_task min_diff : Z) (choice_sets : list (list Profile))
    (rounds : list (list Profile)) (current : list Profile) :
  first_profiles choice_sets = concat rounds ++ current →
  Forall (λ round, round ≡ₚ profiles) rounds →
  current ++ available ≡ₚ profiles →
  post (tasks_loop n profiles profiles_per_task min_diff available choice_sets)
    (λ sets, in_rounds profiles (first_profiles sets)).
Proof.
  revert available choice_sets rounds current.
  induction n as [|n IH]; intros available choice_sets rounds current Hfirsts Hrounds Hcur.
  - apply post_ret. exists rounds, current. split; [done|]. split; [done|].
    rewrite <- Hcur. apply submseteq_inserts_r. done.
  - cbn [tasks_loop]. eapply post_bind; [by apply (one_task_pool _ _ _ _ rounds current)|].
    intros [task av] (first & rest & rounds' & current' & Htask & Heq & Hrounds' & Hcur').
    cbn [fst snd] in *. subst task.
    apply (IH _ _ rounds' current'); [|done..].
    by rewrite first_profiles_snoc, Hfirsts, <- app_assoc.
Qed.

(** X28.  In the choice sets the search returns, the profiles drawn first
    for the tasks run through the profiles in rounds: no profile opens a
    second task before every profile has opened one. *)
Theorem first_profiles_in_rounds (profiles : list Profile) (attributes : Attributes)
    (n_tasks profiles_per_task min_diff iterations : Z) :
  post (_generate_one_version profiles attributes n_tasks profiles_per_task
          min_diff iterations)
    (λ r, ∀ sets, r.1 = Some sets → in_rounds profiles (first_profiles sets)).
Proof.
  unfold _generate_one_version.
  apply (iterations_loop_post _ _ _ _ _ _ _ _
           (λ sets, in_rounds profiles (first_profiles sets))); [|done].
  unfold attempt. eapply post_bind; [apply post_shuffle|]. intros av Hav.
  eapply post_bind.
  { by apply (tasks_loop_pool _ _ _ _ _ _ [] []). }
  intros sets Hsets. eapply (post_bind _ _ (λ _, True)); [by apply post_lift|].
  intros score _. by apply post_ret.
Qed.
End pool.

Lemma first_profiles_in_rounds_witness :
  post (_generate_one_version (G := lcg) profiles_price_brand attrs_price_brand
          2 3 2 5)
    (λ r, ∀ sets, r.1 = Some sets →
          in_rounds profiles_price_brand (first_profiles sets)).
Proof.
  exact (first_profiles_in_rounds (G := lcg) (HG := lcg_laws) profiles_price_brand
           attrs_price_brand 2 3 2 5).
Defined.

(** ** A perfectly balanced design *)

Lemma Qsum_zero_inv (l : list Q) :
  (∀ x, x ∈ l → (0 <= x)%Q) → (Qsum l == 0)%Q → ∀ x, x ∈ l → (x == 0)%Q.
Proof.
  induction l as [|y l IH]; intros Hnn Hsum x Hx; [by apply elem_of_nil in Hx|].
  rewrite Qsum_cons in Hsum.
  assert (0 <= y)%Q as Hy by (apply Hnn; left).
  assert (0 <= Qsum l)%Q as Hl.
  { apply Qsum_nonneg. intros z Hz. apply Hnn. by right. }
  assert (y == 0)%Q as Hy0.
  { apply Qle_antisym; [|done]. rewrite <- Hsum.
    rewrite <- (Qplus_0_r y) at 1. by apply Qplus_le_compat; [apply Qle_refl|]. }
  apply elem_of_cons in Hx as [->|Hx]; [done|].
  apply IH; [|by rewrite Hy0, Qplus_0_l in Hsum|done].
  intros z Hz. apply Hnn. by right.
Qed.

Lemma deviation_zero_inv (obs : nat) (e : Q) :
  (0 < e)%Q → (deviation obs e == 0)%Q → (Qnat obs == e)%Q.
Proof.
  intros He. unfold deviation. destruct (Qlt_le_dec 0 e) as [_|Hle].
  - unfold Qdiv. intros [Hsq|Hinv]%Qmult_integral.
    + change ((Qnat obs - e) ^ 2)%Q with ((Qnat obs - e) * (Qnat obs - e))%Q in Hsq.
      assert (Qnat obs - e == 0)%Q as H0 by (by apply Qmult_integral in Hsq as [?|?]).
      rewrite <- (Qplus_0_l e), <- H0. ring.
    + exfalso. apply (Qlt_irrefl 0). rewrite <- Hinv at 2. by apply Qinv_lt_0_compat.
  - exfalso. by apply (Qlt_irrefl 0), (Qlt_le_trans _ e).
Qed.

Lemma expected_pos (choice_sets : list (list Profile)) (levels : list string) :
  slots choice_sets ≠ [] → levels ≠ [] → (0 < expected choice_sets levels)%Q.
Proof.
  intros Hs Hl. unfold expected, Qdiv. apply Qmult_lt_0_compat.
  - unfold Qnat. change 0%Q with (inject_Z 0). rewrite <- Zlt_Qlt.
    destruct (slots choice_sets); [done | cbn; lia].
  - apply Qinv_lt_0_compat. unfold Qnat. change 0%Q with (inject_Z 0).
    rewrite <- Zlt_Qlt. destruct levels; [done | cbn; lia].
Qed.

(** X29.  For a design with at least one profile slot, the balance score
    is 0 if and only if every level of every attribute fills exactly its
    expected number of slots, the number of slots divided by the number
    of levels of the attribute. *)
Theorem level_balance_score_zero_iff (choice_sets : list (list Profile))
    (attributes : Attributes) :
  (∀ p a, p ∈ slots choice_sets → a ∈ attributes → is_Some (p !! a.1)) →
  slots choice_sets ≠ [] →
  ∃ score,
    _level_balance_score choice_sets attributes = Ok score
    ∧ ((score == 0)%Q
       ↔ ∀ a level, a ∈ attributes → level ∈ a.2 →
           (Qnat (observed choice_sets a.1 level) == expected choice_sets a.2)%Q).
Proof.
  intros Hall Hslots.
  destruct (level_balance_score_ok choice_sets attributes Hall)
    as (score & Hrun & Heq).
  exists score. split; [exact Hrun|].
  rewrite Heq, balance_formula_unfold. split.
  - intros Hzero a level Ha Hl.
    apply deviation_zero_inv.
    { apply expected_pos; [done|]. intros Hnil. rewrite Hnil in Hl.
      by apply elem_of_nil in Hl. }
    apply (Qsum_zero_inv ((λ level, deviation (observed choice_sets a.1 level)
                                      (expected choice_sets a.2)) <$> a.2)).
    + intros y (l & -> & _)%list_elem_of_fmap. apply deviation_nonneg.
    + eapply Qsum_zero_inv; [|exact Hzero|].
      * intros x (b & -> & _)%list_elem_of_fmap. apply Qsum_nonneg.
        intros y (l & -> & _)%list_elem_of_fmap. apply deviation_nonneg.
      * apply list_elem_of_fmap. by exists a.
    + apply list_elem_of_fmap. by exists level.
  - intros Hexp. apply Qsum_zero. intros x (a & -> & Ha)%list_elem_of_fmap.
    apply Qsum_zero. intros y (level & -> & Hl)%list_elem_of_fmap.
    apply deviation_zero. by apply Hexp.
Qed.

Lemma level_balance_score_zero_iff_witness :
  ∃ score,
    _level_balance_score uniform_design attrs_price_brand = Ok score
    ∧ ((score == 0)%Q
       ↔ ∀ a level, a ∈ attrs_price_brand → level ∈ a.2 →
           (Qnat (observed uniform_design a.1 level)
            == expected uniform_design a.2)%Q).
Proof.
  apply (level_balance_score_zero_iff uniform_design attrs_price_brand).
  - apply profiles_total_Forall. apply (bool_decide_unpack _). vm_compute. exact I.
  - discriminate.
Defined.

(** ** Importance and the zero point of the utilities *)

Lemma is_range_unique (values values' : list R) (c r r' : R) :
  (∀ v, v ∈ values' ↔ ∃ u, u ∈ values ∧ v = (u + c)%R) →
  is_range values r → is_range values' r' → r' = r.
Proof.
  intros Hshift Hr Hr'. unfold is_range in *.
  destruct values as [|x values], values' as [|x' values'].
  - by subst.
  - exfalso. destruct (Hshift x') as [(u & Hu & _) _]; [left|].
    by apply elem_of_nil in Hu.
  - exfalso. destruct (Hshift (x + c)%R) as [_ Hin].
    assert ((x + c)%R ∈ ([] : list R)) as Hnil by (apply Hin; exists x; split; [left|done]).
    by apply elem_of_nil in Hnil.
  - destruct Hr as (hi & lo & Hhi & Hlo & Hbound & ->).
    destruct Hr' as (hi' & lo' & Hhi' & Hlo' & Hbound' & ->).
    apply Hshift in Hhi' as (uh & Huh & ->).
    apply Hshift in Hlo' as (ul & Hul & ->).
    assert ((hi + c)%R ∈ x' :: values') as Hh by (apply Hshift; by exists hi).
    assert ((lo + c)%R ∈ x' :: values') as Hl by (apply Hshift; by exists lo).
    pose proof (Hbound uh Huh). pose proof (Hbound ul Hul).
    pose proof (Hbound' _ Hh). pose proof (Hbound' _ Hl). lra.
Qed.

Lemma utility_range_shift (attr_utils : gmap string R) (c : R) :
  utility_range ((λ u, u + c)%R <$> attr_utils) = utility_range attr_utils.
Proof.
  apply (is_range_unique (map_to_list attr_utils).*2
           (map_to_list ((λ u, u + c)%R <$> attr_utils)).*2 c);
    [|apply utility_range_is_range..].
  intros v. rewrite !list_elem_of_fmap. split.
  - intros ([k w] & -> & Hkw). apply elem_of_map_to_list in Hkw.
    rewrite lookup_fmap in Hkw.
    destruct (attr_utils !! k) as [u|] eqn:Hk; [|done]. injection Hkw as <-.
    exists u. split; [|done]. apply list_elem_of_fmap. exists (k, u).
    split; [done|]. by apply elem_of_map_to_list.
  - intros (u & ([k w] & -> & Hkw)%list_elem_of_fmap & ->).
    apply elem_of_map_to_list in Hkw. exists (k, (w + c)%R). split; [done|].
    apply elem_of_map_to_list. by rewrite lookup_fmap, Hkw.
Qed.

(** X30.  The importance percentages only see differences between the
    utilities of an attribute: adding a constant to all utilities of an
    attribute, a different one for each attribute if need be, leaves every
    importance unchanged.  In particular they do not depend on the zero
    point that the centering of the utilities fixes. *)
Theorem importance_shift_invariant (utilities utilities' : UtilityTable)
    (shift : string → R) :
  (∀ attr_name,
     utilities' !! attr_name
     = (λ attr_utils, (λ u, u + shift attr_name)%R <$> attr_utils)
         <$> utilities !! attr_name) →
  _compute_importance utilities' = _compute_importance utilities.
Proof.
  intros Hshift. unfold _compute_importance.
  assert (utility_range <$> utilities' = utility_range <$> utilities) as ->; [|done].
  apply map_eq. intros attr_name. rewrite !lookup_fmap, Hshift.
  destruct (utilities !! attr_name) as [attr_utils|]; [|done]. cbn.
  by rewrite utility_range_shift.
Qed.

Lemma importance_shift_invariant_witness :
  _compute_importance utilities_abc_shifted = _compute_importance utilities_abc.
Proof.
  apply (importance_shift_invariant utilities_abc utilities_abc_shifted (λ _, 1%R)).
  intros attr_name. unfold utilities_abc, utilities_abc_shifted.
  destruct (decide (attr_name = "option")) as [->|Hne].
  - rewrite !lookup_singleton_eq. cbn. f_equal.
    rewrite !fmap_insert, map_fmap_singleton.
    repeat f_equal; lra.
  - by rewrite !lookup_singleton_ne.
Defined.
